(** * The restore finalizer controller

    A shallow embedding of [pkg/controller/restore_finalizer_controller.go]:
    the reconciler that takes a restore out of its finalizing phase, the
    finalization task that patches dynamically provisioned persistent
    volumes, and the bookkeeping of warnings and errors around them.

    Part I holds the definitions, Part II the properties. *)

From Stdlib Require Import ZArith Lia Ascii.
From Stdlib Require String.
From stdpp Require Import gmap strings list fin_maps.

Local Open Scope Z_scope.

(** * Part I: definitions *)

(** ** Go's [int]

    [Status.Warnings], [Status.Errors] and the two counters of [Reconcile]
    are Go [int]s: 64-bit two's complement on the platforms the server is
    built for.  Additions wrap around. *)
Module GoInt.

Definition min_int : Z := - 2 ^ 63.
Definition max_int : Z := 2 ^ 63 - 1.

Definition in_range (z : Z) : Prop := min_int <= z <= max_int.

Definition wrap (z : Z) : Z := (z + 2 ^ 63) mod 2 ^ 64 - 2 ^ 63.

(** [x + y] and [x += y] on [int]. *)
Definition add (x y : Z) : Z := wrap (x + y).

(** [len(s)] of a slice. *)
Definition len {A} (l : list A) : Z := Z.of_nat (length l).

End GoInt.

(** ** Results

    [results.Result] of [pkg/util/results]: the messages of one kind
    (warnings or errors), split by scope. *)

(** Modelled from the spec: the [Result] record of [pkg/util/results], a
    record partitioned into three scopes: global (Velero), cluster, and a
    mapping from namespace name to its list of messages. *)
Record Result : Type := mkResult {
  Velero : list string;
  Cluster : list string;
  Namespaces : gmap string (list string)
}.

(** [results.Result{}], the zero value. *)
Definition Result_zero : Result :=
  {| Velero := []; Cluster := []; Namespaces := ∅ |}.

(** Modelled from the spec: [Result.Merge] of [pkg/util/results]; merging
    is list concatenation per scope. *)
Definition Merge (r other : Result) : Result :=
  {| Velero := Velero r ++ Velero other;
     Cluster := Cluster r ++ Cluster other;
     Namespaces :=
       union_with (λ l1 l2, Some (l1 ++ l2)) (Namespaces r) (Namespaces other) |}.

(** Modelled from the spec: [Result.Add] of [pkg/util/results]; a failure
    is appended under the given namespace scope. *)
Definition Add (ns : string) (msg : string) (r : Result) : Result :=
  {| Velero := Velero r;
     Cluster := Cluster r;
     Namespaces :=
       <[ns := default [] (Namespaces r !! ns) ++ [msg]]> (Namespaces r) |}.

(** Modelled from the spec: [Result.IsEmpty] of [pkg/util/results]; a
    Result "has any errors" when some scope holds an entry. *)
Definition IsEmpty (r : Result) : bool :=
  bool_decide (Velero r = [] ∧ Cluster r = [] ∧
               map_Forall (λ _ l, l = []) (Namespaces r)).

(** The number of entries of a Result, per namespace map and across the
    three scopes. *)
Definition nsEntries (m : gmap string (list string)) : nat :=
  map_fold (λ _ l n, (n + length l)%nat) 0%nat m.

Definition entries (r : Result) : nat :=
  (length (Velero r) + length (Cluster r) + nsEntries (Namespaces r))%nat.

(** The counting loops of [Reconcile]:
    [cnt := len(r.Velero) + len(r.Cluster)] followed by
    [for _, w := range r.Namespaces { cnt += len(w) }]. *)
Definition countEntries (r : Result) : Z :=
  map_fold (λ _ w cnt, GoInt.add cnt (GoInt.len w))
           (GoInt.add (GoInt.len (Velero r)) (GoInt.len (Cluster r)))
           (Namespaces r).

(** ** Strings *)

(** [s[:n]]. *)
Definition prefix_of (n : nat) (s : string) : string := String.substring 0 n s.

(** [fmt.Sprintf("%s/%s", a, b)]. *)
Definition sprintf_slash (a b : string) : string := a +:+ "/" +:+ b.

(** Whether the byte [c] occurs in [s]. *)
Fixpoint occurs (c : ascii) (s : string) : bool :=
  match s with
  | EmptyString => false
  | String c' s' => bool_decide (c' = c) || occurs c s'
  end.

(** ** The inventory of restored resources *)

(** Modelled from the spec: [restore.ItemRestoreResultCreated] of
    [pkg/restore], the literal status tag [created]. *)
Definition ItemRestoreResultCreated : string := "created".

Definition is_lparen (c : ascii) : bool := bool_decide (c = "("%char).
Definition is_rparen (c : ascii) : bool := bool_decide (c = ")"%char).

(** [regexp.MustCompile(`\(([^)]+)\)`).FindAllStringSubmatch(s, -1)], reduced
    to the capture group of each match (index [1] of a submatch).

    The matches are the successive leftmost, non-overlapping ones.  A match
    starts at an opening parenthesis and runs to the next closing one, with
    at least one byte in between; the bytes in between may be opening
    parentheses.  [cur] is [None] while looking for the start of a match and
    [Some g] once one has started, with [g] the bytes read since, last
    first.  An opening parenthesis directly followed by a closing one starts
    no match, and the search resumes after that closing one. *)
Fixpoint submatches (cur : option string) (s : string) : list string :=
  match s with
  | EmptyString => []
  | String c s' =>
      match cur with
      | None =>
          if is_lparen c then submatches (Some EmptyString) s'
          else submatches None s'
      | Some g =>
          if is_rparen c then
            match g with
            | EmptyString => submatches None s'
            | _ => String.rev g :: submatches None s'
            end
          else submatches (Some (String c g)) s'
      end
  end.

Definition FindAllStringSubmatch (s : string) : list string := submatches None s.

(** The test of the [if] in the loop body:
    [len(matches) > 0 && matches[len(matches)-1][1] == ItemRestoreResultCreated]. *)
Definition lastIsCreated (pvc : string) : bool :=
  match last (FindAllStringSubmatch pvc) with
  | Some g => bool_decide (g = ItemRestoreResultCreated)
  | None => false
  end.

(** [pvc[:len(pvc)-len("(created)")]] *)
Definition createdKey (pvc : string) : string :=
  prefix_of (String.length pvc - String.length "(created)") pvc.

Definition pvcKey : string := "v1/PersistentVolumeClaim".

Definition getRestoredPVCFromRestoredResourceList
    (restoredResourceList : gmap string (list string)) : gset string :=
  foldl (λ (pvcList : gset string) pvc,
           if lastIsCreated pvc then {[ createdKey pvc ]} ∪ pvcList else pvcList)
        ∅
        (default [] (restoredResourceList !! pvcKey)).

(** ** The objects of the cluster and of the backup *)

(** [k8s.io/api/core/v1]: the fields of a claim and of a volume that the
    controller reads or writes. *)
Record PersistentVolumeClaim : Type := mkPVC {
  pvc_Name : string;
  pvc_VolumeName : string;          (* Spec.VolumeName *)
  pvc_Phase : string                (* Status.Phase *)
}.

Record ObjectReference : Type := mkRef {
  ref_Namespace : string;
  ref_Name : string
}.

Record PersistentVolume : Type := mkPV {
  pv_Name : string;
  pv_Labels : gmap string string;
  pv_ReclaimPolicy : string;        (* Spec.PersistentVolumeReclaimPolicy *)
  pv_ClaimRef : option ObjectReference;   (* Spec.ClaimRef, a pointer *)
  pv_Phase : string                 (* Status.Phase *)
}.

Definition ClaimBound : string := "Bound".
Definition VolumeBound : string := "Bound".

(** Modelled from the spec: [PVInfo] of [internal/volume], the reclaim
    policy and the label mapping of the original volume. *)
Record PVInfo : Type := mkPVInfo {
  ReclaimPolicy : string;
  Labels : gmap string string
}.

(** Modelled from the spec: [VolumeInfo] of [internal/volume], one record
    per volume captured at backup time; [vi_PVInfo] is the optional
    [PVInfo] pointer. *)
Record VolumeInfo : Type := mkVolumeInfo {
  PVCName : string;
  PVCNamespace : string;
  PVName : string;
  BackupMethod : string;
  vi_PVInfo : option PVInfo
}.

(** Modelled from the spec: the backup method tags of [internal/volume]. *)
Definition PodVolumeBackup : string := "PodVolumeBackup".
Definition CSISnapshot : string := "CSISnapshot".

Definition Time : Type := Z.

(** Modelled from the spec: [Restore] of [pkg/apis/velero/v1]: name,
    reference to the source backup, namespace remapping table, phase,
    cumulative warning and error counts, completion timestamp. *)
Record Restore : Type := mkRestore {
  Name : string;
  BackupName : string;              (* Spec.BackupName *)
  ScheduleName : string;            (* Spec.ScheduleName *)
  NamespaceMapping : gmap string string;    (* Spec.NamespaceMapping *)
  Phase : string;                   (* Status.Phase *)
  Warnings : Z;                     (* Status.Warnings *)
  Errors : Z;                       (* Status.Errors *)
  CompletionTimestamp : option Time (* Status.CompletionTimestamp *)
}.

(** Modelled from the spec: the restore phases of [pkg/apis/velero/v1]
    that the controller names. *)
Definition RestorePhaseFinalizing : string := "Finalizing".
Definition RestorePhaseFinalizingPartiallyFailed : string :=
  "FinalizingPartiallyFailed".
Definition RestorePhaseCompleted : string := "Completed".
Definition RestorePhasePartiallyFailed : string := "PartiallyFailed".

Definition set_Phase (p : string) (r : Restore) : Restore :=
  {| Name := Name r; BackupName := BackupName r; ScheduleName := ScheduleName r;
     NamespaceMapping := NamespaceMapping r; Phase := p;
     Warnings := Warnings r; Errors := Errors r;
     CompletionTimestamp := CompletionTimestamp r |}.

Definition set_Counts (w e : Z) (r : Restore) : Restore :=
  {| Name := Name r; BackupName := BackupName r; ScheduleName := ScheduleName r;
     NamespaceMapping := NamespaceMapping r; Phase := Phase r;
     Warnings := w; Errors := e;
     CompletionTimestamp := CompletionTimestamp r |}.

Definition set_CompletionTimestamp (t : option Time) (r : Restore) : Restore :=
  {| Name := Name r; BackupName := BackupName r; ScheduleName := ScheduleName r;
     NamespaceMapping := NamespaceMapping r; Phase := Phase r;
     Warnings := Warnings r; Errors := Errors r;
     CompletionTimestamp := t |}.

(** ** Errors *)

Inductive error : Type :=
  (** an error returned by a collaborator; the flag is what
      [apierrors.IsNotFound] answers on it *)
  | ApiError (notFound : bool) (msg : string)
  (** [errors.Wrap(cause, msg)] and [errors.Wrapf] *)
  | Wrapped (cause : error) (msg : string)
  (** [fmt.Errorf("PV was bound by unexpected PVC, unexpected PVC: %s/%s, expected PVC: %s/%s", ...)] *)
  | UnexpectedPVC (refNamespace refName restoredNamespace pvcName : string)
  (** [fmt.Errorf("fail to patch dynamic PV, err: %s, PVC: %s, PV: %s", ...)] *)
  | FailToPatch (cause : error) (pvcName pvName : string)
  (** what the poll returns when its deadline has passed *)
  | DeadlineExceeded.

Definition IsNotFound (e : error) : bool :=
  match e with
  | ApiError nf _ => nf
  | _ => false
  end.

(** [err.Error()] *)
Fixpoint Error (e : error) : string :=
  match e with
  | ApiError _ msg => msg
  | Wrapped cause msg => msg +:+ ": " +:+ Error cause
  | UnexpectedPVC rns rn ns n =>
      "PV was bound by unexpected PVC, unexpected PVC: " +:+ rns +:+ "/" +:+ rn
      +:+ ", expected PVC: " +:+ ns +:+ "/" +:+ n
  | FailToPatch cause pvc pv =>
      "fail to patch dynamic PV, err: " +:+ Error cause +:+ ", PVC: " +:+ pvc
      +:+ ", PV: " +:+ pv
  | DeadlineExceeded => "context deadline exceeded"
  end.

(** ** The collaborators

    The reconciler talks to the cluster API, to the persistence layer, to
    the metrics registry and to the clock.  Their answers are not decided
    by the controller: a collaborator is an operation on a world [W] that
    is left abstract, so that every property holds for every behaviour of
    the collaborators.  Every call is recorded as an event. *)

(** Modelled from the spec: what [fetchBackupInfoInternal] (another file of
    package [controller]) hands back, reduced to the backup's storage
    location. *)
Record backupInfo : Type := mkBackupInfo {
  location : string
}.

Inductive Event : Type :=
  | EvGetRestore (req : string)
  | EvFetchBackupInfo (namespace backupName : string)
  | EvGetBackupStore (loc : string)
  | EvGetBackupVolumeInfos (loc backupName : string)
  | EvGetRestoredResourceList (loc restoreName : string)
  | EvGetRestoreResults (loc restoreName : string)
  | EvPutResults (loc : string) (restore : Restore) (m : gmap string Result)
  | EvRegisterRestoreSuccess (scheduleName : string)
  | EvRegisterRestorePartialFailure (scheduleName : string)
  | EvNow
  | EvPatchRestore (original updated : Restore)
  | EvCleanupClients
  | EvGetPVC (namespace name : string)
  | EvGetPV (name : string)
  | EvPatchPV (original updated : PersistentVolume).

Record Env (W : Type) : Type := mkEnv {
  (* r.Get(ctx, req.NamespacedName, original) *)
  getRestore : string → W → (error + Restore) * W;
  (* Modelled from the spec: fetchBackupInfoInternal(r.Client, r.namespace, name),
     which loads the backup location metadata of a backup *)
  fetchBackupInfoInternal : string → string → W → (error + backupInfo) * W;
  (* r.backupStoreGetter.Get(info.location, pluginManager, r.logger); the
     store is known by the location it is scoped to *)
  getBackupStore : string → W → option error * W;
  (* the persistence layer contract *)
  GetBackupVolumeInfos : string → string → W → (error + list VolumeInfo) * W;
  GetRestoredResourceList :
    string → string → W → (error + gmap string (list string)) * W;
  GetRestoreResults : string → string → W → (error + gmap string Result) * W;
  (* Modelled from the spec: putResults(restore, m, backupStore), the write
     operation accepting the warnings and errors keyed by restore name *)
  putResults : string → Restore → gmap string Result → W → option error * W;
  (* r.metrics *)
  RegisterRestoreSuccess : string → W → W;
  RegisterRestorePartialFailure : string → W → W;
  (* r.clock.Now() *)
  now : W → Time * W;
  (* Modelled from the spec: kubeutil.PatchResource(original, updated, client),
     a patch operation accepting an original/updated pair *)
  patchRestore : Restore → Restore → W → option error * W;
  (* pluginManager.CleanupClients() *)
  CleanupClients : W → W;
  (* ctx.crClient.Get for a claim (namespace, name) and for a volume (name) *)
  getPVC : string → string → W → (error + PersistentVolumeClaim) * W;
  getPV : string → W → (error + PersistentVolume) * W;
  patchPV : PersistentVolume → PersistentVolume → W → option error * W;
  (* how many times the 10-second timer of a poll fires before the
     10-minute deadline [PVPatchMaximumDuration] is reached *)
  pollTicks : nat
}.

Arguments getRestore {W}.
Arguments fetchBackupInfoInternal {W}.
Arguments getBackupStore {W}.
Arguments GetBackupVolumeInfos {W}.
Arguments GetRestoredResourceList {W}.
Arguments GetRestoreResults {W}.
Arguments putResults {W}.
Arguments RegisterRestoreSuccess {W}.
Arguments RegisterRestorePartialFailure {W}.
Arguments now {W}.
Arguments patchRestore {W}.
Arguments CleanupClients {W}.
Arguments getPVC {W}.
Arguments getPV {W}.
Arguments patchPV {W}.
Arguments pollTicks {W}.

(** The monad of the controller: the world is threaded through, and the
    events of a computation are collected in the order of the calls. *)
Definition M (W A : Type) : Type := W → A * W * list Event.

Definition ret {W A} (a : A) : M W A := λ w, (a, w, []).

Definition bind {W A B} (m : M W A) (f : A → M W B) : M W B :=
  λ w, let '(a, w1, t1) := m w in
       let '(b, w2, t2) := f a w1 in
       (b, w2, t1 ++ t2).

(** A call of a collaborator that answers, and one that does not. *)
Definition call {W A} (ev : Event) (op : W → A * W) : M W A :=
  λ w, let '(a, w') := op w in (a, w', [ev]).

Definition act {W} (ev : Event) (op : W → W) : M W unit :=
  λ w, (tt, op w, [ev]).

Declare Scope ctl_scope.
Delimit Scope ctl_scope with ctl.
Notation "'let*' x ':=' m 'in' k" := (bind m (λ x, k))
  (at level 10, x name, m at level 100, k at level 200) : ctl_scope.

Definition result_of {W A} (x : A * W * list Event) : A := x.1.1.
Definition world_of {W A} (x : A * W * list Event) : W := x.1.2.
Definition trace_of {W A} (x : A * W * list Event) : list Event := x.2.

(** ** The finalization task: patching the dynamically provisioned volumes *)

Definition needPatch (newPV : PersistentVolume) (pvInfo : PVInfo) : bool :=
  if negb (bool_decide (pv_ReclaimPolicy newPV = ReclaimPolicy pvInfo)) then true
  else
    let newPVLabels := pv_Labels newPV in
    let pvLabels := Labels pvInfo in
    map_fold (λ k v found,
                found ||
                match newPVLabels !! k with
                | None => true
                | Some v' => negb (bool_decide (v' = v))
                end)
             false pvLabels.

(** [updatedPV := pv.DeepCopy()] with its labels and reclaim policy set. *)
Definition updatedPV (pv : PersistentVolume) (pvInfo : PVInfo) : PersistentVolume :=
  {| pv_Name := pv_Name pv;
     pv_Labels := Labels pvInfo;
     pv_ReclaimPolicy := ReclaimPolicy pvInfo;
     pv_ClaimRef := pv_ClaimRef pv;
     pv_Phase := pv_Phase pv |}.

Record finalizerContext : Type := mkFinalizerContext {
  restore : Restore;
  volumeInfo : list VolumeInfo;
  restoredPVCList : gset string
}.

(** The restored namespace of a volume: its claim's namespace, remapped
    when the restore remaps it. *)
Definition restoredNamespaceOf (r : Restore) (volumeItem : VolumeInfo) : string :=
  match NamespaceMapping r !! PVCNamespace volumeItem with
  | Some remapped => remapped
  | None => PVCNamespace volumeItem
  end.

(** The test of the loop body of [patchDynamicPVWithVolumeInfo]: whether a
    worker is started for [volumeItem], and with which [PVInfo] and
    restored namespace. *)
Definition startsWorker (ctx : finalizerContext) (volumeItem : VolumeInfo)
    : option (PVInfo * string) :=
  if bool_decide (BackupMethod volumeItem = PodVolumeBackup)
     || bool_decide (BackupMethod volumeItem = CSISnapshot)
  then
    match vi_PVInfo volumeItem with
    | Some pvInfo =>
        let restoredNamespace := restoredNamespaceOf (restore ctx) volumeItem in
        let pvcKey := sprintf_slash restoredNamespace (PVCName volumeItem) in
        if bool_decide (pvcKey ∈ restoredPVCList ctx)
        then Some (pvInfo, restoredNamespace)
        else None
    | None => None
    end
  else None.

(** ** The goroutines of the pool

    The control state of [patchDynamicPVWithVolumeInfo]: the loop of the
    main goroutine, the workers it has started, the buffered channel
    [semaphore], the mutex [resultLock] and the wait group [pvWaitGroup]. *)

Definition maxConcurrency : nat := 3.

Inductive WorkerPC : Type :=
  | AtGate                        (* at [semaphore <- struct{}{}] *)
  | InPoll (ticks : nat)          (* in the poll, before an attempt *)
  | Failing (err : error)         (* the poll has failed: at [resultLock.Lock()] *)
  | Recording (err : error)       (* holds the lock: at [errs.Add] *)
  | AtRelease (locked : bool)     (* at [<-semaphore] *)
  | AtUnlock                      (* the deferred [resultLock.Unlock()] *)
  | AtDone                        (* the deferred [pvWaitGroup.Done()] *)
  | Finished.

Record Worker : Type := mkWorker {
  w_volInfo : VolumeInfo;
  w_pvInfo : PVInfo;
  w_restoredNamespace : string;
  w_pc : WorkerPC
}.

Inductive MainPC : Type :=
  | Looping (rest : list VolumeInfo)   (* in the [for] loop *)
  | Waiting                            (* at [pvWaitGroup.Wait()] *)
  | Returned.

Record Pool (W : Type) : Type := mkPool {
  p_world : W;
  p_trace : list (nat * Event);     (* the calls, with the worker that made them *)
  semaphore : nat;                  (* len(semaphore) *)
  resultLock : bool;                (* whether the mutex is held *)
  pvWaitGroup : nat;                (* the counter of the wait group *)
  p_errs : Result;
  workers : list Worker;
  p_main : MainPC
}.

Arguments mkPool {W}.
Arguments p_world {W}.
Arguments p_trace {W}.
Arguments semaphore {W}.
Arguments resultLock {W}.
Arguments pvWaitGroup {W}.
Arguments p_errs {W}.
Arguments workers {W}.
Arguments p_main {W}.

(** A worker is in flight from the moment it has put its token into
    [semaphore] until it takes it out again. *)
Definition holdsSlot (wk : Worker) : bool :=
  match w_pc wk with
  | InPoll _ | Failing _ | Recording _ | AtRelease _ => true
  | _ => false
  end.

Definition unfinished (wk : Worker) : bool :=
  match w_pc wk with
  | Finished => false
  | _ => true
  end.

(** Whether the worker may still record a failure. *)
Definition mayRecord (wk : Worker) : bool :=
  match w_pc wk with
  | AtGate | InPoll _ | Failing _ | Recording _ => true
  | _ => false
  end.

Fixpoint countb (p : Worker → bool) (l : list Worker) : nat :=
  match l with
  | [] => 0
  | wk :: l' => ((if p wk then 1 else 0) + countb p l')%nat
  end.

Definition inFlight {W} (s : Pool W) : nat := countb holdsSlot (workers s).

(** The volumes that the loop of the main goroutine has still to look at,
    and the workers that it starts for a list of volumes. *)
Definition remaining (pc : MainPC) : list VolumeInfo :=
  match pc with
  | Looping rest => rest
  | _ => []
  end.

Definition started (ctx : finalizerContext) (volumes : list VolumeInfo)
    : list (VolumeInfo * PVInfo * string) :=
  omap (λ volumeItem,
          match startsWorker ctx volumeItem with
          | Some (pvInfo, restoredNamespace) => Some (volumeItem, pvInfo, restoredNamespace)
          | None => None
          end) volumes.

Definition assignment (wk : Worker) : VolumeInfo * PVInfo * string :=
  (w_volInfo wk, w_pvInfo wk, w_restoredNamespace wk).

Definition set_pc (pc : WorkerPC) (wk : Worker) : Worker :=
  {| w_volInfo := w_volInfo wk; w_pvInfo := w_pvInfo wk;
     w_restoredNamespace := w_restoredNamespace wk; w_pc := pc |}.

Definition initPool {W} (ctx : finalizerContext) (w : W) : Pool W :=
  {| p_world := w; p_trace := []; semaphore := 0; resultLock := false;
     pvWaitGroup := 0; p_errs := Result_zero; workers := [];
     p_main := Looping (volumeInfo ctx) |}.

(** The calls by which [Reconcile] loads what the finalization needs. *)
Definition loads namespace req (original : Restore) (info : backupInfo) : list Event :=
  [EvGetRestore req;
   EvFetchBackupInfo namespace (BackupName original);
   EvGetBackupStore (location info);
   EvGetBackupVolumeInfos (location info) (BackupName original);
   EvGetRestoredResourceList (location info) (Name original)].

(** What holds of the pool at every moment: the channel holds one token
    per worker in flight and never more than its capacity; the wait group
    counts the workers that have not finished; the main goroutine has only
    returned once every worker has finished; the workers are those of the
    volumes that the loop has looked at and selected; and the shared Result
    holds at most one entry per worker that can no longer record. *)
Definition pool_inv {W} (ctx : finalizerContext) (s : Pool W) : Prop :=
  semaphore s = inFlight s
  ∧ (semaphore s ≤ maxConcurrency)%nat
  ∧ pvWaitGroup s = countb unfinished (workers s)
  ∧ (p_main s = Returned → Forall (λ wk, w_pc wk = Finished) (workers s))
  ∧ (∃ seen, volumeInfo ctx = seen ++ remaining (p_main s)
             ∧ assignment <$> workers s = started ctx seen)
  ∧ (entries (p_errs s) + countb mayRecord (workers s) ≤ length (workers s))%nat.

Section Controller.

Context {W : Type} (env : Env W).

Local Open Scope ctl_scope.

(** The condition function handed to [wait.PollUntilContextTimeout]: one
    attempt.  [pvInfo] is what [volInfo.PVInfo] points to; a worker only
    exists for a volume whose pointer is not nil. *)
Definition pollCondition (volInfo : VolumeInfo) (pvInfo : PVInfo)
    (restoredNamespace : string) : M W (bool * option error) :=
  let* got := call (EvGetPVC restoredNamespace (PVCName volInfo))
              (getPVC env restoredNamespace (PVCName volInfo)) in
  match got with
  | inl err => if IsNotFound err then ret (false, None) else ret (false, Some err)
  | inr pvc =>
      if negb (bool_decide (pvc_Phase pvc = ClaimBound))
         || bool_decide (pvc_VolumeName pvc = "")
      then ret (false, None)
      else
        let pvName := pvc_VolumeName pvc in
        let* got := call (EvGetPV pvName) (getPV env pvName) in
        match got with
        | inl err =>
            if IsNotFound err then ret (false, None) else ret (false, Some err)
        | inr pv =>
            match pv_ClaimRef pv with
            | None => ret (false, None)
            | Some claimRef =>
                if negb (bool_decide (pv_Phase pv = VolumeBound))
                then ret (false, None)
                else if negb (bool_decide (ref_Name claimRef = pvc_Name pvc))
                        || negb (bool_decide (ref_Namespace claimRef = restoredNamespace))
                then ret (false,
                          Some (UnexpectedPVC (ref_Namespace claimRef) (ref_Name claimRef)
                                              restoredNamespace (pvc_Name pvc)))
                else if needPatch pv pvInfo
                then
                  let* err := call (EvPatchPV pv (updatedPV pv pvInfo))
                              (patchPV env pv (updatedPV pv pvInfo)) in
                  match err with
                  | Some e => ret (false, Some e)
                  | None => ret (true, None)
                  end
                else ret (true, None)
            end
        end
  end.

(** [wait.PollUntilContextTimeout(ctx, interval, timeout, true, condition)]
    of [k8s.io/apimachinery]: the condition is tried at once and then at
    every tick of the timer, until it reports an error or success, or the
    deadline passes; [ticks] is the number of ticks left before the
    deadline. *)
Fixpoint PollUntilContextTimeout (ticks : nat)
    (condition : M W (bool * option error)) : M W (option error) :=
  let* r := condition in
  match r.2 with
  | Some e => ret (Some e)
  | None =>
      if r.1 then ret None
      else match ticks with
           | O => ret (Some DeadlineExceeded)
           | S n => PollUntilContextTimeout n condition
           end
  end.

(** The body of a worker goroutine, between taking and giving back its
    slot: the poll, and the recording of its failure in the shared
    [errs]. *)
Definition patchWorker (volInfo : VolumeInfo) (pvInfo : PVInfo)
    (restoredNamespace : string) (errs : Result) : M W Result :=
  let* err := PollUntilContextTimeout (pollTicks env)
           (pollCondition volInfo pvInfo restoredNamespace) in
  match err with
  | Some e =>
      let err' := FailToPatch e (PVCName volInfo) (PVName volInfo) in
      ret (Add restoredNamespace (Error err') errs)
  | None => ret errs
  end.

(** The loop over [ctx.volumeInfo].  In this function the workers run one
    after the other, in the order in which the loop starts them; the
    interleavings of the goroutines are those of the pool machine below. *)
Fixpoint patchVolumes (ctx : finalizerContext) (volumes : list VolumeInfo)
    (errs : Result) : M W Result :=
  match volumes with
  | [] => ret errs
  | volumeItem :: rest =>
      match startsWorker ctx volumeItem with
      | Some (pvInfo, restoredNamespace) =>
          let* errs' := patchWorker volumeItem pvInfo restoredNamespace errs in
          patchVolumes ctx rest errs'
      | None => patchVolumes ctx rest errs
      end
  end.

Definition patchDynamicPVWithVolumeInfo (ctx : finalizerContext) : M W Result :=
  patchVolumes ctx (volumeInfo ctx) Result_zero.

(** The poll of a worker meets a volume that another claim has bound: an
    attempt, possibly after attempts that each ask for another one, fetches
    the claim of the worker and finds it bound, fetches the volume of that
    claim and finds it bound, and the claim reference of the volume names
    another claim or another namespace.  [e] is the error of that attempt,
    [wm] the world in which the attempt starts and [pvName] the volume. *)
Inductive MeetsMismatch (volInfo : VolumeInfo) (pvInfo : PVInfo) (ns : string)
    : nat → W → error → W → string → Prop :=
  | mismatch_now ticks w w1 w2 pvc pv claimRef :
      getPVC env ns (PVCName volInfo) w = (inr pvc, w1) →
      pvc_Phase pvc = ClaimBound → pvc_VolumeName pvc ≠ "" →
      getPV env (pvc_VolumeName pvc) w1 = (inr pv, w2) →
      pv_ClaimRef pv = Some claimRef → pv_Phase pv = VolumeBound →
      ref_Name claimRef ≠ pvc_Name pvc ∨ ref_Namespace claimRef ≠ ns →
      MeetsMismatch volInfo pvInfo ns ticks w
        (UnexpectedPVC (ref_Namespace claimRef) (ref_Name claimRef) ns (pvc_Name pvc))
        w (pvc_VolumeName pvc)
  | mismatch_later ticks w w' t e wm pvName :
      pollCondition volInfo pvInfo ns w = ((false, None), w', t) →
      MeetsMismatch volInfo pvInfo ns ticks w' e wm pvName →
      MeetsMismatch volInfo pvInfo ns (S ticks) w e wm pvName.

(** One step of the main goroutine: an iteration of the loop, which starts
    a worker after [pvWaitGroup.Add(1)] or skips the volume; then
    [pvWaitGroup.Wait()], which only returns once the counter is zero. *)
Definition step_main (ctx : finalizerContext) (s : Pool W) : option (Pool W) :=
  match p_main s with
  | Looping [] =>
      Some (mkPool (p_world s) (p_trace s) (semaphore s) (resultLock s)
                   (pvWaitGroup s) (p_errs s) (workers s) Waiting)
  | Looping (volumeItem :: rest) =>
      match startsWorker ctx volumeItem with
      | Some (pvInfo, restoredNamespace) =>
          Some (mkPool (p_world s) (p_trace s) (semaphore s) (resultLock s)
                       (S (pvWaitGroup s)) (p_errs s)
                       (workers s ++ [mkWorker volumeItem pvInfo restoredNamespace AtGate])
                       (Looping rest))
      | None =>
          Some (mkPool (p_world s) (p_trace s) (semaphore s) (resultLock s)
                       (pvWaitGroup s) (p_errs s) (workers s) (Looping rest))
      end
  | Waiting =>
      if bool_decide (pvWaitGroup s = 0%nat)
      then Some (mkPool (p_world s) (p_trace s) (semaphore s) (resultLock s)
                        (pvWaitGroup s) (p_errs s) (workers s) Returned)
      else None
  | Returned => None
  end.

(** Where a worker stands after an attempt of its poll. *)
Definition afterAttempt (ticks : nat) (r : bool * option error) : WorkerPC :=
  match r.2 with
  | Some e => Failing e
  | None =>
      if r.1 then AtRelease false
      else match ticks with
           | O => Failing DeadlineExceeded
           | S n => InPoll n
           end
  end.

(** One step of worker [i]; [None] when the worker is blocked (the channel
    is full, the mutex is held) or has finished. *)
Definition step_worker (i : nat) (s : Pool W) : option (Pool W) :=
  match workers s !! i with
  | None => None
  | Some wk =>
      match w_pc wk with
      | AtGate =>
          if bool_decide (semaphore s < maxConcurrency)%nat
          then Some (mkPool (p_world s) (p_trace s) (S (semaphore s)) (resultLock s)
                            (pvWaitGroup s) (p_errs s)
                            (<[i := set_pc (InPoll (pollTicks env)) wk]> (workers s))
                            (p_main s))
          else None
      | InPoll ticks =>
          let '(r, w', t) :=
            pollCondition (w_volInfo wk) (w_pvInfo wk) (w_restoredNamespace wk)
                          (p_world s) in
          Some (mkPool w' (p_trace s ++ map (pair i) t) (semaphore s) (resultLock s)
                       (pvWaitGroup s) (p_errs s)
                       (<[i := set_pc (afterAttempt ticks r) wk]> (workers s))
                       (p_main s))
      | Failing e =>
          if resultLock s then None
          else Some (mkPool (p_world s) (p_trace s) (semaphore s) true
                            (pvWaitGroup s) (p_errs s)
                            (<[i := set_pc (Recording e) wk]> (workers s))
                            (p_main s))
      | Recording e =>
          let err := FailToPatch e (PVCName (w_volInfo wk)) (PVName (w_volInfo wk)) in
          Some (mkPool (p_world s) (p_trace s) (semaphore s) (resultLock s)
                       (pvWaitGroup s)
                       (Add (w_restoredNamespace wk) (Error err) (p_errs s))
                       (<[i := set_pc (AtRelease true) wk]> (workers s))
                       (p_main s))
      | AtRelease locked =>
          Some (mkPool (p_world s) (p_trace s) (pred (semaphore s)) (resultLock s)
                       (pvWaitGroup s) (p_errs s)
                       (<[i := set_pc (if locked then AtUnlock else AtDone) wk]> (workers s))
                       (p_main s))
      | AtUnlock =>
          Some (mkPool (p_world s) (p_trace s) (semaphore s) false
                       (pvWaitGroup s) (p_errs s)
                       (<[i := set_pc AtDone wk]> (workers s))
                       (p_main s))
      | AtDone =>
          Some (mkPool (p_world s) (p_trace s) (semaphore s) (resultLock s)
                       (pred (pvWaitGroup s)) (p_errs s)
                       (<[i := set_pc Finished wk]> (workers s))
                       (p_main s))
      | Finished => None
      end
  end.

(** The goroutines interleave: a step of the pool is a step of the main
    goroutine or of one of the workers. *)
Definition pool_step (ctx : finalizerContext) (s s' : Pool W) : Prop :=
  step_main ctx s = Some s' ∨ ∃ i, step_worker i s = Some s'.

Definition reachable (ctx : finalizerContext) (w : W) (s : Pool W) : Prop :=
  rtc (pool_step ctx) (initPool ctx w) s.

(** A run of the pool under a schedule: [None] schedules the main
    goroutine, [Some i] worker [i]; a goroutine that cannot move is passed
    over. *)
Fixpoint run_pool (ctx : finalizerContext) (schedule : list (option nat))
    (s : Pool W) : Pool W :=
  match schedule with
  | [] => s
  | who :: schedule' =>
      let next :=
        match who with
        | None => step_main ctx s
        | Some i => step_worker i s
        end in
      run_pool ctx schedule' (default s next)
  end.

Definition execute (ctx : finalizerContext) : M W (Result * Result) :=
  let warnings := Result_zero in
  let errs := Result_zero in
  let* pdpErrs := patchDynamicPVWithVolumeInfo ctx in
  let errs := Merge errs pdpErrs in
  ret (warnings, errs).

(** ** The reconciler *)

Definition updateResults (backupStore : string) (restore : Restore)
    (newWarnings newErrs : Result) : M W (option error) :=
  let* got := call (EvGetRestoreResults backupStore (Name restore))
              (GetRestoreResults env backupStore (Name restore)) in
  match got with
  | inl err => ret (Some (Wrapped err "error getting restore results"))
  | inr originResults =>
      let warnings := default Result_zero (originResults !! "warnings") in
      let errs := default Result_zero (originResults !! "errors") in
      let warnings := Merge warnings newWarnings in
      let errs := Merge errs newErrs in
      let m : gmap string Result :=
        <["warnings" := warnings]> (<["errors" := errs]> ∅) in
      let* err := call (EvPutResults backupStore restore m)
                  (putResults env backupStore restore m) in
      match err with
      | Some e => ret (Some (Wrapped e "error putting restore results"))
      | None => ret None
      end
  end.

(** [finishProcessing] writes the phase and the completion time into
    [restore] and patches the resource; the restore it has written to is
    handed back next to the error. *)
Definition finishProcessing (restorePhase : string) (restore original : Restore)
    : M W (Restore * option error) :=
  let* restore :=
    (if bool_decide (restorePhase = RestorePhasePartiallyFailed)
     then
       let* _ := act (EvRegisterRestorePartialFailure (ScheduleName restore))
           (RegisterRestorePartialFailure env (ScheduleName restore)) in
       ret (set_Phase RestorePhasePartiallyFailed restore)
     else
       let* _ := act (EvRegisterRestoreSuccess (ScheduleName restore))
           (RegisterRestoreSuccess env (ScheduleName restore)) in
       ret (set_Phase RestorePhaseCompleted restore)) in
  let* t := call EvNow (now env) in
  let restore := set_CompletionTimestamp (Some t) restore in
  let* err := call (EvPatchRestore original restore) (patchRestore env original restore) in
  ret (restore, err).

(** [defer pluginManager.CleanupClients()] around the rest of the call. *)
Definition deferCleanup {A} (body : M W A) : M W A :=
  let* a := body in
  let* _ := act EvCleanupClients (CleanupClients env) in
  ret a.

Definition isFinalizing (phase : string) : bool :=
  bool_decide (phase = RestorePhaseFinalizing)
  || bool_decide (phase = RestorePhaseFinalizingPartiallyFailed).

(** [Reconcile]; [namespace] is [r.namespace] and [req] the request, and
    the answer is the error of the call ([None] for [nil]). *)
Definition Reconcile (namespace : string) (req : string) : M W (option error) :=
  let* got := call (EvGetRestore req) (getRestore env req) in
  match got with
  | inl err =>
      if IsNotFound err then ret None
      else ret (Some (Wrapped err ("error getting restore " +:+ req)))
  | inr original =>
      let restore := original in
      if negb (isFinalizing (Phase restore)) then ret None
      else
        let* got := call (EvFetchBackupInfo namespace (BackupName restore))
                    (fetchBackupInfoInternal env namespace (BackupName restore)) in
        match got with
        | inl err =>
            if IsNotFound err then
              let* fin := finishProcessing RestorePhasePartiallyFailed restore original in
              match fin.2 with
              | Some err2 =>
                  ret (Some (Wrapped err2 "error updating restore's final status"))
              | None => ret None
              end
            else ret (Some (Wrapped err "error getting backup info"))
        | inr info =>
            deferCleanup (
              let backupStore := location info in
              let* err := call (EvGetBackupStore (location info))
                          (getBackupStore env (location info)) in
              match err with
              | Some err => ret (Some (Wrapped err "error getting backup store"))
              | None =>
              let* got := call (EvGetBackupVolumeInfos backupStore (BackupName restore))
                          (GetBackupVolumeInfos env backupStore (BackupName restore)) in
              match got with
              | inl err => ret (Some (Wrapped err "error getting volumeInfo"))
              | inr volumeInfo =>
              let* got := call (EvGetRestoredResourceList backupStore (Name restore))
                          (GetRestoredResourceList env backupStore (Name restore)) in
              match got with
              | inl err => ret (Some (Wrapped err "error getting restoredResourceList"))
              | inr restoredResourceList =>
              let restoredPVCList :=
                getRestoredPVCFromRestoredResourceList restoredResourceList in
              let finalizerCtx :=
                {| restore := restore;
                   volumeInfo := volumeInfo;
                   restoredPVCList := restoredPVCList |} in
              let* we := execute finalizerCtx in
              let warnings := we.1 in
              let errs := we.2 in
              let warningCnt := countEntries warnings in
              let errCnt := countEntries errs in
              let restore :=
                set_Counts (GoInt.add (Warnings restore) warningCnt)
                           (GoInt.add (Errors restore) errCnt) restore in
              let restore :=
                if negb (IsEmpty errs)
                then set_Phase RestorePhaseFinalizingPartiallyFailed restore
                else restore in
              let* err := (if bool_decide (warningCnt > 0) || bool_decide (errCnt > 0)
                      then updateResults backupStore restore warnings errs
                      else ret None) in
              match err with
              | Some err => ret (Some (Wrapped err "error updating results"))
              | None =>
              let finalPhase :=
                if bool_decide (Phase restore = RestorePhaseFinalizingPartiallyFailed)
                then RestorePhasePartiallyFailed
                else RestorePhaseCompleted in
              let* fin := finishProcessing finalPhase restore original in
              match fin.2 with
              | Some err =>
                  ret (Some (Wrapped err "error updating restore's final status"))
              | None => ret None
              end
              end end end end)
        end
  end.

(** The restore is found in a finalizing phase and every load succeeds:
    [w5] is the world in which the finalization tasks start. *)
Definition Loaded namespace req (w : W) (original : Restore) (info : backupInfo)
    (volumes : list VolumeInfo) (inventory : gmap string (list string)) (w5 : W)
    : Prop :=
  ∃ w1 w2 w3 w4,
    getRestore env req w = (inr original, w1)
    ∧ isFinalizing (Phase original) = true
    ∧ fetchBackupInfoInternal env namespace (BackupName original) w1 = (inr info, w2)
    ∧ getBackupStore env (location info) w2 = (None, w3)
    ∧ GetBackupVolumeInfos env (location info) (BackupName original) w3
      = (inr volumes, w4)
    ∧ GetRestoredResourceList env (location info) (Name original) w4
      = (inr inventory, w5).

End Controller.

(** The restore as [Reconcile] holds it after the counting of the
    warnings and errors and the test of [errs.IsEmpty()], and the final
    phase that it computes from it. *)
Definition tallied (original : Restore) (warnings errs : Result) : Restore :=
  let restore :=
    set_Counts (GoInt.add (Warnings original) (countEntries warnings))
               (GoInt.add (Errors original) (countEntries errs)) original in
  if negb (IsEmpty errs)
  then set_Phase RestorePhaseFinalizingPartiallyFailed restore
  else restore.

Definition finalPhaseOf (restore : Restore) : string :=
  if bool_decide (Phase restore = RestorePhaseFinalizingPartiallyFailed)
  then RestorePhasePartiallyFailed
  else RestorePhaseCompleted.

(** The restore that [finishProcessing] patches in: phase and completion
    time written. *)
Definition finished (restorePhase : string) (t : Time) (restore : Restore) : Restore :=
  set_CompletionTimestamp (Some t)
    (set_Phase (if bool_decide (restorePhase = RestorePhasePartiallyFailed)
                then RestorePhasePartiallyFailed else RestorePhaseCompleted)
               restore).

(** The error that [Reconcile] returns for an error of [finishProcessing]. *)
Definition finalStatusError (err : option error) : option error :=
  match err with
  | Some e => Some (Wrapped e "error updating restore's final status")
  | None => None
  end.

(** The map that [updateResults] writes back: the stored results with
    the new ones merged in, under the keys [warnings] and [errors]. *)
Definition mergedResults (originResults : gmap string Result)
    (newWarnings newErrs : Result) : gmap string Result :=
  <["warnings" := Merge (default Result_zero (originResults !! "warnings")) newWarnings]>
    (<["errors" := Merge (default Result_zero (originResults !! "errors")) newErrs]> ∅).

(** The events of [finishProcessing] and of the deferred clean-up. *)
Definition isClosing (ev : Event) : bool :=
  match ev with
  | EvRegisterRestoreSuccess _ | EvRegisterRestorePartialFailure _
  | EvNow | EvPatchRestore _ _ | EvCleanupClients => true
  | _ => false
  end.

(** The events that are a patch of a volume, a write of results, a patch
    of the restore, a call of the cluster API on behalf of a volume. *)
Definition isPatchPV (ev : Event) : bool :=
  match ev with EvPatchPV _ _ => true | _ => false end.

Definition isPutResults (ev : Event) : bool :=
  match ev with EvPutResults _ _ _ => true | _ => false end.

Definition isPatchRestore (ev : Event) : bool :=
  match ev with EvPatchRestore _ _ => true | _ => false end.

Definition isRemediation (ev : Event) : bool :=
  match ev with
  | EvGetPVC _ _ | EvGetPV _ | EvPatchPV _ _ => true
  | _ => false
  end.

Definition noneOf (p : Event → bool) (t : list Event) : Prop :=
  forallb (λ ev, negb (p ev)) t = true.

(** ** Scripted collaborators

    A world in which the answers of the collaborators are written down in
    advance.  The world is the number of calls made to the cluster API so
    far, so that the answer about a claim or a volume may change from one
    attempt of a poll to the next. *)

Record Script : Type := mkScript {
  sc_restore : error + Restore;
  sc_backup : error + backupInfo;
  sc_store : option error;
  sc_volumes : error + list VolumeInfo;
  sc_inventory : error + gmap string (list string);
  sc_results : error + gmap string Result;
  sc_put : option error;
  sc_patchRestore : option error;
  sc_now : Time;
  sc_pvc : nat → string → string → error + PersistentVolumeClaim;
  sc_pv : nat → string → error + PersistentVolume;
  sc_patchPV : option error;
  sc_ticks : nat
}.

Definition scripted (sc : Script) : Env nat :=
  {| getRestore := λ _ w, (sc_restore sc, w);
     fetchBackupInfoInternal := λ _ _ w, (sc_backup sc, w);
     getBackupStore := λ _ w, (sc_store sc, w);
     GetBackupVolumeInfos := λ _ _ w, (sc_volumes sc, w);
     GetRestoredResourceList := λ _ _ w, (sc_inventory sc, w);
     GetRestoreResults := λ _ _ w, (sc_results sc, w);
     putResults := λ _ _ _ w, (sc_put sc, w);
     RegisterRestoreSuccess := λ _ w, w;
     RegisterRestorePartialFailure := λ _ w, w;
     now := λ w, (sc_now sc, w);
     patchRestore := λ _ _ w, (sc_patchRestore sc, w);
     CleanupClients := λ w, w;
     getPVC := λ ns name w, (sc_pvc sc w ns name, S w);
     getPV := λ name w, (sc_pv sc w name, S w);
     patchPV := λ _ _ w, (sc_patchPV sc, S w);
     pollTicks := sc_ticks sc |}.

Definition notFoundError : error := ApiError true "not found".
Definition serverError : error := ApiError false "internal error".

(** A restore of backup [b1] that is finalizing, one claim [ns1/pvc-a]
    created by it, and the volume [pv-a] bound to that claim. *)
Definition restore1 : Restore :=
  {| Name := "r1"; BackupName := "b1"; ScheduleName := "daily";
     NamespaceMapping := ∅; Phase := RestorePhaseFinalizing;
     Warnings := 2; Errors := 0; CompletionTimestamp := None |}.

Definition pvInfo1 : PVInfo :=
  {| ReclaimPolicy := "Retain"; Labels := {[ "tier" := "gold" ]} |}.

Definition volume1 : VolumeInfo :=
  {| PVCName := "pvc-a"; PVCNamespace := "ns1"; PVName := "pv-old";
     BackupMethod := CSISnapshot; vi_PVInfo := Some pvInfo1 |}.

Definition pvc1 : PersistentVolumeClaim :=
  {| pvc_Name := "pvc-a"; pvc_VolumeName := "pv-a"; pvc_Phase := ClaimBound |}.

Definition pv1 : PersistentVolume :=
  {| pv_Name := "pv-a"; pv_Labels := {[ "zone" := "z1" ]};
     pv_ReclaimPolicy := "Delete";
     pv_ClaimRef := Some {| ref_Namespace := "ns1"; ref_Name := "pvc-a" |};
     pv_Phase := VolumeBound |}.

(** The same volume, bound by a claim of another name. *)
Definition pv1_other : PersistentVolume :=
  {| pv_Name := "pv-a"; pv_Labels := {[ "zone" := "z1" ]};
     pv_ReclaimPolicy := "Delete";
     pv_ClaimRef := Some {| ref_Namespace := "ns1"; ref_Name := "pvc-z" |};
     pv_Phase := VolumeBound |}.

Definition inventory1 : gmap string (list string) :=
  {[ pvcKey := ["ns1/pvc-a(created)"] ]}.

Definition script1 : Script :=
  {| sc_restore := inr restore1;
     sc_backup := inr {| location := "default" |};
     sc_store := None;
     sc_volumes := inr [volume1];
     sc_inventory := inr inventory1;
     sc_results := inr ∅;
     sc_put := None;
     sc_patchRestore := None;
     sc_now := 1000;
     sc_pvc := λ _ _ _, inr pvc1;
     sc_pv := λ _ _, inr pv1;
     sc_patchPV := None;
     sc_ticks := 60 |}.

Definition with_pv (pv : nat → string → error + PersistentVolume) (sc : Script)
    : Script :=
  mkScript (sc_restore sc) (sc_backup sc) (sc_store sc) (sc_volumes sc)
           (sc_inventory sc) (sc_results sc) (sc_put sc) (sc_patchRestore sc)
           (sc_now sc) (sc_pvc sc) pv (sc_patchPV sc) (sc_ticks sc).

Definition with_pvc (pvc : nat → string → string → error + PersistentVolumeClaim)
    (sc : Script) : Script :=
  mkScript (sc_restore sc) (sc_backup sc) (sc_store sc) (sc_volumes sc)
           (sc_inventory sc) (sc_results sc) (sc_put sc) (sc_patchRestore sc)
           (sc_now sc) pvc (sc_pv sc) (sc_patchPV sc) (sc_ticks sc).

Definition with_restore (r : error + Restore) (sc : Script) : Script :=
  mkScript r (sc_backup sc) (sc_store sc) (sc_volumes sc)
           (sc_inventory sc) (sc_results sc) (sc_put sc) (sc_patchRestore sc)
           (sc_now sc) (sc_pvc sc) (sc_pv sc) (sc_patchPV sc) (sc_ticks sc).

Definition with_backup (b : error + backupInfo) (sc : Script) : Script :=
  mkScript (sc_restore sc) b (sc_store sc) (sc_volumes sc)
           (sc_inventory sc) (sc_results sc) (sc_put sc) (sc_patchRestore sc)
           (sc_now sc) (sc_pvc sc) (sc_pv sc) (sc_patchPV sc) (sc_ticks sc).

Definition with_volumes (v : error + list VolumeInfo) (sc : Script) : Script :=
  mkScript (sc_restore sc) (sc_backup sc) (sc_store sc) v
           (sc_inventory sc) (sc_results sc) (sc_put sc) (sc_patchRestore sc)
           (sc_now sc) (sc_pvc sc) (sc_pv sc) (sc_patchPV sc) (sc_ticks sc).

Definition with_patchRestore (e : option error) (sc : Script) : Script :=
  mkScript (sc_restore sc) (sc_backup sc) (sc_store sc) (sc_volumes sc)
           (sc_inventory sc) (sc_results sc) (sc_put sc) e
           (sc_now sc) (sc_pvc sc) (sc_pv sc) (sc_patchPV sc) (sc_ticks sc).

Definition with_put (e : option error) (sc : Script) : Script :=
  mkScript (sc_restore sc) (sc_backup sc) (sc_store sc) (sc_volumes sc)
           (sc_inventory sc) (sc_results sc) e (sc_patchRestore sc)
           (sc_now sc) (sc_pvc sc) (sc_pv sc) (sc_patchPV sc) (sc_ticks sc).

Definition with_ticks (n : nat) (sc : Script) : Script :=
  mkScript (sc_restore sc) (sc_backup sc) (sc_store sc) (sc_volumes sc)
           (sc_inventory sc) (sc_results sc) (sc_put sc) (sc_patchRestore sc)
           (sc_now sc) (sc_pvc sc) (sc_pv sc) (sc_patchPV sc) n.

(** The scripts of the concrete runs below. *)
Definition restoreCompleted : Restore := set_Phase RestorePhaseCompleted restore1.
Definition restoreFPF : Restore :=
  set_Phase RestorePhaseFinalizingPartiallyFailed restore1.

Definition script_completed : Script := with_restore (inr restoreCompleted) script1.
Definition script_backup_missing : Script := with_backup (inl notFoundError) script1.
Definition script_backup_missing_patch_fails : Script :=
  with_patchRestore (Some serverError) script_backup_missing.
Definition script_no_volumes : Script := with_volumes (inr []) script1.
Definition script_entered_failed : Script :=
  with_volumes (inr []) (with_restore (inr restoreFPF) script1).
Definition script_mismatch : Script := with_pv (λ _ _, inr pv1_other) script1.
Definition script_mismatch_later : Script :=
  with_pvc (λ w _ _, if Nat.eqb w 0 then inl notFoundError else inr pvc1)
           script_mismatch.

Definition ctx_five : finalizerContext :=
  {| restore := restore1; volumeInfo := replicate 5 volume1;
     restoredPVCList := {[ "ns1/pvc-a" ]} |}.

(** The main goroutine starts its five workers, and each of them goes to
    the gate once. *)
Definition schedule_five : list (option nat) :=
  replicate 6 None ++ [Some 0; Some 1; Some 2; Some 3; Some 4]%nat.

(** The loads of [Reconcile], the metrics, the deferred clean-up. *)
Definition isLoading (ev : Event) : bool :=
  match ev with
  | EvGetRestore _ | EvFetchBackupInfo _ _ | EvGetBackupStore _
  | EvGetBackupVolumeInfos _ _ | EvGetRestoredResourceList _ _ => true
  | _ => false
  end.

Definition isCleanup (ev : Event) : bool :=
  match ev with EvCleanupClients => true | _ => false end.

(** The three calls of [finishProcessing] for the patch of [original] into
    [updated]: the metric that goes with the phase, the clock, the patch. *)
Definition closingCalls (original updated : Restore) : list Event :=
  [if bool_decide (Phase updated = RestorePhasePartiallyFailed)
   then EvRegisterRestorePartialFailure (ScheduleName original)
   else EvRegisterRestoreSuccess (ScheduleName original);
   EvNow;
   EvPatchRestore original updated].

(** How many events of a kind a trace holds. *)
Definition isGetPVC (ev : Event) : bool :=
  match ev with EvGetPVC _ _ => true | _ => false end.

Definition isGetPV (ev : Event) : bool :=
  match ev with EvGetPV _ => true | _ => false end.

Fixpoint countEv (p : Event → bool) (t : list Event) : nat :=
  match t with
  | [] => 0
  | ev :: t' => ((if p ev then 1 else 0) + countEv p t')%nat
  end.

(** The claim of a worker never gets bound: whenever it is fetched, it is
    not found, or it is found without the phase Bound or without the name
    of a volume. *)
Definition neverBound {W} (env : Env W) (ns name : string) : Prop :=
  ∀ w, match (getPVC env ns name w).1 with
       | inl e => IsNotFound e = true
       | inr pvc => pvc_Phase pvc ≠ ClaimBound ∨ pvc_VolumeName pvc = ""
       end.

(** The worlds that the fetches of the claim go through, one after the
    other. *)
Fixpoint afterFetches {W} (env : Env W) (ns name : string) (n : nat) (w : W) : W :=
  match n with
  | O => w
  | S n' => afterFetches env ns name n' (getPVC env ns name w).2
  end.

Definition script_never_found : Script :=
  with_ticks 2 (with_pvc (λ _ _ _, inl notFoundError) script1).

Definition script_pvc_error : Script :=
  with_pvc (λ _ _ _, inl serverError) script1.

(** A worker is in the critical section from [resultLock.Lock()] to the
    deferred [resultLock.Unlock()]. *)
Definition inCritical (wk : Worker) : bool :=
  match w_pc wk with
  | Recording _ | AtRelease true | AtUnlock => true
  | _ => false
  end.

(** How far a goroutine is from its end, at most, counted in steps;
    [ticks] is the number of ticks that a poll is given. *)
Definition rank_pc (ticks : nat) (pc : WorkerPC) : nat :=
  match pc with
  | AtGate => ticks + 7
  | InPoll n => n + 6
  | Failing _ => 5
  | Recording _ => 4
  | AtRelease _ => 3
  | AtUnlock => 2
  | AtDone => 1
  | Finished => 0
  end.

Definition rank_main (ticks : nat) (pc : MainPC) : nat :=
  match pc with
  | Looping rest => length rest * (ticks + 8) + 2
  | Waiting => 1
  | Returned => 0
  end.

Fixpoint rank_workers (ticks : nat) (l : list Worker) : nat :=
  match l with
  | [] => 0
  | wk :: l' => rank_pc ticks (w_pc wk) + rank_workers ticks l'
  end.

Definition pool_measure {W} (ticks : nat) (s : Pool W) : nat :=
  rank_main ticks (p_main s) + rank_workers ticks (workers s).

(** A worker that is in the poll, holds the mutex, or stands at one of its
    two last statements can always move. *)
Definition canMove (wk : Worker) : bool :=
  match w_pc wk with
  | InPoll _ | Recording _ | AtRelease _ | AtUnlock | AtDone => true
  | _ => false
  end.

Definition isFailing (wk : Worker) : bool :=
  match w_pc wk with Failing _ => true | _ => false end.

(** The workers of a list of assignments, run one after the other: what
    is left of the loop of [patchDynamicPVWithVolumeInfo] once the volumes
    that start no worker are taken out of the list. *)
Fixpoint runWorkers {W} (env : Env W) (jobs : list (VolumeInfo * PVInfo * string))
    (errs : Result) : M W Result :=
  match jobs with
  | [] => ret errs
  | (volumeItem, pvInfo, restoredNamespace) :: rest =>
      bind (patchWorker env volumeItem pvInfo restoredNamespace errs)
           (λ errs', runWorkers env rest errs')
  end.

(** The results of the tasks cannot be stored: the task fails on its one
    volume, and the write of the results fails, or already the fetch of
    the stored results. *)
Definition with_results (r : error + gmap string Result) (sc : Script) : Script :=
  mkScript (sc_restore sc) (sc_backup sc) (sc_store sc) (sc_volumes sc)
           (sc_inventory sc) r (sc_put sc) (sc_patchRestore sc)
           (sc_now sc) (sc_pvc sc) (sc_pv sc) (sc_patchPV sc) (sc_ticks sc).

Definition script_results_unwritable : Script :=
  with_put (Some serverError) script_pvc_error.

Definition script_results_unreadable : Script :=
  with_results (inl serverError) script_pvc_error.

(** A restore that remaps the namespace [src] to [ns1], and four volumes:
    one backed up by another method, one of a claim in [src], one whose
    claim the restore has not created, one without [PVInfo]. *)
Definition restore_remap : Restore :=
  {| Name := "r1"; BackupName := "b1"; ScheduleName := "daily";
     NamespaceMapping := {[ "src" := "ns1" ]}; Phase := RestorePhaseFinalizing;
     Warnings := 0; Errors := 0; CompletionTimestamp := None |}.

Definition volume_native : VolumeInfo :=
  {| PVCName := "pvc-n"; PVCNamespace := "ns1"; PVName := "pv-n";
     BackupMethod := "NativeSnapshot"; vi_PVInfo := Some pvInfo1 |}.

Definition volume_remapped : VolumeInfo :=
  {| PVCName := "pvc-a"; PVCNamespace := "src"; PVName := "pv-old";
     BackupMethod := PodVolumeBackup; vi_PVInfo := Some pvInfo1 |}.

Definition volume_absent : VolumeInfo :=
  {| PVCName := "pvc-b"; PVCNamespace := "src"; PVName := "pv-b";
     BackupMethod := CSISnapshot; vi_PVInfo := Some pvInfo1 |}.

Definition volume_bare : VolumeInfo :=
  {| PVCName := "pvc-a"; PVCNamespace := "ns1"; PVName := "pv-c";
     BackupMethod := CSISnapshot; vi_PVInfo := None |}.

Definition ctx_mixed : finalizerContext :=
  {| restore := restore_remap;
     volumeInfo := [volume_native; volume_remapped; volume_absent; volume_bare];
     restoredPVCList := {[ "ns1/pvc-a" ]} |}.

(** The main goroutine starts its five workers; the first one enters, its
    poll fails and it takes the mutex; the second one enters and its poll
    fails. *)
Definition schedule_lock : list (option nat) :=
  replicate 6 None ++ [Some 0; Some 0; Some 0; Some 1; Some 1]%nat.

(** * Part II: properties *)

(** ** Go's [int] *)

Lemma wrap_in_range z : GoInt.in_range z → GoInt.wrap z = z.
Proof.
  unfold GoInt.in_range, GoInt.wrap, GoInt.min_int, GoInt.max_int. intros H.
  rewrite Z.mod_small; lia.
Qed.

Lemma wrap_range z : GoInt.in_range (GoInt.wrap z).
Proof.
  unfold GoInt.in_range, GoInt.wrap, GoInt.min_int, GoInt.max_int.
  pose proof (Z.mod_pos_bound (z + 2 ^ 63) (2 ^ 64)). lia.
Qed.

Lemma wrap_add_l x y : GoInt.wrap (GoInt.wrap x + y) = GoInt.wrap (x + y).
Proof.
  unfold GoInt.wrap.
  replace ((x + 2 ^ 63) mod 2 ^ 64 - 2 ^ 63 + y + 2 ^ 63)
    with ((x + 2 ^ 63) mod 2 ^ 64 + y) by lia.
  rewrite Zplus_mod_idemp_l. do 2 f_equal. lia.
Qed.

Lemma wrap_add_r x y : GoInt.wrap (x + GoInt.wrap y) = GoInt.wrap (x + y).
Proof. rewrite Z.add_comm, wrap_add_l. f_equal. lia. Qed.

Lemma add_0_r x : GoInt.in_range x → GoInt.add x 0 = x.
Proof. intros H. unfold GoInt.add. rewrite Z.add_0_r. by apply wrap_in_range. Qed.

Lemma wrap_0 : GoInt.wrap 0 = 0.
Proof. reflexivity. Qed.

(** ** Results *)

Lemma nsEntries_empty : nsEntries ∅ = 0%nat.
Proof. unfold nsEntries. by rewrite map_fold_empty. Qed.

Lemma nsEntries_insert_fresh (m : gmap string (list string)) k l :
  m !! k = None → nsEntries (<[k:=l]> m) = (nsEntries m + length l)%nat.
Proof.
  intros Hk. unfold nsEntries.
  rewrite map_fold_insert_L; [done | | done].
  intros. lia.
Qed.

Lemma nsEntries_insert (m : gmap string (list string)) k l :
  (nsEntries (<[k:=l]> m) + length (default [] (m !! k)))%nat
  = (nsEntries m + length l)%nat.
Proof.
  destruct (m !! k) as [old|] eqn:Hk; simpl.
  - rewrite <- (insert_delete_eq m k l).
    rewrite <- (insert_delete_id m k old Hk) at 2.
    rewrite !nsEntries_insert_fresh by apply lookup_delete_eq. lia.
  - rewrite nsEntries_insert_fresh by done. lia.
Qed.

Lemma nsEntries_zero (m : gmap string (list string)) :
  nsEntries m = 0%nat ↔ map_Forall (λ _ l, l = []) m.
Proof.
  induction m as [|k l m Hk IH] using map_ind.
  - rewrite nsEntries_empty. split; [intros _; apply map_Forall_empty | done].
  - rewrite nsEntries_insert_fresh by done.
    rewrite map_Forall_insert by done. rewrite <- IH.
    destruct l as [|x l]; simpl.
    + split; [intros H; split; [done | lia] | intros [_ H]; lia].
    + split; [lia | intros [H _]; done].
Qed.

Lemma entries_zero : entries Result_zero = 0%nat.
Proof. unfold entries. simpl. by rewrite nsEntries_empty. Qed.

Lemma entries_Add ns msg r : entries (Add ns msg r) = S (entries r).
Proof.
  unfold entries, Add. simpl.
  pose proof (nsEntries_insert (Namespaces r) ns
                (default [] (Namespaces r !! ns) ++ [msg])) as H.
  rewrite length_app in H. simpl in H. lia.
Qed.

Lemma Merge_zero_l r : Merge Result_zero r = r.
Proof.
  destruct r as [v c n]. unfold Merge. simpl. f_equal.
  apply (left_id ∅ _).
Qed.

Lemma IsEmpty_entries r : IsEmpty r = true ↔ entries r = 0%nat.
Proof.
  unfold IsEmpty, entries. rewrite bool_decide_eq_true.
  rewrite <- nsEntries_zero. split.
  - intros (-> & -> & ->). done.
  - intros H. repeat split.
    + destruct (Velero r); [done | simpl in H; lia].
    + destruct (Cluster r); [done | simpl in H; lia].
    + lia.
Qed.

Lemma countEntries_wrap r : countEntries r = GoInt.wrap (Z.of_nat (entries r)).
Proof.
  unfold countEntries, entries.
  apply (map_fold_weak_ind
           (λ cnt m, cnt = GoInt.wrap (Z.of_nat (length (Velero r) + length (Cluster r)
                                                  + nsEntries m)))).
  - rewrite nsEntries_empty. unfold GoInt.add, GoInt.len. f_equal. lia.
  - intros k l m cnt Hk ->. rewrite nsEntries_insert_fresh by done.
    unfold GoInt.add, GoInt.len. rewrite wrap_add_l. f_equal. lia.
Qed.

Lemma countEntries_zero : countEntries Result_zero = 0.
Proof. rewrite countEntries_wrap, entries_zero. reflexivity. Qed.

(** A positive count is only read off a Result that holds an entry. *)
Lemma countEntries_pos r : countEntries r > 0 → (0 < entries r)%nat.
Proof.
  rewrite countEntries_wrap. destruct (entries r); [|lia].
  change (Z.of_nat 0) with 0. rewrite wrap_0. lia.
Qed.

(** Every namespace that [Add] has written to holds an entry, so that
    a Result built by [Add] alone is empty exactly when it has no
    namespace at all. *)
Definition nonemptyScopes (r : Result) : Prop :=
  map_Forall (λ _ l, l ≠ []) (Namespaces r).

Lemma nonemptyScopes_zero : nonemptyScopes Result_zero.
Proof. apply map_Forall_empty. Qed.

Lemma nonemptyScopes_Add ns msg r :
  nonemptyScopes r → nonemptyScopes (Add ns msg r).
Proof.
  unfold nonemptyScopes, Add. simpl. intros H.
  apply map_Forall_insert_2; [|done].
  by destruct (default [] (Namespaces r !! ns)).
Qed.

Lemma IsEmpty_nonemptyScopes r :
  nonemptyScopes r →
  IsEmpty r = true ↔ Velero r = [] ∧ Cluster r = [] ∧ Namespaces r = ∅.
Proof.
  intros Hne. unfold IsEmpty. rewrite bool_decide_eq_true.
  split; intros (Hv & Hc & Hn); repeat split; try done.
  - apply map_empty. intros k. destruct (Namespaces r !! k) as [l|] eqn:Hk; [|done].
    pose proof (Hn k l Hk). pose proof (Hne k l Hk). done.
  - rewrite Hn. apply map_Forall_empty.
Qed.

(** ** The inventory of restored resources *)

Lemma append_cons c a b : String c a +:+ b = String c (a +:+ b).
Proof. reflexivity. Qed.

Lemma append_empty_l b : "" +:+ b = b.
Proof. reflexivity. Qed.

Lemma append_empty_r s : s +:+ "" = s.
Proof. induction s as [|c s IH]; [done | by rewrite append_cons, IH]. Qed.

Lemma rev_app_rev_app g a b :
  String.rev_app (String.rev_app g a) b = String.rev_app a (g +:+ b).
Proof.
  revert a b. induction g as [|c g IH]; intros a b; simpl; [done|].
  rewrite IH, append_cons. done.
Qed.

Lemma String_rev_rev g : String.rev (String.rev g) = g.
Proof. unfold String.rev. rewrite rev_app_rev_app. simpl. apply append_empty_r. Qed.

Lemma length_rev_app g a :
  String.length (String.rev_app g a) = (String.length g + String.length a)%nat.
Proof.
  revert a. induction g as [|c g IH]; intros a; simpl; [done|].
  rewrite IH. simpl. lia.
Qed.

Lemma length_String_rev g : String.length (String.rev g) = String.length g.
Proof. unfold String.rev. rewrite length_rev_app. simpl. lia. Qed.

(** The bytes before the first opening parenthesis start no match. *)
Lemma submatches_skip pre s :
  occurs "(" pre = false → submatches None (pre +:+ s) = submatches None s.
Proof.
  induction pre as [|c pre IH]; [done|]. rewrite append_cons. simpl.
  intros [Hc Hpre]%orb_false_iff.
  unfold is_lparen. rewrite Hc. by apply IH.
Qed.

(** Once a match has started it runs to the next closing parenthesis. *)
Lemma submatches_read g acc post :
  occurs ")" g = false →
  submatches (Some acc) (g +:+ String ")" post)
  = match String.rev_app g acc with
    | EmptyString => submatches None post
    | full => String.rev full :: submatches None post
    end.
Proof.
  revert acc. induction g as [|c g IH]; intros acc.
  - intros _. rewrite append_empty_l. simpl. by destruct acc.
  - rewrite append_cons. simpl.
    intros [Hc Hg]%orb_false_iff. unfold is_rparen. rewrite Hc. by apply IH.
Qed.

(** The leftmost match and the rest of the search: with no opening
    parenthesis in [pre] and no closing one in [g], the group [g] is
    reported when it is not empty, and the search goes on in [post]. *)
Lemma FindAllStringSubmatch_first pre g post :
  occurs "(" pre = false → occurs ")" g = false →
  FindAllStringSubmatch (pre +:+ String "(" (g +:+ String ")" post))
  = match g with
    | EmptyString => FindAllStringSubmatch post
    | _ => g :: FindAllStringSubmatch post
    end.
Proof.
  intros Hpre Hg. unfold FindAllStringSubmatch.
  rewrite submatches_skip by done. simpl.
  rewrite submatches_read by done.
  fold (String.rev g).
  destruct (String.rev g) as [|a r] eqn:Hr.
  - apply (f_equal String.length) in Hr. rewrite length_String_rev in Hr.
    by destruct g.
  - rewrite <- Hr, String_rev_rev. destruct g; [done | done].
Qed.

(** Without a closing parenthesis there is no match. *)
Lemma submatches_no_rparen cur s : occurs ")" s = false → submatches cur s = [].
Proof.
  revert cur. induction s as [|c s IH]; intros cur; simpl; [done|].
  intros [Hc Hs]%orb_false_iff. unfold is_rparen. rewrite Hc.
  destruct cur; [by apply IH|]. destruct (is_lparen c); by apply IH.
Qed.

(** A group takes its bytes and its two parentheses from the string. *)
Lemma submatches_length cur s g :
  g ∈ submatches cur s →
  (String.length g + 2 ≤
   String.length s + match cur with Some acc => S (String.length acc) | None => 0 end)%nat.
Proof.
  revert cur. induction s as [|c s IH]; intros cur; simpl.
  - intros H. by apply elem_of_nil in H.
  - destruct cur as [acc|].
    + destruct (is_rparen c).
      * destruct acc as [|a acc].
        -- intros H%IH. simpl in *. lia.
        -- intros [-> | H%IH]%elem_of_cons.
           ++ rewrite length_String_rev. simpl. lia.
           ++ simpl in *. lia.
      * intros H%IH. simpl in *. lia.
    + destruct (is_lparen c); intros H%IH; simpl in *; lia.
Qed.

(** The slice [pvc[:len(pvc)-len("(created)")]] is within bounds whenever
    it is taken. *)
Lemma lastIsCreated_length pvc :
  lastIsCreated pvc = true → (String.length "(created)" ≤ String.length pvc)%nat.
Proof.
  unfold lastIsCreated. destruct (last (FindAllStringSubmatch pvc)) as [g|] eqn:Hl; [|done].
  intros ->%bool_decide_eq_true.
  apply last_Some_elem_of, submatches_length in Hl.
  unfold FindAllStringSubmatch in Hl. simpl in *. lia.
Qed.

Lemma prefix_of_app body x : prefix_of (String.length body) (body +:+ x) = body.
Proof.
  unfold prefix_of. induction body as [|c body IH].
  - rewrite append_empty_l. by destruct x.
  - rewrite append_cons. simpl. by rewrite IH.
Qed.

Lemma length_append a b :
  String.length (a +:+ b) = (String.length a + String.length b)%nat.
Proof. induction a as [|c a IH]; [done | by rewrite append_cons; simpl; rewrite IH]. Qed.

Lemma createdKey_app body : createdKey (body +:+ "(created)") = body.
Proof.
  unfold createdKey. rewrite length_append.
  replace (String.length body + String.length "(created)" - String.length "(created)")%nat
    with (String.length body) by lia.
  apply prefix_of_app.
Qed.

Lemma elem_of_created_fold (l : list string) (acc : gset string) key :
  key ∈ foldl (λ (pvcList : gset string) pvc,
                 if lastIsCreated pvc then {[ createdKey pvc ]} ∪ pvcList else pvcList)
              acc l
  ↔ key ∈ acc ∨ ∃ pvc, pvc ∈ l ∧ lastIsCreated pvc = true ∧ key = createdKey pvc.
Proof.
  revert acc. induction l as [|pvc l IH]; intros acc; simpl.
  - split; [by left | intros [H | (? & H & _)]; [done | by apply elem_of_nil in H]].
  - rewrite IH. destruct (lastIsCreated pvc) eqn:Hc.
    + rewrite elem_of_union, elem_of_singleton. split.
      * intros [[-> | H] | (pvc' & Hin & Hc' & ->)].
        -- right. exists pvc. split; [left | done].
        -- by left.
        -- right. exists pvc'. split; [by right | done].
      * intros [H | (pvc' & [-> | Hin]%elem_of_cons & Hc' & ->)].
        -- left. by right.
        -- left. by left.
        -- right. by exists pvc'.
    + split.
      * intros [H | (pvc' & Hin & Hc' & ->)]; [by left |].
        right. exists pvc'. split; [by right | done].
      * intros [H | (pvc' & [-> | Hin]%elem_of_cons & Hc' & ->)].
        -- by left.
        -- congruence.
        -- right. by exists pvc'.
Qed.

(** C2: an entry stored under the key [v1/PersistentVolumeClaim] is put
    into the set of created claims exactly when the capture group of the
    last match of the parenthesis pattern is the literal [created]; the
    comparison is case sensitive and entries under other keys are not
    looked at.  The entry is added without its last nine bytes, which for
    an entry [body(created)] is [body].  In an entry [body(status)] whose
    body has no parenthesis the status is the last group, and after a first
    group the search goes on to the later ones, so that the last one
    decides. *)
Theorem C2_created_iff_last_group (restoredResourceList : gmap string (list string)) :
  (∀ key,
     key ∈ getRestoredPVCFromRestoredResourceList restoredResourceList
     ↔ ∃ pvc, pvc ∈ default [] (restoredResourceList !! "v1/PersistentVolumeClaim")
              ∧ last (FindAllStringSubmatch pvc) = Some "created"
              ∧ key = createdKey pvc)
  ∧ (∀ pvc, lastIsCreated pvc = true ↔ last (FindAllStringSubmatch pvc) = Some "created")
  ∧ (∀ body status,
       occurs "(" body = false → occurs ")" status = false → status ≠ "" →
       FindAllStringSubmatch (body +:+ "(" +:+ status +:+ ")") = [status])
  ∧ (∀ body, createdKey (body +:+ "(created)") = body)
  ∧ lastIsCreated "ns1/pvc-a(created)" = true
  ∧ lastIsCreated "ns1/pvc-b(skipped)" = false
  ∧ lastIsCreated "ns1/pvc(weird)(created)" = true
  ∧ lastIsCreated "ns1/pvc-c(Created)" = false.
Proof.
  assert (Hiff : ∀ pvc, lastIsCreated pvc = true
                        ↔ last (FindAllStringSubmatch pvc) = Some "created").
  { intros pvc. unfold lastIsCreated, ItemRestoreResultCreated.
    destruct (last (FindAllStringSubmatch pvc)) as [g|]; [|done].
    rewrite bool_decide_eq_true. split; [by intros -> | by intros [= ->]]. }
  split; [|split; [done|split; [|split; [apply createdKey_app | done]]]].
  - intros key. unfold getRestoredPVCFromRestoredResourceList.
    rewrite elem_of_created_fold. unfold pvcKey. split.
    + intros [H | (pvc & Hin & Hc & ->)]; [by apply elem_of_empty in H|].
      exists pvc. by rewrite <- Hiff.
    + intros (pvc & Hin & Hc & ->). right. exists pvc. by rewrite Hiff.
  - intros body status Hb Hs Hne.
    change (body +:+ "(" +:+ status +:+ ")")
      with (body +:+ String "(" (status +:+ String ")" "")).
    rewrite FindAllStringSubmatch_first by done. by destruct status.
Qed.

(** ** The patch decision *)

Lemma fold_orb_true {A} (f : string → A → bool) (m : gmap string A) :
  map_fold (λ k v found, found || f k v) false m = true
  ↔ ∃ k v, m !! k = Some v ∧ f k v = true.
Proof.
  apply (map_fold_weak_ind
           (λ r m, r = true ↔ ∃ k v, m !! k = Some v ∧ f k v = true)).
  - split; [done|]. intros (k & v & Hk & _). by rewrite lookup_empty in Hk.
  - intros i x m' r Hi IH. rewrite orb_true_iff, IH. split.
    + intros [(k & v & Hk & Hf) | Hf].
      * exists k, v. split; [|done]. rewrite lookup_insert_ne; [done|]. congruence.
      * exists i, x. by rewrite lookup_insert_eq.
    + intros (k & v & Hk & Hf). destruct (decide (i = k)) as [->|Hne].
      * rewrite lookup_insert_eq in Hk. injection Hk as ->. by right.
      * rewrite lookup_insert_ne in Hk by done. left. by exists k, v.
Qed.

(** [needPatch] answers yes exactly when the reclaim policy differs or a
    recorded label is missing from the volume or has another value there. *)
Lemma needPatch_true newPV pvInfo :
  needPatch newPV pvInfo = true
  ↔ pv_ReclaimPolicy newPV ≠ ReclaimPolicy pvInfo
    ∨ ∃ k v, Labels pvInfo !! k = Some v ∧ pv_Labels newPV !! k ≠ Some v.
Proof.
  unfold needPatch.
  destruct (decide (pv_ReclaimPolicy newPV = ReclaimPolicy pvInfo)) as [Heq|Hne].
  - rewrite bool_decide_eq_true_2 by done. simpl. rewrite fold_orb_true. split.
    + intros (k & v & Hk & Hf). right. exists k, v. split; [done|].
      destruct (pv_Labels newPV !! k) as [v'|]; [|done].
      apply negb_true_iff, bool_decide_eq_false in Hf. congruence.
    + intros [Hne | (k & v & Hk & Hf)]; [done|]. exists k, v. split; [done|].
      destruct (pv_Labels newPV !! k) as [v'|]; [|done].
      apply negb_true_iff, bool_decide_eq_false. congruence.
  - rewrite bool_decide_eq_false_2 by done. simpl. split; [by left | done].
Qed.

(** It answers no exactly when the policy is the recorded one and the
    recorded labels are among the labels of the volume; what other labels
    the volume carries does not matter. *)
Lemma needPatch_false newPV pvInfo :
  needPatch newPV pvInfo = false
  ↔ pv_ReclaimPolicy newPV = ReclaimPolicy pvInfo ∧ Labels pvInfo ⊆ pv_Labels newPV.
Proof.
  rewrite <- not_true_iff_false, needPatch_true, map_subseteq_spec. split.
  - intros H. split.
    + destruct (decide (pv_ReclaimPolicy newPV = ReclaimPolicy pvInfo)); [done|].
      exfalso. apply H. by left.
    + intros k v Hk.
      destruct (decide (pv_Labels newPV !! k = Some v)); [done|].
      exfalso. apply H. right. by exists k, v.
  - intros [Heq Hsub] [Hne | (k & v & Hk & Hne)]; [done|].
    apply Hne. by apply Hsub.
Qed.

Example needPatch_extra_labels :
  needPatch {| pv_Name := "pv-a"; pv_Labels := {[ "tier" := "gold"; "zone" := "z1" ]};
               pv_ReclaimPolicy := "Retain"; pv_ClaimRef := None;
               pv_Phase := VolumeBound |} pvInfo1 = false.
Proof. vm_compute. reflexivity. Qed.

Example needPatch_missing_label : needPatch pv1 pvInfo1 = true.
Proof. vm_compute. reflexivity. Qed.

Lemma noneOf_app p t1 t2 : noneOf p (t1 ++ t2) ↔ noneOf p t1 ∧ noneOf p t2.
Proof. unfold noneOf. rewrite forallb_app, andb_true_iff. done. Qed.

Lemma noneOf_elem p t : noneOf p t ↔ ∀ ev, ev ∈ t → p ev = false.
Proof.
  unfold noneOf. rewrite forallb_forall. split; intros H ev Hin.
  - apply negb_true_iff, H. by apply list_elem_of_In.
  - apply negb_true_iff, H. by apply list_elem_of_In.
Qed.

Lemma countEv_app p t1 t2 : countEv p (t1 ++ t2) = (countEv p t1 + countEv p t2)%nat.
Proof. induction t1 as [|ev t1 IH]; simpl; [done | rewrite IH; lia]. Qed.

Lemma countEv_zero p t : countEv p t = 0%nat ↔ noneOf p t.
Proof.
  unfold noneOf. induction t as [|ev t IH]; simpl; [done|].
  rewrite andb_true_iff, <- IH. destruct (p ev); simpl.
  - split; [lia | by intros [? _]].
  - split; [intros H; split; [done | lia] | intros [_ H]; lia].
Qed.

Section PatchFacts.

Context {W : Type} (env : Env W).

(** A poll whose first attempt reports an error or success stops there,
    whatever the number of ticks left. *)
Lemma poll_stops ticks (condition : M W (bool * option error)) w r w' t :
  condition w = (r, w', t) →
  r.2 ≠ None ∨ r.1 = true →
  PollUntilContextTimeout ticks condition w
  = (r.2, w', t).
Proof.
  intros Hc Hr. destruct r as [ok [e|]]; simpl in *.
  - destruct ticks; simpl; unfold bind; rewrite Hc; simpl;
      by rewrite app_nil_r.
  - destruct Hr as [Hr | ->]; [done|].
    destruct ticks; simpl; unfold bind; rewrite Hc; simpl;
      by rewrite app_nil_r.
Qed.

(** A poll whose first attempt asks for another one goes on from the
    world that the attempt has left, with one tick less. *)
Lemma poll_retries ticks (condition : M W (bool * option error)) w w' t :
  condition w = ((false, None), w', t) →
  PollUntilContextTimeout (S ticks) condition w
  = (let '(r, w'', t') := PollUntilContextTimeout ticks condition w' in
     (r, w'', t ++ t')).
Proof. intros Hc. simpl. unfold bind. rewrite Hc. simpl. done. Qed.

Lemma poll_deadline (condition : M W (bool * option error)) w w' t :
  condition w = ((false, None), w', t) →
  PollUntilContextTimeout 0 condition w = (Some DeadlineExceeded, w', t).
Proof. intros Hc. simpl. unfold bind. rewrite Hc. simpl. by rewrite app_nil_r. Qed.

(** What an attempt does once it has fetched a bound claim and the bound
    volume of that claim: the validation of the claim reference and the
    patch decision. *)
Lemma pollCondition_bound volInfo pvInfo ns w w1 w2 pvc pv claimRef :
  getPVC env ns (PVCName volInfo) w = (inr pvc, w1) →
  pvc_Phase pvc = ClaimBound → pvc_VolumeName pvc ≠ "" →
  getPV env (pvc_VolumeName pvc) w1 = (inr pv, w2) →
  pv_ClaimRef pv = Some claimRef → pv_Phase pv = VolumeBound →
  pollCondition env volInfo pvInfo ns w
  = if negb (bool_decide (ref_Name claimRef = pvc_Name pvc))
       || negb (bool_decide (ref_Namespace claimRef = ns))
    then ((false, Some (UnexpectedPVC (ref_Namespace claimRef) (ref_Name claimRef)
                                      ns (pvc_Name pvc))),
          w2, [EvGetPVC ns (PVCName volInfo); EvGetPV (pvc_VolumeName pvc)])
    else if needPatch pv pvInfo
    then (match (patchPV env pv (updatedPV pv pvInfo) w2).1 with
          | Some e => (false, Some e)
          | None => (true, None)
          end,
          (patchPV env pv (updatedPV pv pvInfo) w2).2,
          [EvGetPVC ns (PVCName volInfo); EvGetPV (pvc_VolumeName pvc);
           EvPatchPV pv (updatedPV pv pvInfo)])
    else ((true, None), w2,
          [EvGetPVC ns (PVCName volInfo); EvGetPV (pvc_VolumeName pvc)]).
Proof.
  intros HgetPVC Hphase Hname HgetPV Href Hbound.
  unfold pollCondition, bind, call. rewrite HgetPVC.
  rewrite (bool_decide_eq_true_2 _ Hphase), (bool_decide_eq_false_2 _ Hname).
  simpl. rewrite HgetPV, Href.
  rewrite (bool_decide_eq_true_2 _ Hbound). simpl.
  destruct (negb (bool_decide (ref_Name claimRef = pvc_Name pvc))
            || negb (bool_decide (ref_Namespace claimRef = ns))); simpl; [done|].
  destruct (needPatch pv pvInfo); simpl; [|done].
  destruct (patchPV env pv (updatedPV pv pvInfo) w2) as [[e|] w3]; simpl; done.
Qed.

(** C4: for a volume that an attempt has fetched and found bound to the
    claim of the worker, a patch is issued exactly when the reclaim policy
    differs from the recorded one or a recorded label is missing from the
    volume or has another value there; labels that only the volume carries
    never cause a patch.  The patch is issued against the volume just
    fetched and sets its reclaim policy and its whole label set to the
    recorded ones, leaving the rest of the volume as fetched.  When no
    patch is needed or the patch succeeds the attempt reports success and
    the poll ends successfully with that attempt; when the patch fails
    the poll ends with the error of the patch. *)
Theorem C4_patch_iff_recorded_differs
    volInfo pvInfo ns (w w1 w2 : W) pvc pv claimRef :
  getPVC env ns (PVCName volInfo) w = (inr pvc, w1) →
  pvc_Phase pvc = ClaimBound → pvc_VolumeName pvc ≠ "" →
  getPV env (pvc_VolumeName pvc) w1 = (inr pv, w2) →
  pv_ClaimRef pv = Some claimRef → pv_Phase pv = VolumeBound →
  ref_Name claimRef = pvc_Name pvc → ref_Namespace claimRef = ns →
  let attempt := pollCondition env volInfo pvInfo ns w in
  let patched := patchPV env pv (updatedPV pv pvInfo) w2 in
  ((∃ original updated, EvPatchPV original updated ∈ trace_of attempt)
   ↔ pv_ReclaimPolicy pv ≠ ReclaimPolicy pvInfo
     ∨ ∃ k v, Labels pvInfo !! k = Some v ∧ pv_Labels pv !! k ≠ Some v)
  ∧ (pv_ReclaimPolicy pv = ReclaimPolicy pvInfo → Labels pvInfo ⊆ pv_Labels pv →
     noneOf isPatchPV (trace_of attempt))
  ∧ (∀ original updated, EvPatchPV original updated ∈ trace_of attempt →
       original = pv
       ∧ pv_ReclaimPolicy updated = ReclaimPolicy pvInfo
       ∧ pv_Labels updated = Labels pvInfo
       ∧ pv_Name updated = pv_Name pv
       ∧ pv_ClaimRef updated = pv_ClaimRef pv
       ∧ pv_Phase updated = pv_Phase pv
       ∧ world_of attempt = patched.2)
  ∧ (needPatch pv pvInfo = false ∨ patched.1 = None →
     result_of attempt = (true, None)
     ∧ ∀ ticks,
         PollUntilContextTimeout ticks (pollCondition env volInfo pvInfo ns) w
         = (None, world_of attempt, trace_of attempt))
  ∧ (∀ e, needPatch pv pvInfo = true → patched.1 = Some e →
     ∀ ticks,
       PollUntilContextTimeout ticks (pollCondition env volInfo pvInfo ns) w
       = (Some e, patched.2, trace_of attempt)).
Proof.
  intros HgetPVC Hphase Hname HgetPV Href Hbound HrefName HrefNs attempt patched.
  pose proof (pollCondition_bound volInfo pvInfo ns w w1 w2 pvc pv claimRef
                HgetPVC Hphase Hname HgetPV Href Hbound) as Hc.
  rewrite (bool_decide_eq_true_2 _ HrefName), (bool_decide_eq_true_2 _ HrefNs) in Hc.
  simpl in Hc. fold patched in Hc. fold attempt in Hc.
  rewrite <- needPatch_true.
  destruct (needPatch pv pvInfo) eqn:Hneed.
  - (* the volume differs from the record: one patch *)
    assert (Htr : trace_of attempt
                  = [EvGetPVC ns (PVCName volInfo); EvGetPV (pvc_VolumeName pvc);
                     EvPatchPV pv (updatedPV pv pvInfo)]) by (by rewrite Hc).
    assert (Hw : world_of attempt = patched.2) by (by rewrite Hc).
    split; [|split; [|split; [|split]]].
    + split; [done|]. intros _. exists pv, (updatedPV pv pvInfo).
      rewrite Htr. set_solver.
    + intros Hpol Hsub.
      assert (needPatch pv pvInfo = false) by (by apply needPatch_false).
      congruence.
    + intros original updated. rewrite Htr.
      intros Hin. repeat (apply elem_of_cons in Hin as [Hin | Hin]; [try done|]).
      * by injection Hin as -> ->.
      * by apply elem_of_nil in Hin.
    + intros [? | Hok]; [done|]. split.
      * rewrite Hc, Hok. done.
      * intros ticks.
        rewrite (poll_stops ticks _ w (true, None) (world_of attempt) (trace_of attempt));
          [done | | by right].
        fold attempt. rewrite Hc, Hok. done.
    + intros e _ He ticks.
      rewrite (poll_stops ticks _ w (false, Some e) patched.2 (trace_of attempt));
        [done | | by left].
      fold attempt. rewrite Hc, He. done.
  - (* the volume agrees with the record: no patch *)
    assert (Htr : trace_of attempt
                  = [EvGetPVC ns (PVCName volInfo); EvGetPV (pvc_VolumeName pvc)])
      by (by rewrite Hc).
    split; [|split; [|split; [|split]]].
    + split; [|done]. intros (original & updated & Hin). rewrite Htr in Hin.
      repeat (apply elem_of_cons in Hin as [Hin | Hin]; [done|]).
      by apply elem_of_nil in Hin.
    + intros _ _. by rewrite Htr.
    + intros original updated Hin. rewrite Htr in Hin.
      repeat (apply elem_of_cons in Hin as [Hin | Hin]; [done|]).
      by apply elem_of_nil in Hin.
    + intros _. split; [by rewrite Hc|]. intros ticks.
      rewrite (poll_stops ticks _ w (true, None) (world_of attempt) (trace_of attempt));
        [done | | by right].
      fold attempt. by rewrite Hc.
    + intros e ?. done.
Qed.

End PatchFacts.

(** ** A volume bound by another claim *)

Section MismatchFacts.

Context {W : Type} (env : Env W).

(** An attempt that asks for another one has not patched the volume: a
    patch ends the poll, with success or with the error of the patch. *)
Lemma retry_without_patch volInfo pvInfo ns (w w' : W) t :
  pollCondition env volInfo pvInfo ns w = ((false, None), w', t) →
  noneOf isPatchPV t.
Proof.
  unfold pollCondition, bind, call.
  destruct (getPVC env ns (PVCName volInfo) w) as [[e|pvc] w1].
  { destruct (IsNotFound e); simpl; intros [= <- <-]; done. }
  destruct (negb (bool_decide (pvc_Phase pvc = ClaimBound))
            || bool_decide (pvc_VolumeName pvc = "")).
  { simpl. intros [= <- <-]. done. }
  simpl. destruct (getPV env (pvc_VolumeName pvc) w1) as [[e|pv] w2].
  { destruct (IsNotFound e); simpl; intros [= <- <-]; done. }
  destruct (pv_ClaimRef pv) as [claimRef|]; [|simpl; intros [= <- <-]; done].
  destruct (negb (bool_decide (pv_Phase pv = VolumeBound)));
    [simpl; intros [= <- <-]; done|].
  destruct (negb (bool_decide (ref_Name claimRef = pvc_Name pvc))
            || negb (bool_decide (ref_Namespace claimRef = ns))); [done|].
  destruct (needPatch pv pvInfo); [|done].
  simpl. destruct (patchPV env pv (updatedPV pv pvInfo) w2) as [[e|] w3]; done.
Qed.

Lemma mismatch_attempt volInfo pvInfo ns (w w1 w2 : W) pvc pv claimRef :
  getPVC env ns (PVCName volInfo) w = (inr pvc, w1) →
  pvc_Phase pvc = ClaimBound → pvc_VolumeName pvc ≠ "" →
  getPV env (pvc_VolumeName pvc) w1 = (inr pv, w2) →
  pv_ClaimRef pv = Some claimRef → pv_Phase pv = VolumeBound →
  ref_Name claimRef ≠ pvc_Name pvc ∨ ref_Namespace claimRef ≠ ns →
  pollCondition env volInfo pvInfo ns w
  = ((false, Some (UnexpectedPVC (ref_Namespace claimRef) (ref_Name claimRef)
                                 ns (pvc_Name pvc))),
     w2, [EvGetPVC ns (PVCName volInfo); EvGetPV (pvc_VolumeName pvc)]).
Proof.
  intros HgetPVC Hphase Hname HgetPV Href Hbound Hmis.
  rewrite (pollCondition_bound env volInfo pvInfo ns w w1 w2 pvc pv claimRef) by done.
  destruct Hmis as [Hn | Hn]; rewrite (bool_decide_eq_false_2 _ Hn); simpl; [done|].
  by rewrite orb_true_r.
Qed.

(** The poll of a worker that meets a mismatch: it ends with the error of
    the mismatching attempt, at that attempt, without a patch. *)
Lemma poll_mismatch volInfo pvInfo ns ticks (w : W) e wm pvName :
  MeetsMismatch env volInfo pvInfo ns ticks w e wm pvName →
  ∃ wf t0,
    PollUntilContextTimeout ticks (pollCondition env volInfo pvInfo ns) w
    = (Some e, wf, t0 ++ [EvGetPVC ns (PVCName volInfo); EvGetPV pvName])
    ∧ noneOf isPatchPV t0
    ∧ ∀ ticks',
        PollUntilContextTimeout ticks' (pollCondition env volInfo pvInfo ns) wm
        = (Some e, wf, [EvGetPVC ns (PVCName volInfo); EvGetPV pvName]).
Proof.
  induction 1 as [ticks w w1 w2 pvc pv claimRef H1 H2 H3 H4 H5 H6 H7
                 | ticks w w' t e wm pvName Hretry Hmeets IH].
  - pose proof (mismatch_attempt volInfo pvInfo ns w w1 w2 pvc pv claimRef
                  H1 H2 H3 H4 H5 H6 H7) as Hc.
    exists w2, []. split; [|split; [done|]].
    + by rewrite (poll_stops ticks _ w _ _ _ Hc); [|left].
    + intros ticks'. by rewrite (poll_stops ticks' _ w _ _ _ Hc); [|left].
  - destruct IH as (wf & t0 & Hpoll & Hnone & Hstop).
    exists wf, (t ++ t0). split; [|split; [|done]].
    + rewrite (poll_retries ticks _ w w' t Hretry), Hpoll. by rewrite app_assoc.
    + apply noneOf_app. split; [|done]. by eapply retry_without_patch.
Qed.

(** C5: a worker whose poll meets a volume bound by another claim (the
    claim reference differs in name or in namespace from the restored
    claim).  The poll ends with the error of that attempt, and ends at
    that attempt whatever time is left before the deadline: there is no
    further attempt.  Exactly one entry is recorded, under the restored
    namespace of the volume, and nothing else of the Result changes.  No
    patch is issued by the worker, neither in that attempt nor before. *)
Theorem C5_unexpected_claim_is_permanent
    volInfo pvInfo ns (w : W) e wm pvName (errs : Result) :
  MeetsMismatch env volInfo pvInfo ns (pollTicks env) w e wm pvName →
  let run := patchWorker env volInfo pvInfo ns errs w in
  let msg := Error (FailToPatch e (PVCName volInfo) (PVName volInfo)) in
  result_of (PollUntilContextTimeout (pollTicks env)
               (pollCondition env volInfo pvInfo ns) w) = Some e
  ∧ (∀ ticks,
       PollUntilContextTimeout ticks (pollCondition env volInfo pvInfo ns) wm
       = (Some e, world_of run, [EvGetPVC ns (PVCName volInfo); EvGetPV pvName]))
  ∧ result_of run = Add ns msg errs
  ∧ entries (result_of run) = S (entries errs)
  ∧ Namespaces (result_of run) !! ns
    = Some (default [] (Namespaces errs !! ns) ++ [msg])
  ∧ (∀ ns', ns' ≠ ns → Namespaces (result_of run) !! ns' = Namespaces errs !! ns')
  ∧ Velero (result_of run) = Velero errs
  ∧ Cluster (result_of run) = Cluster errs
  ∧ noneOf isPatchPV (trace_of run).
Proof.
  intros Hmeets run msg.
  destruct (poll_mismatch volInfo pvInfo ns _ w e wm pvName Hmeets)
    as (wf & t0 & Hpoll & Hnone & Hstop).
  assert (Hrun : run = (Add ns msg errs, wf,
                        t0 ++ [EvGetPVC ns (PVCName volInfo); EvGetPV pvName])).
  { unfold run, patchWorker, bind. rewrite Hpoll. simpl. by rewrite app_nil_r. }
  rewrite Hpoll, Hrun. unfold result_of, world_of, trace_of. simpl.
  repeat split; try done.
  - apply entries_Add.
  - apply lookup_insert_eq.
  - intros ns' Hne. by apply lookup_insert_ne.
  - apply noneOf_app. done.
Qed.

End MismatchFacts.

(** ** The finalization task as a whole *)

Section TaskFacts.

Context {W : Type} (env : Env W).

(** [execute] hands back no warnings, and as errors those of the one
    finalization task. *)
Lemma execute_run ctx (w : W) :
  execute env ctx w
  = let run := patchDynamicPVWithVolumeInfo env ctx w in
    ((Result_zero, result_of run), world_of run, trace_of run).
Proof.
  unfold execute, bind, ret.
  destruct (patchDynamicPVWithVolumeInfo env ctx w) as [[errs w'] t]. simpl.
  by rewrite Merge_zero_l, app_nil_r.
Qed.

(** A worker leaves the shared Result as it is or adds one entry to it,
    under its restored namespace. *)
Lemma patchWorker_result volInfo pvInfo ns errs (w : W) :
  let run := patchWorker env volInfo pvInfo ns errs w in
  result_of run = errs
  ∨ ∃ e, result_of run
         = Add ns (Error (FailToPatch e (PVCName volInfo) (PVName volInfo))) errs.
Proof.
  unfold patchWorker, bind, ret.
  destruct (PollUntilContextTimeout _ _ w) as [[[e|] w'] t]; simpl.
  - right. by exists e.
  - by left.
Qed.

Lemma patchWorker_entries volInfo pvInfo ns errs (w : W) :
  (entries errs ≤ entries (result_of (patchWorker env volInfo pvInfo ns errs w))
   ≤ S (entries errs))%nat.
Proof.
  destruct (patchWorker_result volInfo pvInfo ns errs w) as [-> | [e ->]].
  - lia.
  - rewrite entries_Add. lia.
Qed.

Lemma patchWorker_nonempty volInfo pvInfo ns errs (w : W) :
  nonemptyScopes errs →
  nonemptyScopes (result_of (patchWorker env volInfo pvInfo ns errs w)).
Proof.
  intros H. destruct (patchWorker_result volInfo pvInfo ns errs w) as [-> | [e ->]].
  - done.
  - by apply nonemptyScopes_Add.
Qed.

Lemma patchVolumes_cons ctx volumeItem rest errs (w : W) :
  patchVolumes env ctx (volumeItem :: rest) errs w
  = match startsWorker ctx volumeItem with
    | Some (pvInfo, ns) =>
        let first := patchWorker env volumeItem pvInfo ns errs w in
        let others := patchVolumes env ctx rest (result_of first) (world_of first) in
        (result_of others, world_of others, trace_of first ++ trace_of others)
    | None => patchVolumes env ctx rest errs w
    end.
Proof.
  simpl. destruct (startsWorker ctx volumeItem) as [[pvInfo ns]|]; [|done].
  unfold bind.
  destruct (patchWorker env volumeItem pvInfo ns errs w) as [[errs' w'] t].
  unfold result_of, world_of, trace_of. simpl.
  by destruct (patchVolumes env ctx rest errs' w') as [[errs'' w''] t'].
Qed.

(** The finalization task only calls the cluster API for claims and
    volumes. *)
Lemma pollCondition_remediation volInfo pvInfo ns (w : W) :
  Forall (λ ev, isRemediation ev = true)
         (trace_of (pollCondition env volInfo pvInfo ns w)).
Proof.
  unfold pollCondition, bind, call, trace_of.
  destruct (getPVC env ns (PVCName volInfo) w) as [[e|pvc] w1].
  { destruct (IsNotFound e); simpl; repeat constructor. }
  destruct (negb (bool_decide (pvc_Phase pvc = ClaimBound))
            || bool_decide (pvc_VolumeName pvc = "")).
  { simpl. repeat constructor. }
  simpl. destruct (getPV env (pvc_VolumeName pvc) w1) as [[e|pv] w2].
  { destruct (IsNotFound e); simpl; repeat constructor. }
  destruct (pv_ClaimRef pv) as [claimRef|]; [|simpl; repeat constructor].
  destruct (negb (bool_decide (pv_Phase pv = VolumeBound)));
    [simpl; repeat constructor|].
  destruct (negb (bool_decide (ref_Name claimRef = pvc_Name pvc))
            || negb (bool_decide (ref_Namespace claimRef = ns)));
    [simpl; repeat constructor|].
  destruct (needPatch pv pvInfo); [|simpl; repeat constructor].
  simpl. destruct (patchPV env pv (updatedPV pv pvInfo) w2) as [[e|] w3];
    simpl; repeat constructor.
Qed.

Lemma poll_remediation volInfo pvInfo ns ticks (w : W) :
  Forall (λ ev, isRemediation ev = true)
         (trace_of (PollUntilContextTimeout ticks
                      (pollCondition env volInfo pvInfo ns) w)).
Proof.
  revert w. induction ticks as [|n IH]; intros w; simpl; unfold bind;
    pose proof (pollCondition_remediation volInfo pvInfo ns w) as Hc;
    destruct (pollCondition env volInfo pvInfo ns w) as [[[ok [e|]] w'] t];
    unfold trace_of in *; simpl in *; rewrite ?app_nil_r; try done.
  - destruct ok; simpl; by rewrite app_nil_r.
  - destruct ok; simpl; [by rewrite app_nil_r|].
    specialize (IH w').
    destruct (PollUntilContextTimeout n _ w') as [[r w''] t']. simpl in *.
    by apply Forall_app.
Qed.

Lemma patchWorker_remediation volInfo pvInfo ns errs (w : W) :
  Forall (λ ev, isRemediation ev = true)
         (trace_of (patchWorker env volInfo pvInfo ns errs w)).
Proof.
  unfold patchWorker, bind, ret.
  pose proof (poll_remediation volInfo pvInfo ns (pollTicks env) w) as H.
  destruct (PollUntilContextTimeout _ _ w) as [[[e|] w'] t];
    unfold trace_of in *; simpl in *; by rewrite app_nil_r.
Qed.

Lemma patchVolumes_remediation ctx volumes errs (w : W) :
  Forall (λ ev, isRemediation ev = true)
         (trace_of (patchVolumes env ctx volumes errs w)).
Proof.
  revert errs w. induction volumes as [|v rest IH]; intros errs w.
  - constructor.
  - rewrite patchVolumes_cons.
    destruct (startsWorker ctx v) as [[pvInfo ns]|]; [|apply IH].
    simpl. unfold trace_of at 1. simpl. apply Forall_app. split.
    + apply patchWorker_remediation.
    + apply IH.
Qed.

Lemma execute_remediation ctx (w : W) :
  Forall (λ ev, isRemediation ev = true) (trace_of (execute env ctx w)).
Proof. rewrite execute_run. apply patchVolumes_remediation. Qed.

(** The task records at most one entry per volume of the list. *)
Lemma patchVolumes_entries ctx volumes errs (w : W) :
  (entries errs ≤ entries (result_of (patchVolumes env ctx volumes errs w))
   ≤ entries errs + length volumes)%nat.
Proof.
  revert errs w. induction volumes as [|v rest IH]; intros errs w.
  - simpl. unfold result_of, ret. simpl. lia.
  - rewrite patchVolumes_cons.
    destruct (startsWorker ctx v) as [[pvInfo ns]|].
    + simpl.
      pose proof (patchWorker_entries v pvInfo ns errs w) as H1.
      pose proof (IH (result_of (patchWorker env v pvInfo ns errs w))
                     (world_of (patchWorker env v pvInfo ns errs w))) as H2.
      unfold result_of in *. simpl in *. lia.
    + pose proof (IH errs w). simpl. lia.
Qed.

Lemma patchVolumes_nonempty ctx volumes errs (w : W) :
  nonemptyScopes errs →
  nonemptyScopes (result_of (patchVolumes env ctx volumes errs w)).
Proof.
  revert errs w. induction volumes as [|v rest IH]; intros errs w Hne.
  - done.
  - rewrite patchVolumes_cons.
    destruct (startsWorker ctx v) as [[pvInfo ns]|].
    + simpl. apply IH. by apply patchWorker_nonempty.
    + by apply IH.
Qed.

(** A volume for which no worker is started leaves nothing behind. *)
Lemma patchVolumes_skip ctx before volumeItem after errs (w : W) :
  startsWorker ctx volumeItem = None →
  patchVolumes env ctx (before ++ volumeItem :: after) errs w
  = patchVolumes env ctx (before ++ after) errs w.
Proof.
  intros Hskip. revert errs w. induction before as [|v before IH]; intros errs w.
  - simpl. by rewrite Hskip.
  - rewrite <- !app_comm_cons, !patchVolumes_cons.
    destruct (startsWorker ctx v) as [[pvInfo ns]|]; [|by apply IH].
    simpl. by rewrite IH.
Qed.

Lemma patchVolumes_none ctx volumes errs (w : W) :
  (∀ v, v ∈ volumes → startsWorker ctx v = None) →
  patchVolumes env ctx volumes errs w = (errs, w, []).
Proof.
  induction volumes as [|v rest IH]; intros Hnone; [done|].
  rewrite patchVolumes_cons, Hnone by left. apply IH.
  intros v' Hin. apply Hnone. by right.
Qed.

(** The errors that [execute] hands back: at most one per volume, no
    namespace without an entry. *)
Lemma execute_errs ctx (w : W) :
  let errs := (result_of (execute env ctx w)).2 in
  (entries errs ≤ length (volumeInfo ctx))%nat ∧ nonemptyScopes errs.
Proof.
  rewrite execute_run. unfold result_of. simpl. split.
  - pose proof (patchVolumes_entries ctx (volumeInfo ctx) Result_zero w) as H.
    rewrite entries_zero in H. unfold result_of in H.
    unfold patchDynamicPVWithVolumeInfo. lia.
  - apply patchVolumes_nonempty, nonemptyScopes_zero.
Qed.

End TaskFacts.

(** ** The reconciler *)

Section ReconcileFacts.

Context {W : Type} (env : Env W).

(** [finishProcessing], step by step: the metric, the clock, the patch. *)
Lemma finishProcessing_run restorePhase restore original (w : W) :
  let w1 := if bool_decide (restorePhase = RestorePhasePartiallyFailed)
            then RegisterRestorePartialFailure env (ScheduleName restore) w
            else RegisterRestoreSuccess env (ScheduleName restore) w in
  let t := (now env w1).1 in
  let final := finished restorePhase t restore in
  let patch := patchRestore env original final (now env w1).2 in
  finishProcessing env restorePhase restore original w
  = ((final, patch.1), patch.2,
     [if bool_decide (restorePhase = RestorePhasePartiallyFailed)
      then EvRegisterRestorePartialFailure (ScheduleName restore)
      else EvRegisterRestoreSuccess (ScheduleName restore);
      EvNow; EvPatchRestore original final]).
Proof.
  unfold finishProcessing, finished, bind, call, act, ret.
  destruct (bool_decide (restorePhase = RestorePhasePartiallyFailed)); simpl.
  - destruct (now env _) as [t w2]. simpl.
    destruct (patchRestore env _ _ w2) as [err w3]. done.
  - destruct (now env _) as [t w2]. simpl.
    destruct (patchRestore env _ _ w2) as [err w3]. done.
Qed.

(** C8: for a restore that is not found, and for a restore whose phase is
    neither Finalizing nor FinalizingPartiallyFailed, the call returns
    success; its only call of a collaborator is the read of the restore, so
    that the restore is not patched and no result is written. *)
Theorem C8_not_awaiting_finalization_is_noop namespace req (w : W) :
  (∃ err, (getRestore env req w).1 = inl err ∧ IsNotFound err = true)
  ∨ (∃ original, (getRestore env req w).1 = inr original
                 ∧ Phase original ≠ RestorePhaseFinalizing
                 ∧ Phase original ≠ RestorePhaseFinalizingPartiallyFailed) →
  let run := Reconcile env namespace req w in
  result_of run = None
  ∧ trace_of run = [EvGetRestore req]
  ∧ world_of run = (getRestore env req w).2
  ∧ noneOf isPatchRestore (trace_of run)
  ∧ noneOf isPutResults (trace_of run)
  ∧ noneOf isPatchPV (trace_of run).
Proof.
  intros H run.
  assert (Hrun : run = (None, (getRestore env req w).2, [EvGetRestore req])).
  { unfold run, Reconcile, bind, call.
    destruct (getRestore env req w) as [got w1]. simpl in *.
    destruct H as [(err & -> & Hnf) | (original & -> & H1 & H2)].
    - rewrite Hnf. done.
    - unfold isFinalizing.
      rewrite (bool_decide_eq_false_2 _ H1), (bool_decide_eq_false_2 _ H2). done. }
  rewrite Hrun. done.
Qed.

(** What [Reconcile] does when the backup of a finalizing restore cannot
    be fetched. *)
Lemma Reconcile_backup_error namespace req (w w1 w2 : W) original err :
  getRestore env req w = (inr original, w1) →
  isFinalizing (Phase original) = true →
  fetchBackupInfoInternal env namespace (BackupName original) w1 = (inl err, w2) →
  Reconcile env namespace req w
  = if IsNotFound err
    then
      let fin := finishProcessing env RestorePhasePartiallyFailed original original w2 in
      (finalStatusError (result_of fin).2, world_of fin,
       [EvGetRestore req; EvFetchBackupInfo namespace (BackupName original)]
       ++ trace_of fin)
    else
      (Some (Wrapped err "error getting backup info"), w2,
       [EvGetRestore req; EvFetchBackupInfo namespace (BackupName original)]).
Proof.
  intros Hget Hphase Hfetch. unfold Reconcile, bind, call.
  rewrite Hget, Hphase. simpl. rewrite Hfetch.
  destruct (IsNotFound err); [|done].
  destruct (finishProcessing env RestorePhasePartiallyFailed original original w2)
    as [[[final [e|]] w3] t]; simpl; by rewrite app_nil_r.
Qed.

(** [Reconcile] from the finalization tasks on. *)
Lemma Reconcile_loaded namespace req (w : W) original info volumes inventory w5 :
  Loaded env namespace req w original info volumes inventory w5 →
  let ctx := {| restore := original; volumeInfo := volumes;
                restoredPVCList := getRestoredPVCFromRestoredResourceList inventory |} in
  let tasks := execute env ctx w5 in
  let warnings := (result_of tasks).1 in
  let errs := (result_of tasks).2 in
  let restore := tallied original warnings errs in
  let update :=
    (if bool_decide (countEntries warnings > 0) || bool_decide (countEntries errs > 0)
     then updateResults env (location info) restore warnings errs
     else ret None) (world_of tasks) in
  Reconcile env namespace req w
  = match result_of update with
    | Some e =>
        (Some (Wrapped e "error updating results"),
         CleanupClients env (world_of update),
         loads namespace req original info ++ trace_of tasks ++ trace_of update
         ++ [EvCleanupClients])
    | None =>
        let fin := finishProcessing env (finalPhaseOf restore) restore original
                     (world_of update) in
        (finalStatusError (result_of fin).2,
         CleanupClients env (world_of fin),
         loads namespace req original info ++ trace_of tasks ++ trace_of update
         ++ trace_of fin ++ [EvCleanupClients])
    end.
Proof.
  intros (w1 & w2 & w3 & w4 & Hget & Hphase & Hfetch & Hstore & Hvols & Hinv).
  intros ctx tasks warnings errs restore update.
  unfold Reconcile, deferCleanup, bind, call, act.
  rewrite Hget, Hphase. simpl. rewrite Hfetch, Hstore, Hvols, Hinv.
  fold ctx. fold tasks.
  destruct tasks as [[[warnings' errs'] w6] t6] eqn:Htasks.
  unfold result_of, world_of, trace_of in *. simpl in *.
  subst warnings errs.
  change (if negb (IsEmpty errs')
          then set_Phase RestorePhaseFinalizingPartiallyFailed
                 (set_Counts (GoInt.add (Warnings original) (countEntries warnings'))
                             (GoInt.add (Errors original) (countEntries errs')) original)
          else set_Counts (GoInt.add (Warnings original) (countEntries warnings'))
                          (GoInt.add (Errors original) (countEntries errs')) original)
    with restore.
  fold update.
  destruct update as [[[e|] w7] t7] eqn:Hupd; simpl.
  - unfold ret. simpl. rewrite !app_nil_r. unfold loads.
    simpl. by rewrite <- !app_assoc.
  - change (if bool_decide (Phase restore = RestorePhaseFinalizingPartiallyFailed)
            then RestorePhasePartiallyFailed else RestorePhaseCompleted)
      with (finalPhaseOf restore).
    destruct (finishProcessing env (finalPhaseOf restore) restore original w7)
      as [[[final [e|]] w8] t8]; simpl; unfold ret; simpl;
      rewrite ?app_nil_r; unfold loads; simpl; by rewrite <- !app_assoc.
Qed.

(** [updateResults], step by step: the fetch of the stored results, the
    merge, the write. *)
Lemma updateResults_run backupStore restore newWarnings newErrs (w : W) :
  updateResults env backupStore restore newWarnings newErrs w
  = match GetRestoreResults env backupStore (Name restore) w with
    | (inl err, w1) =>
        (Some (Wrapped err "error getting restore results"), w1,
         [EvGetRestoreResults backupStore (Name restore)])
    | (inr originResults, w1) =>
        let m : gmap string Result :=
          <["warnings" := Merge (default Result_zero (originResults !! "warnings"))
                                newWarnings]>
            (<["errors" := Merge (default Result_zero (originResults !! "errors"))
                                 newErrs]> ∅) in
        let put := putResults env backupStore restore m w1 in
        (match put.1 with
         | Some e => Some (Wrapped e "error putting restore results")
         | None => None
         end, put.2,
         [EvGetRestoreResults backupStore (Name restore);
          EvPutResults backupStore restore m])
    end.
Proof.
  unfold updateResults, bind, call.
  destruct (GetRestoreResults env backupStore (Name restore) w) as [[err|origin] w1];
    simpl; [done|].
  destruct (putResults env backupStore restore _ w1) as [[e|] w2]; done.
Qed.

Lemma remediation_not_patchRestore t o u :
  Forall (λ ev, isRemediation ev = true) t → EvPatchRestore o u ∉ t.
Proof.
  intros H Hin. rewrite Forall_forall in H. by specialize (H _ Hin).
Qed.

Lemma remediation_not_putResults t l r m :
  Forall (λ ev, isRemediation ev = true) t → EvPutResults l r m ∉ t.
Proof.
  intros H Hin. rewrite Forall_forall in H. by specialize (H _ Hin).
Qed.

Lemma remediation_not_getResults t l r :
  Forall (λ ev, isRemediation ev = true) t → EvGetRestoreResults l r ∉ t.
Proof.
  intros H Hin. rewrite Forall_forall in H. by specialize (H _ Hin).
Qed.

Lemma finished_fields restorePhase t restore :
  let final := finished restorePhase t restore in
  Name final = Name restore ∧ BackupName final = BackupName restore
  ∧ ScheduleName final = ScheduleName restore
  ∧ NamespaceMapping final = NamespaceMapping restore
  ∧ Warnings final = Warnings restore ∧ Errors final = Errors restore
  ∧ CompletionTimestamp final = Some t
  ∧ Phase final = if bool_decide (restorePhase = RestorePhasePartiallyFailed)
                  then RestorePhasePartiallyFailed else RestorePhaseCompleted.
Proof. unfold finished. simpl. done. Qed.

Lemma tallied_fields original warnings errs :
  let restore := tallied original warnings errs in
  Name restore = Name original ∧ BackupName restore = BackupName original
  ∧ ScheduleName restore = ScheduleName original
  ∧ NamespaceMapping restore = NamespaceMapping original
  ∧ Warnings restore = GoInt.wrap (Warnings original + Z.of_nat (entries warnings))
  ∧ Errors restore = GoInt.wrap (Errors original + Z.of_nat (entries errs))
  ∧ CompletionTimestamp restore = CompletionTimestamp original
  ∧ Phase restore = if IsEmpty errs then Phase original
                    else RestorePhaseFinalizingPartiallyFailed.
Proof.
  unfold tallied, GoInt.add. rewrite !countEntries_wrap, !wrap_add_r.
  destruct (IsEmpty errs); simpl; done.
Qed.

(** The final phase: PartiallyFailed when the restore entered in
    FinalizingPartiallyFailed or the tasks have left an error. *)
Lemma finalPhaseOf_tallied original warnings errs :
  finalPhaseOf (tallied original warnings errs)
  = if bool_decide (Phase original = RestorePhaseFinalizingPartiallyFailed)
       || bool_decide (0 < entries errs)%nat
    then RestorePhasePartiallyFailed else RestorePhaseCompleted.
Proof.
  unfold finalPhaseOf.
  destruct (tallied_fields original warnings errs) as (_ & _ & _ & _ & _ & _ & _ & ->).
  destruct (IsEmpty errs) eqn:He.
  - apply IsEmpty_entries in He. rewrite He.
    rewrite (bool_decide_eq_false_2 (0 < 0)%nat) by lia. by rewrite orb_false_r.
  - rewrite (bool_decide_eq_true_2 (0 < entries errs)%nat).
    + by rewrite orb_true_r.
    + destruct (entries errs) eqn:Hn; [|lia].
      apply IsEmpty_entries in Hn. congruence.
Qed.

(** The patches of the restore that a call issues: at most one, by
    [finishProcessing], after the tasks and the write of their results. *)
Lemma Reconcile_loaded_patch namespace req (w : W) original info volumes inventory w5 :
  Loaded env namespace req w original info volumes inventory w5 →
  let ctx := {| restore := original; volumeInfo := volumes;
                restoredPVCList := getRestoredPVCFromRestoredResourceList inventory |} in
  let tasks := execute env ctx w5 in
  let warnings := (result_of tasks).1 in
  let errs := (result_of tasks).2 in
  let restore := tallied original warnings errs in
  let run := Reconcile env namespace req w in
  (∀ o u, EvPatchRestore o u ∈ trace_of run →
     o = original ∧ ∃ t, u = finished (finalPhaseOf restore) t restore)
  ∧ ((∀ e, result_of run ≠ Some (Wrapped e "error updating results")) →
     ∃ t, EvPatchRestore original (finished (finalPhaseOf restore) t restore)
          ∈ trace_of run)
  ∧ (∀ e, result_of run = Some (Wrapped e "error updating results") →
     noneOf isPatchRestore (trace_of run)).
Proof.
  intros Hloaded ctx tasks warnings errs restore run.
  pose proof (Reconcile_loaded namespace req w original info volumes inventory w5
                Hloaded) as Hrun.
  cbv zeta in Hrun. fold ctx in Hrun. fold tasks in Hrun.
  fold warnings errs in Hrun. fold restore in Hrun. fold run in Hrun.
  pose proof (execute_remediation env ctx w5) as Hrem. fold tasks in Hrem.
  set (update := (if bool_decide (countEntries warnings > 0)
                     || bool_decide (countEntries errs > 0)
                  then updateResults env (location info) restore warnings errs
                  else ret None) (world_of tasks)) in *.
  assert (Hupd : ∀ o u, EvPatchRestore o u ∉ trace_of update).
  { intros o u. unfold update.
    destruct (bool_decide (countEntries warnings > 0)
              || bool_decide (countEntries errs > 0)).
    - rewrite updateResults_run.
      destruct (GetRestoreResults env _ _ _) as [[err|origin] w7];
        unfold trace_of; simpl; set_solver.
    - unfold ret, trace_of. simpl. set_solver. }
  destruct (result_of update) as [e|] eqn:Hres.
  - assert (Ht : trace_of run
                 = loads namespace req original info ++ trace_of tasks
                   ++ trace_of update ++ [EvCleanupClients]) by (by rewrite Hrun).
    assert (Hr : result_of run = Some (Wrapped e "error updating results"))
      by (by rewrite Hrun).
    assert (Hno : ∀ o u, EvPatchRestore o u ∉ trace_of run).
    { intros o u Hin. rewrite Ht, !elem_of_app in Hin.
      destruct Hin as [Hin | [Hin | [Hin | Hin]]].
      - unfold loads in Hin. set_solver.
      - by eapply remediation_not_patchRestore.
      - by eapply Hupd.
      - set_solver. }
    split; [|split].
    + intros o u Hin. by apply Hno in Hin.
    + intros Hne. by specialize (Hne e).
    + intros e' _. apply noneOf_elem. intros ev Hin.
      destruct ev; try done. by apply Hno in Hin.
  - pose proof (finishProcessing_run (finalPhaseOf restore) restore original
                  (world_of update)) as Hfin.
    cbv zeta in Hfin.
    set (w7 := if bool_decide (finalPhaseOf restore = RestorePhasePartiallyFailed)
               then RegisterRestorePartialFailure env (ScheduleName restore)
                      (world_of update)
               else RegisterRestoreSuccess env (ScheduleName restore)
                      (world_of update)) in Hfin.
    set (t := (now env w7).1) in Hfin.
    set (metric := if bool_decide (finalPhaseOf restore = RestorePhasePartiallyFailed)
                   then EvRegisterRestorePartialFailure (ScheduleName restore)
                   else EvRegisterRestoreSuccess (ScheduleName restore)) in Hfin.
    rewrite Hfin in Hrun.
    assert (Ht : trace_of run
                 = loads namespace req original info ++ trace_of tasks
                   ++ trace_of update
                   ++ [metric; EvNow;
                       EvPatchRestore original
                         (finished (finalPhaseOf restore) t restore)]
                   ++ [EvCleanupClients]) by (by rewrite Hrun).
    assert (Hr : result_of run
                 = finalStatusError
                     (patchRestore env original
                        (finished (finalPhaseOf restore) t restore)
                        (now env w7).2).1) by (by rewrite Hrun).
    split; [|split].
    + intros o u Hin. rewrite Ht, !elem_of_app in Hin.
      destruct Hin as [Hin | [Hin | [Hin | [Hin | Hin]]]].
      * exfalso. unfold loads in Hin. set_solver.
      * exfalso. by eapply remediation_not_patchRestore.
      * exfalso. by eapply Hupd.
      * apply elem_of_cons in Hin as [Hin | Hin];
          [unfold metric in Hin; case_bool_decide; discriminate Hin|].
        apply elem_of_cons in Hin as [Hin | Hin]; [discriminate Hin|].
        apply elem_of_cons in Hin as [Hin | Hin]; [|by apply elem_of_nil in Hin].
        injection Hin as -> ->. split; [done|]. by exists t.
      * set_solver.
    + intros _. exists t. rewrite Ht, !elem_of_app. right. right. right. left.
      set_solver.
    + intros e' He'. exfalso. rewrite Hr in He'.
      destruct (patchRestore env _ _ _) as [[e2|] w8]; simpl in He'; done.
Qed.

(** The trace of a call that has loaded everything: the loads, the
    tasks, the write of the results when there is one, the closing. *)
Lemma Reconcile_loaded_trace namespace req (w : W) original info volumes inventory w5 :
  Loaded env namespace req w original info volumes inventory w5 →
  let ctx := {| restore := original; volumeInfo := volumes;
                restoredPVCList := getRestoredPVCFromRestoredResourceList inventory |} in
  let tasks := execute env ctx w5 in
  let warnings := (result_of tasks).1 in
  let errs := (result_of tasks).2 in
  let restore := tallied original warnings errs in
  let update :=
    (if bool_decide (countEntries warnings > 0) || bool_decide (countEntries errs > 0)
     then updateResults env (location info) restore warnings errs
     else ret None) (world_of tasks) in
  ∃ closing,
    trace_of (Reconcile env namespace req w)
    = loads namespace req original info ++ trace_of tasks ++ trace_of update ++ closing
    ∧ Forall (λ ev, isClosing ev = true) closing.
Proof.
  intros Hloaded ctx tasks warnings errs restore update.
  pose proof (Reconcile_loaded namespace req w original info volumes inventory w5
                Hloaded) as Hrun.
  cbv zeta in Hrun. fold ctx in Hrun. fold tasks in Hrun.
  fold warnings errs in Hrun. fold restore in Hrun. fold update in Hrun.
  destruct (result_of update) as [e|].
  - exists [EvCleanupClients]. rewrite Hrun. split; [done|]. repeat constructor.
  - rewrite finishProcessing_run in Hrun. cbv zeta in Hrun.
    eexists. rewrite Hrun. unfold trace_of at 1. cbn [snd]. split; [reflexivity|].
    unfold trace_of. cbn [snd].
    repeat constructor. by case_bool_decide.
Qed.

(** C1, as amended: a call that has found the restore in a finalizing
    phase and has loaded the backup location, the store, the volume infos
    and the inventory of restored resources.  The counts that it writes are
    the warnings and errors of the restore plus the number of entries,
    across the three scopes, of the warnings and of the errors that the
    tasks have returned (as Go integers: without wrap-around when the sum
    fits).  When the write of the results of the tasks, which is attempted
    when one of the two numbers of entries is positive, does not fail, the
    call patches the restore, once: the patched restore carries these
    counts, the phase PartiallyFailed when the restore entered in
    FinalizingPartiallyFailed or the tasks returned at least one error and
    the phase Completed otherwise, and in both cases a completion time;
    nothing else of the restore changes.  When that write fails, the call
    returns its error and patches nothing: no final phase, no completion
    time.  Without an entry no write is attempted, so none fails. *)
Theorem C1_counts_and_final_phase
    namespace req (w : W) original info volumes inventory w5 :
  Loaded env namespace req w original info volumes inventory w5 →
  let ctx := {| restore := original; volumeInfo := volumes;
                restoredPVCList := getRestoredPVCFromRestoredResourceList inventory |} in
  let tasks := execute env ctx w5 in
  let warnings := (result_of tasks).1 in
  let errs := (result_of tasks).2 in
  let run := Reconcile env namespace req w in
  let warningsAfter := GoInt.wrap (Warnings original + Z.of_nat (entries warnings)) in
  let errorsAfter := GoInt.wrap (Errors original + Z.of_nat (entries errs)) in
  let finalPhase :=
    if bool_decide (Phase original = RestorePhaseFinalizingPartiallyFailed)
       || bool_decide (0 < entries errs)%nat
    then RestorePhasePartiallyFailed else RestorePhaseCompleted in
  (GoInt.in_range (Warnings original + Z.of_nat (entries warnings)) →
   warningsAfter = Warnings original + Z.of_nat (entries warnings))
  ∧ (GoInt.in_range (Errors original + Z.of_nat (entries errs)) →
     errorsAfter = Errors original + Z.of_nat (entries errs))
  ∧ entries warnings
    = (length (Velero warnings) + length (Cluster warnings)
       + nsEntries (Namespaces warnings))%nat
  ∧ entries errs
    = (length (Velero errs) + length (Cluster errs) + nsEntries (Namespaces errs))%nat
  ∧ (∀ o u, EvPatchRestore o u ∈ trace_of run →
       o = original
       ∧ Warnings u = warningsAfter ∧ Errors u = errorsAfter
       ∧ Phase u = finalPhase
       ∧ is_Some (CompletionTimestamp u)
       ∧ Name u = Name original ∧ BackupName u = BackupName original
       ∧ ScheduleName u = ScheduleName original
       ∧ NamespaceMapping u = NamespaceMapping original)
  ∧ ((∀ e, result_of run ≠ Some (Wrapped e "error updating results")) →
     ∃ u, EvPatchRestore original u ∈ trace_of run)
  ∧ (∀ e, result_of run = Some (Wrapped e "error updating results") →
     noneOf isPatchRestore (trace_of run))
  ∧ (let update :=
       (if bool_decide (countEntries warnings > 0) || bool_decide (countEntries errs > 0)
        then updateResults env (location info) (tallied original warnings errs)
                           warnings errs
        else ret None) (world_of tasks) in
     (result_of update = None →
      countEv isPatchRestore (trace_of run) = 1%nat
      ∧ ∃ u, EvPatchRestore original u ∈ trace_of run
             ∧ Warnings u = warningsAfter ∧ Errors u = errorsAfter
             ∧ Phase u = finalPhase ∧ is_Some (CompletionTimestamp u))
     ∧ (∀ e, result_of update = Some e →
          result_of run = Some (Wrapped e "error updating results")
          ∧ noneOf isPatchRestore (trace_of run))
     ∧ ((entries warnings + entries errs = 0)%nat → result_of update = None)).
Proof.
  intros Hloaded ctx tasks warnings errs run warningsAfter errorsAfter finalPhase.
  destruct (Reconcile_loaded_patch namespace req w original info volumes inventory w5
              Hloaded) as (Hpatch & Hsome & Hnone).
  fold ctx tasks warnings errs run in Hpatch, Hsome, Hnone.
  assert (Hfields : ∀ o u, EvPatchRestore o u ∈ trace_of run →
            o = original
            ∧ Warnings u = warningsAfter ∧ Errors u = errorsAfter
            ∧ Phase u = finalPhase
            ∧ is_Some (CompletionTimestamp u)
            ∧ Name u = Name original ∧ BackupName u = BackupName original
            ∧ ScheduleName u = ScheduleName original
            ∧ NamespaceMapping u = NamespaceMapping original).
  { intros o u Hin. destruct (Hpatch o u Hin) as (-> & t & ->).
    destruct (finished_fields (finalPhaseOf (tallied original warnings errs)) t
                (tallied original warnings errs))
      as (-> & -> & -> & -> & -> & -> & -> & ->).
    destruct (tallied_fields original warnings errs)
      as (-> & -> & -> & -> & -> & -> & _ & _).
    rewrite finalPhaseOf_tallied. fold finalPhase.
    repeat split; try done.
    unfold finalPhase. by destruct (_ || _). }
  split; [apply wrap_in_range|]. split; [apply wrap_in_range|].
  split; [done|]. split; [done|]. split; [done|]. split; [|split; [done|]].
  - intros Hne. destruct (Hsome Hne) as [t Hin]. eauto.
  - intros update.
    pose proof (Reconcile_loaded namespace req w original info volumes inventory w5
                  Hloaded) as Hrun.
    cbv zeta in Hrun. fold ctx in Hrun. fold tasks in Hrun.
    fold warnings errs in Hrun. fold update in Hrun. fold run in Hrun.
    pose proof (execute_remediation env ctx w5) as Hrem. fold tasks in Hrem.
    assert (Hupd : countEv isPatchRestore (trace_of update) = 0%nat).
    { unfold update.
      destruct (bool_decide (countEntries warnings > 0)
                || bool_decide (countEntries errs > 0)); [|done].
      rewrite updateResults_run.
      by destruct (GetRestoreResults env _ _ _) as [[e|origin] w7]. }
    assert (Htasks : countEv isPatchRestore (trace_of tasks) = 0%nat).
    { apply countEv_zero, noneOf_elem. intros ev Hin.
      rewrite Forall_forall in Hrem. specialize (Hrem ev Hin). by destruct ev. }
    assert (Hloads : countEv isPatchRestore (loads namespace req original info) = 0%nat)
      by done.
    split; [|split].
    + intros Hok. rewrite Hok in Hrun. cbv zeta in Hrun.
      rewrite finishProcessing_run in Hrun. cbv zeta in Hrun.
      assert (Ht : trace_of run
                   = loads namespace req original info ++ trace_of tasks
                     ++ trace_of update
                     ++ trace_of (finishProcessing env
                                    (finalPhaseOf (tallied original warnings errs))
                                    (tallied original warnings errs) original
                                    (world_of update))
                     ++ [EvCleanupClients]).
      { rewrite finishProcessing_run. cbv zeta. by rewrite Hrun. }
      rewrite finishProcessing_run in Ht. cbv zeta in Ht.
      unfold trace_of at 4 in Ht. cbn [snd] in Ht.
      split.
      * rewrite Ht, !countEv_app, Hloads, Htasks, Hupd. simpl.
        by destruct (bool_decide (finalPhaseOf _ = _)).
      * eexists.
        match goal with
        | |- ?ev ∈ _ ∧ _ => assert (Hin : ev ∈ trace_of run)
        end.
        { rewrite Ht. rewrite !elem_of_app. right. right. right. left.
          right. right. left. }
        destruct (Hfields _ _ Hin) as (_ & HW & HE & HP & HT & _). done.
    + intros e He. rewrite He in Hrun.
      assert (Hr : result_of run = Some (Wrapped e "error updating results"))
        by (by rewrite Hrun).
      split; [done|]. by eapply Hnone.
    + intros Hzero. unfold update.
      rewrite !countEntries_wrap.
      replace (entries warnings) with 0%nat by lia.
      replace (entries errs) with 0%nat by lia.
      done.
Qed.

(** C6, as amended: for a restore in a finalizing phase whose backup is
    not found, the reconciler registers the partial failure, stamps the
    completion time and issues the patch that takes the restore to
    PartiallyFailed; it calls neither the store nor the cluster API for a
    claim or a volume, and writes no results.  The call returns success
    when that patch succeeds and the error of the patch otherwise.  Any
    other error of the fetch of the backup is returned as the error of the
    call, and nothing is patched. *)
Theorem C6_backup_not_found namespace req (w w1 w2 : W) original err :
  getRestore env req w = (inr original, w1) →
  Phase original = RestorePhaseFinalizing
  ∨ Phase original = RestorePhaseFinalizingPartiallyFailed →
  fetchBackupInfoInternal env namespace (BackupName original) w1 = (inl err, w2) →
  let run := Reconcile env namespace req w in
  let w3 := RegisterRestorePartialFailure env (ScheduleName original) w2 in
  let t := (now env w3).1 in
  let final :=
    set_CompletionTimestamp (Some t) (set_Phase RestorePhasePartiallyFailed original) in
  let patch := patchRestore env original final (now env w3).2 in
  (IsNotFound err = true →
     trace_of run
     = [EvGetRestore req; EvFetchBackupInfo namespace (BackupName original);
        EvRegisterRestorePartialFailure (ScheduleName original); EvNow;
        EvPatchRestore original final]
     ∧ Phase final = RestorePhasePartiallyFailed
     ∧ CompletionTimestamp final = Some t
     ∧ noneOf isRemediation (trace_of run)
     ∧ noneOf isPutResults (trace_of run)
     ∧ (patch.1 = None → result_of run = None)
     ∧ (∀ e2, patch.1 = Some e2 →
          result_of run = Some (Wrapped e2 "error updating restore's final status")))
  ∧ (IsNotFound err = false →
     result_of run = Some (Wrapped err "error getting backup info")
     ∧ trace_of run
       = [EvGetRestore req; EvFetchBackupInfo namespace (BackupName original)]).
Proof.
  intros Hget Hphase Hfetch run w3 t final patch.
  assert (Hfin : isFinalizing (Phase original) = true).
  { unfold isFinalizing. destruct Hphase as [-> | ->]; done. }
  pose proof (Reconcile_backup_error namespace req w w1 w2 original err
                Hget Hfin Hfetch) as Hrun.
  fold run in Hrun. split.
  - intros Hnf. rewrite Hnf in Hrun. rewrite finishProcessing_run in Hrun.
    cbv zeta in Hrun.
    rewrite (bool_decide_eq_true_2 (RestorePhasePartiallyFailed = RestorePhasePartiallyFailed))
      in Hrun by done.
    unfold finished in Hrun.
    rewrite (bool_decide_eq_true_2 (RestorePhasePartiallyFailed = RestorePhasePartiallyFailed))
      in Hrun by done.
    fold w3 in Hrun. fold t in Hrun. fold final in Hrun. fold patch in Hrun.
    rewrite Hrun. unfold result_of, world_of, trace_of. cbn [fst snd app].
    repeat split; try done.
    + by intros ->.
    + by intros e2 ->.
  - intros Hnf. rewrite Hnf in Hrun. by rewrite Hrun.
Qed.

(** Whether [Reconcile] writes results, in a call that has loaded
    everything: the fetch of the stored results and the write-back are
    events of [updateResults] alone. *)
Lemma Reconcile_loaded_results namespace req (w : W) original info volumes inventory w5 :
  Loaded env namespace req w original info volumes inventory w5 →
  let ctx := {| restore := original; volumeInfo := volumes;
                restoredPVCList := getRestoredPVCFromRestoredResourceList inventory |} in
  let tasks := execute env ctx w5 in
  let warnings := (result_of tasks).1 in
  let errs := (result_of tasks).2 in
  let restore := tallied original warnings errs in
  let run := Reconcile env namespace req w in
  let needed :=
    bool_decide (countEntries warnings > 0) || bool_decide (countEntries errs > 0) in
  let fetch := GetRestoreResults env (location info) (Name original) (world_of tasks) in
  (∀ l r, EvGetRestoreResults l r ∈ trace_of run
          ↔ needed = true ∧ l = location info ∧ r = Name original)
  ∧ (∀ l r m, EvPutResults l r m ∈ trace_of run
              ↔ needed = true
                ∧ ∃ originResults, fetch.1 = inr originResults ∧ l = location info
                    ∧ r = restore ∧ m = mergedResults originResults warnings errs).
Proof.
  intros Hloaded ctx tasks warnings errs restore run needed fetch.
  destruct (Reconcile_loaded_trace namespace req w original info volumes inventory w5
              Hloaded) as (closing & Ht & Hclosing).
  cbv zeta in Ht. fold ctx in Ht. fold tasks in Ht.
  fold warnings errs in Ht. fold restore in Ht. fold run in Ht. fold needed in Ht.
  pose proof (execute_remediation env ctx w5) as Hrem. fold tasks in Hrem.
  assert (Hname : Name restore = Name original).
  { unfold restore. by destruct (tallied_fields original warnings errs) as (-> & _). }
  rewrite Forall_forall in Hclosing.
  split.
  - intros l r. rewrite Ht, !elem_of_app. split.
    + intros [Hin | [Hin | [Hin | Hin]]].
      * unfold loads in Hin.
        repeat (apply elem_of_cons in Hin as [Hin | Hin]; [discriminate Hin|]).
        by apply elem_of_nil in Hin.
      * exfalso. by eapply remediation_not_getResults.
      * destruct needed; [|by apply elem_of_nil in Hin].
        rewrite updateResults_run, Hname in Hin. fold fetch in Hin.
        destruct fetch as [[e|origin] w7]; unfold trace_of in Hin; cbn [snd] in Hin.
        -- apply elem_of_cons in Hin as [Hin | Hin];
             [by injection Hin as -> -> | by apply elem_of_nil in Hin].
        -- apply elem_of_cons in Hin as [Hin | Hin]; [by injection Hin as -> ->|].
           apply elem_of_cons in Hin as [Hin | Hin];
             [discriminate Hin | by apply elem_of_nil in Hin].
      * by specialize (Hclosing _ Hin).
    + intros (Hneed & -> & ->). right. right. left. rewrite Hneed.
      rewrite updateResults_run, Hname. fold fetch.
      destruct fetch as [[e|origin] w7]; unfold trace_of; cbn [snd]; left.
  - intros l r m. rewrite Ht, !elem_of_app. split.
    + intros [Hin | [Hin | [Hin | Hin]]].
      * unfold loads in Hin.
        repeat (apply elem_of_cons in Hin as [Hin | Hin]; [discriminate Hin|]).
        by apply elem_of_nil in Hin.
      * exfalso. by eapply remediation_not_putResults.
      * destruct needed; [|by apply elem_of_nil in Hin]. split; [done|].
        rewrite updateResults_run, Hname in Hin. fold fetch in Hin.
        destruct fetch as [[e|origin] w7]; unfold trace_of in Hin; cbn [snd] in Hin.
        -- apply elem_of_cons in Hin as [Hin | Hin];
             [discriminate Hin | by apply elem_of_nil in Hin].
        -- apply elem_of_cons in Hin as [Hin | Hin]; [discriminate Hin|].
           apply elem_of_cons in Hin as [Hin | Hin]; [|by apply elem_of_nil in Hin].
           injection Hin as -> -> ->. by exists origin.
      * by specialize (Hclosing _ Hin).
    + intros (Hneed & origin & Hfetch & -> & -> & ->). right. right. left.
      rewrite Hneed. rewrite updateResults_run, Hname. fold fetch.
      destruct fetch as [[e|origin'] w7]; simpl in Hfetch; [done|].
      injection Hfetch as ->. unfold trace_of; cbn [snd]. right. left.
Qed.

(** C7, as amended: in a call that has loaded everything, the
    read-merge-write of the results is started exactly when the number of
    warnings plus the number of errors of this pass is not zero: it
    fetches the results stored for this restore.  The write is performed
    exactly when, in addition, that fetch succeeds: it writes back under
    the keys [warnings] and [errors] the stored results with the new ones
    merged in, and there is no other write of results.  When the fetch
    fails nothing is written and the call returns the error.  When no
    volume is eligible, no result is fetched or written and the restore is
    patched to Completed if it entered in phase Finalizing and to
    PartiallyFailed if it entered in phase FinalizingPartiallyFailed. *)
Theorem C7_results_read_merge_write
    namespace req (w : W) original info volumes inventory w5 :
  Loaded env namespace req w original info volumes inventory w5 →
  Z.of_nat (length volumes) ≤ GoInt.max_int →
  let ctx := {| restore := original; volumeInfo := volumes;
                restoredPVCList := getRestoredPVCFromRestoredResourceList inventory |} in
  let tasks := execute env ctx w5 in
  let warnings := (result_of tasks).1 in
  let errs := (result_of tasks).2 in
  let restore := tallied original warnings errs in
  let run := Reconcile env namespace req w in
  let fetch := GetRestoreResults env (location info) (Name original) (world_of tasks) in
  (EvGetRestoreResults (location info) (Name original) ∈ trace_of run
   ↔ (entries warnings + entries errs ≠ 0)%nat)
  ∧ (∀ l r, EvGetRestoreResults l r ∈ trace_of run →
            l = location info ∧ r = Name original)
  ∧ (∀ l r m, EvPutResults l r m ∈ trace_of run →
       (entries warnings + entries errs ≠ 0)%nat
       ∧ ∃ originResults, fetch.1 = inr originResults ∧ l = location info
           ∧ r = restore ∧ m = mergedResults originResults warnings errs)
  ∧ (∀ originResults,
       (entries warnings + entries errs ≠ 0)%nat → fetch.1 = inr originResults →
       EvPutResults (location info) restore
                    (mergedResults originResults warnings errs) ∈ trace_of run)
  ∧ (∀ e, (entries warnings + entries errs ≠ 0)%nat → fetch.1 = inl e →
       noneOf isPutResults (trace_of run)
       ∧ result_of run
         = Some (Wrapped (Wrapped e "error getting restore results")
                         "error updating results"))
  ∧ (∀ originResults,
       let m := mergedResults originResults warnings errs in
       m !! "warnings"
       = Some (Merge (default Result_zero (originResults !! "warnings")) warnings)
       ∧ m !! "errors"
         = Some (Merge (default Result_zero (originResults !! "errors")) errs)
       ∧ dom m = {[ "warnings"; "errors" ]})
  ∧ ((∃ l r m, EvPutResults l r m ∈ trace_of run)
     ↔ (entries warnings + entries errs ≠ 0)%nat
       ∧ ∃ originResults, fetch.1 = inr originResults)
  ∧ ((∀ v, v ∈ volumes → startsWorker ctx v = None) →
     noneOf isPutResults (trace_of run)
     ∧ (∀ l r, EvGetRestoreResults l r ∉ trace_of run)
     ∧ ∃ u, EvPatchRestore original u ∈ trace_of run
            ∧ Phase u = (if bool_decide (Phase original
                                         = RestorePhaseFinalizingPartiallyFailed)
                         then RestorePhasePartiallyFailed
                         else RestorePhaseCompleted)
            ∧ (Phase original = RestorePhaseFinalizing →
               Phase u = RestorePhaseCompleted)).
Proof.
  intros Hloaded Hlen ctx tasks warnings errs restore run fetch.
  destruct (Reconcile_loaded_results namespace req w original info volumes inventory w5
              Hloaded) as (Hget & Hput).
  fold ctx tasks warnings errs restore run fetch in Hget, Hput.
  (* the counts of this pass *)
  assert (Hw : warnings = Result_zero).
  { unfold warnings, tasks. by rewrite execute_run. }
  destruct (execute_errs env ctx w5) as (Hbound & _).
  fold tasks errs in Hbound. simpl in Hbound.
  assert (Hneeded : bool_decide (countEntries warnings > 0)
                    || bool_decide (countEntries errs > 0) = true
                    ↔ (entries warnings + entries errs ≠ 0)%nat).
  { rewrite Hw, countEntries_zero, entries_zero.
    rewrite (bool_decide_eq_false_2 (0 > 0)) by lia. simpl.
    rewrite bool_decide_eq_true, countEntries_wrap, wrap_in_range.
    - lia.
    - unfold GoInt.in_range, GoInt.min_int, GoInt.max_int in *. lia. }
  split; [|split; [|split; [|split; [|split; [|split; [|split]]]]]].
  - rewrite Hget, Hneeded. split; [by intros (? & _) | done].
  - intros l r Hin. apply Hget in Hin. by destruct Hin as (_ & ? & ?).
  - intros l r m Hin. apply Hput in Hin as (Hneed & Hrest).
    split; [by apply Hneeded | done].
  - intros origin Hcount Hfetch. apply Hput. split; [by apply Hneeded|].
    by exists origin.
  - intros e Hcount Hfetch. apply Hneeded in Hcount. split.
    + apply noneOf_elem. intros ev Hin. destruct ev; try done.
      apply Hput in Hin as (_ & origin & Hfetch' & _). congruence.
    + pose proof (Reconcile_loaded namespace req w original info volumes inventory w5
                    Hloaded) as Hrun.
      cbv zeta in Hrun. fold ctx in Hrun. fold tasks in Hrun.
      fold warnings errs in Hrun. fold restore in Hrun. fold run in Hrun.
      rewrite Hcount, updateResults_run in Hrun.
      assert (Hname : Name restore = Name original).
      { unfold restore. by destruct (tallied_fields original warnings errs) as (-> & _). }
      rewrite Hname in Hrun. fold fetch in Hrun.
      destruct fetch as [[e'|origin] w7]; simpl in Hfetch; [|done].
      injection Hfetch as ->. by rewrite Hrun.
  - intros origin m. unfold m, mergedResults. split; [|split].
    + by rewrite lookup_insert_eq.
    + rewrite lookup_insert_ne by done. by rewrite lookup_insert_eq.
    + rewrite !dom_insert_L, dom_empty_L. set_solver.
  - split.
    + intros (l & r & m & Hin). apply Hput in Hin as (Hneed & origin & Hfetch & _).
      split; [by apply Hneeded | by exists origin].
    + intros (Hcount & origin & Hfetch). eexists _, _, _. apply Hput.
      split; [by apply Hneeded|]. by exists origin.
  - intros Hnone.
    assert (He : errs = Result_zero).
    { unfold errs, tasks. rewrite execute_run. unfold result_of. cbn [fst snd].
      unfold patchDynamicPVWithVolumeInfo. by rewrite patchVolumes_none. }
    assert (Hzero : bool_decide (countEntries warnings > 0)
                    || bool_decide (countEntries errs > 0) = false).
    { apply not_true_iff_false. rewrite Hneeded, Hw, He, entries_zero. lia. }
    assert (HnoPut : noneOf isPutResults (trace_of run)).
    { apply noneOf_elem. intros ev Hin. destruct ev; try done.
      apply Hput in Hin as (Hneed & _). congruence. }
    split; [done|]. split.
    { intros l r Hin. apply Hget in Hin as (Hneed & _). congruence. }
    destruct (Reconcile_loaded_patch namespace req w original info volumes inventory w5
                Hloaded) as (_ & Hsome & _).
    fold ctx tasks warnings errs restore run in Hsome.
    destruct Hsome as [t Hin].
    { intros e Hres.
      pose proof (Reconcile_loaded namespace req w original info volumes inventory w5
                    Hloaded) as Hrun.
      cbv zeta in Hrun. fold ctx in Hrun. fold tasks in Hrun.
      fold warnings errs in Hrun. fold restore in Hrun. fold run in Hrun.
      rewrite Hzero in Hrun. unfold ret in Hrun.
      unfold result_of at 1 in Hrun. cbn [fst snd] in Hrun.
      rewrite Hrun in Hres. unfold result_of in Hres. cbn [fst snd] in Hres.
      destruct (finishProcessing env _ _ _ _) as [[[final [e2|]] w8] t8];
        simpl in Hres; done. }
    eexists. split; [exact Hin|].
    destruct (finished_fields (finalPhaseOf restore) t restore)
      as (_ & _ & _ & _ & _ & _ & _ & ->).
    unfold restore. rewrite finalPhaseOf_tallied, He, entries_zero.
    rewrite (bool_decide_eq_false_2 (0 < 0)%nat) by lia. rewrite orb_false_r.
    split.
    + destruct (bool_decide (Phase original = RestorePhaseFinalizingPartiallyFailed));
        done.
    + intros Hphase. rewrite Hphase. done.
Qed.

(** Every patch of the restore that a call issues is the one of a missing
    backup or the one that follows the tasks. *)
Lemma Reconcile_patch_cases namespace req (w : W) o u :
  EvPatchRestore o u ∈ trace_of (Reconcile env namespace req w) →
  (∃ w1 w2 err t,
     getRestore env req w = (inr o, w1)
     ∧ isFinalizing (Phase o) = true
     ∧ fetchBackupInfoInternal env namespace (BackupName o) w1 = (inl err, w2)
     ∧ IsNotFound err = true
     ∧ u = finished RestorePhasePartiallyFailed t o)
  ∨ (∃ info volumes inventory w5 t,
       Loaded env namespace req w o info volumes inventory w5
       ∧ let ctx := {| restore := o; volumeInfo := volumes;
                       restoredPVCList :=
                         getRestoredPVCFromRestoredResourceList inventory |} in
         let tasks := execute env ctx w5 in
         let restore := tallied o (result_of tasks).1 (result_of tasks).2 in
         u = finished (finalPhaseOf restore) t restore).
Proof.
  intros Hin.
  destruct (getRestore env req w) as [[err|original] w1] eqn:Hget.
  { exfalso. revert Hin. unfold Reconcile, bind, call. rewrite Hget.
    destruct (IsNotFound err); unfold trace_of; simpl; intros Hin;
      repeat (apply elem_of_cons in Hin as [Hin | Hin]; [discriminate Hin|]);
      by apply elem_of_nil in Hin. }
  destruct (isFinalizing (Phase original)) eqn:Hphase; cycle 1.
  { exfalso. revert Hin. unfold Reconcile, bind, call. rewrite Hget, Hphase.
    unfold trace_of; simpl; intros Hin;
      repeat (apply elem_of_cons in Hin as [Hin | Hin]; [discriminate Hin|]);
      by apply elem_of_nil in Hin. }
  destruct (fetchBackupInfoInternal env namespace (BackupName original) w1)
    as [[err|info] w2] eqn:Hfetch.
  { rewrite (Reconcile_backup_error namespace req w w1 w2 original err) in Hin by done.
    destruct (IsNotFound err) eqn:Hnf.
    - rewrite finishProcessing_run in Hin. cbv zeta in Hin.
      unfold trace_of in Hin. cbn [fst snd app] in Hin.
      left. exists w1, w2, err.
      repeat (apply elem_of_cons in Hin as [Hin | Hin];
              [try discriminate Hin; try (case_bool_decide; discriminate Hin)|]).
      + injection Hin as -> ->. eexists. done.
      + by apply elem_of_nil in Hin.
    - exfalso. unfold trace_of in Hin. cbn [snd] in Hin.
      repeat (apply elem_of_cons in Hin as [Hin | Hin]; [discriminate Hin|]).
      by apply elem_of_nil in Hin. }
  destruct (getBackupStore env (location info) w2) as [[err|] w3] eqn:Hstore.
  { exfalso. revert Hin. unfold Reconcile, deferCleanup, bind, call, act.
    rewrite Hget, Hphase. simpl. rewrite Hfetch, Hstore.
    unfold trace_of; simpl; intros Hin;
      repeat (apply elem_of_cons in Hin as [Hin | Hin]; [discriminate Hin|]);
      by apply elem_of_nil in Hin. }
  destruct (GetBackupVolumeInfos env (location info) (BackupName original) w3)
    as [[err|volumes] w4] eqn:Hvols.
  { exfalso. revert Hin. unfold Reconcile, deferCleanup, bind, call, act.
    rewrite Hget, Hphase. simpl. rewrite Hfetch, Hstore, Hvols.
    unfold trace_of; simpl; intros Hin;
      repeat (apply elem_of_cons in Hin as [Hin | Hin]; [discriminate Hin|]);
      by apply elem_of_nil in Hin. }
  destruct (GetRestoredResourceList env (location info) (Name original) w4)
    as [[err|inventory] w5] eqn:Hinv.
  { exfalso. revert Hin. unfold Reconcile, deferCleanup, bind, call, act.
    rewrite Hget, Hphase. simpl. rewrite Hfetch, Hstore, Hvols, Hinv.
    unfold trace_of; simpl; intros Hin;
      repeat (apply elem_of_cons in Hin as [Hin | Hin]; [discriminate Hin|]);
      by apply elem_of_nil in Hin. }
  assert (Hloaded : Loaded env namespace req w original info volumes inventory w5).
  { exists w1, w2, w3, w4. done. }
  destruct (Reconcile_loaded_patch namespace req w original info volumes inventory w5
              Hloaded) as (Hpatch & _ & _).
  destruct (Hpatch o u Hin) as (-> & t & ->).
  right. exists info, volumes, inventory, w5, t. done.
Qed.

(** C10: the task executor returns no warning, whatever its input.  So a
    patch of the restore never changes its count of warnings; results are
    only written when the tasks have returned an error; and a restore that
    entered in phase Finalizing is only patched to PartiallyFailed when its
    backup was not found or when the tasks have returned an error. *)
Theorem C10_no_warning_is_ever_returned ctx (w0 : W) namespace req (w : W) :
  (result_of (execute env ctx w0)).1 = Result_zero
  ∧ entries (result_of (execute env ctx w0)).1 = 0%nat
  ∧ countEntries (result_of (execute env ctx w0)).1 = 0
  ∧ (let run := Reconcile env namespace req w in
     (∀ o u, EvPatchRestore o u ∈ trace_of run →
             GoInt.in_range (Warnings o) → Warnings u = Warnings o)
     ∧ (∀ original info volumes inventory w5,
          Loaded env namespace req w original info volumes inventory w5 →
          let tasks :=
            execute env {| restore := original; volumeInfo := volumes;
                           restoredPVCList :=
                             getRestoredPVCFromRestoredResourceList inventory |} w5 in
          let errs := (result_of tasks).2 in
          ((∃ l r m, EvPutResults l r m ∈ trace_of run) → (0 < entries errs)%nat)
          ∧ (∀ u, EvPatchRestore original u ∈ trace_of run →
                  Phase original = RestorePhaseFinalizing →
                  Phase u = RestorePhasePartiallyFailed →
                  (0 < entries errs)%nat))
     ∧ (∀ o u, EvPatchRestore o u ∈ trace_of run →
               Phase o = RestorePhaseFinalizing →
               Phase u = RestorePhasePartiallyFailed →
               (∃ err, (fetchBackupInfoInternal env namespace (BackupName o)
                          (getRestore env req w).2).1 = inl err
                       ∧ IsNotFound err = true)
               ∨ (∃ info volumes inventory w5,
                    Loaded env namespace req w o info volumes inventory w5
                    ∧ (0 < entries
                             (result_of
                                (execute env
                                   {| restore := o; volumeInfo := volumes;
                                      restoredPVCList :=
                                        getRestoredPVCFromRestoredResourceList
                                          inventory |} w5)).2)%nat))).
Proof.
  assert (Hw : ∀ ctx' w', (result_of (execute env ctx' w')).1 = Result_zero).
  { intros ctx' w'. by rewrite execute_run. }
  assert (Hdemoted : ∀ original volumes inventory w5 t,
            let tasks :=
              execute env {| restore := original; volumeInfo := volumes;
                             restoredPVCList :=
                               getRestoredPVCFromRestoredResourceList inventory |} w5 in
            let restore := tallied original (result_of tasks).1 (result_of tasks).2 in
            Phase original = RestorePhaseFinalizing →
            Phase (finished (finalPhaseOf restore) t restore)
            = RestorePhasePartiallyFailed →
            (0 < entries (result_of tasks).2)%nat).
  { intros original volumes inventory w5 t tasks restore Hphase Hu.
    destruct (finished_fields (finalPhaseOf restore) t restore)
      as (_ & _ & _ & _ & _ & _ & _ & Hp).
    rewrite Hp in Hu. unfold restore in Hu.
    rewrite finalPhaseOf_tallied, Hphase in Hu.
    rewrite (bool_decide_eq_false_2
               (RestorePhaseFinalizing = RestorePhaseFinalizingPartiallyFailed))
      in Hu by done.
    rewrite orb_false_l in Hu.
    destruct (bool_decide (0 < entries (result_of tasks).2)%nat) eqn:Hpos.
    - by apply bool_decide_eq_true in Hpos.
    - rewrite (bool_decide_eq_false_2
                 (RestorePhaseCompleted = RestorePhasePartiallyFailed)) in Hu by done.
      done. }
  split; [apply Hw|]. split; [by rewrite Hw, entries_zero|].
  split; [by rewrite Hw, countEntries_zero|].
  intros run. split; [|split].
  - intros o u Hin Hrange.
    destruct (Reconcile_patch_cases namespace req w o u Hin)
      as [(w1 & w2 & err & t & _ & _ & _ & _ & ->)
         | (info & volumes & inventory & w5 & t & _ & ->)].
    + done.
    + cbv zeta.
      destruct (finished_fields
                  (finalPhaseOf
                     (tallied o
                        (result_of (execute env
                           {| restore := o; volumeInfo := volumes;
                              restoredPVCList :=
                                getRestoredPVCFromRestoredResourceList inventory |}
                           w5)).1
                        (result_of (execute env
                           {| restore := o; volumeInfo := volumes;
                              restoredPVCList :=
                                getRestoredPVCFromRestoredResourceList inventory |}
                           w5)).2)) t
                  (tallied o
                     (result_of (execute env
                        {| restore := o; volumeInfo := volumes;
                           restoredPVCList :=
                             getRestoredPVCFromRestoredResourceList inventory |}
                        w5)).1
                     (result_of (execute env
                        {| restore := o; volumeInfo := volumes;
                           restoredPVCList :=
                             getRestoredPVCFromRestoredResourceList inventory |}
                        w5)).2))
        as (_ & _ & _ & _ & -> & _).
      destruct (tallied_fields o
                  (result_of (execute env
                     {| restore := o; volumeInfo := volumes;
                        restoredPVCList :=
                          getRestoredPVCFromRestoredResourceList inventory |}
                     w5)).1
                  (result_of (execute env
                     {| restore := o; volumeInfo := volumes;
                        restoredPVCList :=
                          getRestoredPVCFromRestoredResourceList inventory |}
                     w5)).2)
        as (_ & _ & _ & _ & -> & _).
      rewrite Hw, entries_zero, Z.add_0_r. by apply wrap_in_range.
  - intros original info volumes inventory w5 Hloaded tasks errs. split.
    + intros (l & r & m & Hin).
      destruct (Reconcile_loaded_results namespace req w original info volumes
                  inventory w5 Hloaded) as (_ & Hput).
      apply Hput in Hin as (Hneed & _).
      rewrite Hw, countEntries_zero in Hneed.
      rewrite (bool_decide_eq_false_2 (0 > 0)) in Hneed by lia. simpl in Hneed.
      apply bool_decide_eq_true in Hneed. by apply countEntries_pos.
    + intros u Hin Hphase Hu.
      destruct (Reconcile_loaded_patch namespace req w original info volumes
                  inventory w5 Hloaded) as (Hpatch & _ & _).
      destruct (Hpatch original u Hin) as (_ & t & ->).
      by eapply Hdemoted.
  - intros o u Hin Hphase Hu.
    destruct (Reconcile_patch_cases namespace req w o u Hin)
      as [(w1 & w2 & err & t & Hget & _ & Hfetch & Hnf & ->)
         | (info & volumes & inventory & w5 & t & Hloaded & ->)].
    + left. exists err. rewrite Hget. simpl. by rewrite Hfetch.
    + right. exists info, volumes, inventory, w5. split; [done|].
      by eapply Hdemoted.
Qed.

End ReconcileFacts.

(** ** The goroutines of the pool *)

Lemma countb_app p l1 l2 : countb p (l1 ++ l2) = (countb p l1 + countb p l2)%nat.
Proof. induction l1 as [|wk l1 IH]; simpl; [done | rewrite IH; lia]. Qed.

Lemma countb_insert p (l : list Worker) i old new :
  l !! i = Some old →
  (countb p (<[i:=new]> l) + (if p old then 1 else 0)
   = countb p l + (if p new then 1 else 0))%nat.
Proof.
  revert i. induction l as [|wk l IH]; intros i Hi; [done|].
  destruct i as [|i]; simpl in *.
  - injection Hi as ->. lia.
  - specialize (IH i Hi). lia.
Qed.

Lemma countb_zero p (l : list Worker) :
  countb p l = 0%nat ↔ Forall (λ wk, p wk = false) l.
Proof.
  induction l as [|wk l IH]; simpl.
  - split; [constructor | done].
  - rewrite Forall_cons, <- IH. destruct (p wk).
    + split; [lia | by intros [? ?]].
    + split; [intros H; split; [done | lia] | intros [_ H]; lia].
Qed.

Lemma countb_le_length p (l : list Worker) : (countb p l ≤ length l)%nat.
Proof. induction l as [|wk l IH]; simpl; [done | destruct (p wk); lia]. Qed.

Lemma assignment_insert (l : list Worker) i old pc :
  l !! i = Some old →
  assignment <$> (<[i:=set_pc pc old]> l) = assignment <$> l.
Proof.
  intros Hi. rewrite list_fmap_insert.
  apply list_insert_id. rewrite list_lookup_fmap, Hi. done.
Qed.

Lemma started_app ctx l1 l2 : started ctx (l1 ++ l2) = started ctx l1 ++ started ctx l2.
Proof. unfold started. apply omap_app. Qed.

Lemma Forall_finished_insert (l : list Worker) i new :
  Forall (λ wk, w_pc wk = Finished) l → w_pc new = Finished →
  Forall (λ wk, w_pc wk = Finished) (<[i:=new]> l).
Proof. intros Hl Hnew. by apply Forall_insert. Qed.

Section PoolFacts.

Context {W : Type} (env : Env W).

Lemma pool_inv_init ctx (w : W) : pool_inv ctx (initPool ctx w).
Proof.
  unfold pool_inv, initPool, inFlight, maxConcurrency. simpl.
  rewrite entries_zero.
  split; [done|]. split; [lia|]. split; [done|]. split; [done|].
  split; [by exists []|]. lia.
Qed.

Lemma step_main_inv ctx (s s' : Pool W) :
  pool_inv ctx s → step_main ctx s = Some s' → pool_inv ctx s'.
Proof.
  intros (Hsem & Hmax & Hwg & Hret & (seen & Hseen & Hassign) & Herrs) Hstep.
  unfold step_main in Hstep. unfold inFlight in Hsem.
  destruct (p_main s) as [[|volumeItem rest]| |] eqn:Hmain; simpl in *.
  - (* the loop ends *)
    injection Hstep as <-. unfold pool_inv, inFlight. simpl.
    split; [done|]. split; [done|]. split; [done|]. split; [done|].
    split; [by exists seen | done].
  - (* one iteration *)
    destruct (startsWorker ctx volumeItem) as [[pvInfo ns]|] eqn:Hstart;
      injection Hstep as <-; unfold pool_inv, inFlight; simpl.
    + rewrite !countb_app, length_app. simpl.
      split; [lia|]. split; [done|]. split; [lia|]. split; [done|].
      split; [|lia].
      exists (seen ++ [volumeItem]). split.
      * by rewrite <- app_assoc.
      * rewrite fmap_app, started_app, Hassign. simpl.
        unfold started. simpl. by rewrite Hstart.
    + split; [done|]. split; [done|]. split; [done|]. split; [done|].
      split; [|done].
      exists (seen ++ [volumeItem]). split.
      * by rewrite <- app_assoc.
      * rewrite started_app, Hassign. unfold started at 3. simpl.
        by rewrite Hstart, app_nil_r.
  - (* the wait ends *)
    case_bool_decide as Hzero; [|done]. injection Hstep as <-.
    unfold pool_inv, inFlight. simpl.
    split; [done|]. split; [done|]. split; [done|]. split.
    + intros _. rewrite Hzero in Hwg. symmetry in Hwg.
      apply countb_zero in Hwg. eapply Forall_impl; [exact Hwg|].
      intros wk. unfold unfinished. by destruct (w_pc wk).
    + split; [by exists seen | done].
  - done.
Qed.

Lemma step_worker_inv ctx i (s s' : Pool W) :
  pool_inv ctx s → step_worker env i s = Some s' → pool_inv ctx s'.
Proof.
  intros (Hsem & Hmax & Hwg & Hret & (seen & Hseen & Hassign) & Herrs) Hstep.
  unfold step_worker in Hstep.
  destruct (workers s !! i) as [wk|] eqn:Hi; [|done].
  assert (Hrunning : w_pc wk ≠ Finished → p_main s ≠ Returned).
  { intros Hpc Hmain. apply Hret in Hmain. rewrite Forall_forall in Hmain.
    apply Hpc, Hmain. by eapply list_elem_of_lookup_2. }
  assert (Hinv : ∀ pc (w' : W) tr sem lock wg errs,
            w_pc wk ≠ Finished →
            (sem + (if holdsSlot wk then 1 else 0)
             = semaphore s + (if holdsSlot (set_pc pc wk) then 1 else 0))%nat →
            (sem ≤ maxConcurrency)%nat →
            (wg + (if unfinished wk then 1 else 0)
             = pvWaitGroup s + (if unfinished (set_pc pc wk) then 1 else 0))%nat →
            (entries errs + (if mayRecord (set_pc pc wk) then 1 else 0)
             ≤ entries (p_errs s) + (if mayRecord wk then 1 else 0))%nat →
            pool_inv ctx (mkPool w' tr sem lock wg errs
                                 (<[i:=set_pc pc wk]> (workers s)) (p_main s))).
  { intros pc w' tr sem lock wg errs Hpc H1 H2 H3 H4.
    pose proof (countb_insert holdsSlot (workers s) i wk (set_pc pc wk) Hi).
    pose proof (countb_insert unfinished (workers s) i wk (set_pc pc wk) Hi).
    pose proof (countb_insert mayRecord (workers s) i wk (set_pc pc wk) Hi).
    unfold pool_inv, inFlight in *. simpl. rewrite length_insert.
    split; [lia|]. split; [lia|]. split; [lia|]. split.
    - intros Hmain. by apply Hrunning in Hmain.
    - split; [|lia]. exists seen. split; [done|]. by rewrite assignment_insert. }
  unfold holdsSlot, unfinished, mayRecord in Hinv. simpl in Hinv.
  destruct (w_pc wk) eqn:Hpc.
  - case_bool_decide as Hfree; [|done]. injection Hstep as <-.
    apply Hinv; try done; try (unfold maxConcurrency in *; lia).
  - destruct (pollCondition env _ _ _ _) as [[r w'] t]. injection Hstep as <-.
    apply Hinv; try done;
      unfold afterAttempt; destruct r.2; try lia; destruct r.1; try lia;
      destruct ticks; lia.
  - destruct (resultLock s); [done|]. injection Hstep as <-.
    apply Hinv; try done; lia.
  - injection Hstep as <-. apply Hinv; try done; try lia.
    rewrite entries_Add. lia.
  - injection Hstep as <-.
    assert (0 < semaphore s)%nat.
    { pose proof (countb_insert holdsSlot (workers s) i wk (set_pc Finished wk) Hi) as Hc.
      assert (Hold : holdsSlot wk = true) by (unfold holdsSlot; by rewrite Hpc).
      rewrite Hold in Hc. simpl in Hc. unfold inFlight in Hsem. lia. }
    apply Hinv; try done; destruct locked; simpl; try lia.
  - injection Hstep as <-. apply Hinv; try done; lia.
  - injection Hstep as <-.
    assert (0 < pvWaitGroup s)%nat.
    { pose proof (countb_insert unfinished (workers s) i wk (set_pc Finished wk) Hi) as Hc.
      assert (Hold : unfinished wk = true) by (unfold unfinished; by rewrite Hpc).
      rewrite Hold in Hc. simpl in Hc. lia. }
    apply Hinv; try done; lia.
  - done.
Qed.

Lemma pool_inv_reachable ctx (w : W) s : reachable env ctx w s → pool_inv ctx s.
Proof.
  unfold reachable. intros Hr.
  apply (rtc_ind_r (R := pool_step env ctx) (pool_inv ctx) (initPool ctx w));
    [apply pool_inv_init | | exact Hr].
  intros s1 s2 _ [Hmain | [i Hworker]] IH.
  - by eapply step_main_inv.
  - by eapply step_worker_inv.
Qed.

(** A run under a schedule is an interleaving of the goroutines. *)
Lemma run_pool_steps ctx schedule (s : Pool W) :
  rtc (pool_step env ctx) s (run_pool env ctx schedule s).
Proof.
  revert s. induction schedule as [|who schedule IH]; intros s; simpl.
  - done.
  - destruct who as [i|].
    + destruct (step_worker env i s) as [s'|] eqn:Hs; simpl; [|apply IH].
      eapply rtc_l; [|apply IH]. right. by exists i.
    + destruct (step_main ctx s) as [s'|] eqn:Hs; simpl; [|apply IH].
      eapply rtc_l; [|apply IH]. by left.
Qed.

Lemma run_pool_reachable ctx schedule (w : W) :
  reachable env ctx w (run_pool env ctx schedule (initPool ctx w)).
Proof. apply run_pool_steps. Qed.

Lemma startsWorker_Some ctx volumeItem :
  is_Some (startsWorker ctx volumeItem)
  ↔ (BackupMethod volumeItem = PodVolumeBackup ∨ BackupMethod volumeItem = CSISnapshot)
    ∧ is_Some (vi_PVInfo volumeItem)
    ∧ sprintf_slash (restoredNamespaceOf (restore ctx) volumeItem) (PVCName volumeItem)
      ∈ restoredPVCList ctx.
Proof.
  unfold startsWorker.
  assert (Hm : bool_decide (BackupMethod volumeItem = PodVolumeBackup)
               || bool_decide (BackupMethod volumeItem = CSISnapshot) = true
               ↔ BackupMethod volumeItem = PodVolumeBackup
                 ∨ BackupMethod volumeItem = CSISnapshot).
  { by rewrite orb_true_iff, !bool_decide_eq_true. }
  destruct (bool_decide (BackupMethod volumeItem = PodVolumeBackup)
            || bool_decide (BackupMethod volumeItem = CSISnapshot)) eqn:Hb.
  - destruct Hm as [Hm _]. specialize (Hm eq_refl). clear Hb.
    destruct (vi_PVInfo volumeItem) as [pvInfo|].
    + destruct (bool_decide (sprintf_slash (restoredNamespaceOf (restore ctx) volumeItem)
                               (PVCName volumeItem) ∈ restoredPVCList ctx)) eqn:Hin.
      * apply bool_decide_eq_true in Hin. split; [|intros _; by eexists].
        intros _. split; [done|]. split; [by eexists | done].
      * apply bool_decide_eq_false in Hin.
        split; [by intros [? ?] | by intros (_ & _ & ?)].
    + split; [by intros [? ?] | by intros (_ & [? ?] & _)].
  - split; [by intros [? ?]|]. intros (H & _). by apply Hm in H.
Qed.

Lemma started_volumes ctx volumes volumeItem pvInfo ns :
  (volumeItem, pvInfo, ns) ∈ started ctx volumes
  ↔ volumeItem ∈ volumes ∧ startsWorker ctx volumeItem = Some (pvInfo, ns).
Proof.
  unfold started. rewrite list_elem_of_omap. split.
  - intros (v & Hin & Hv).
    destruct (startsWorker ctx v) as [[p n]|] eqn:Hs; [|done].
    by injection Hv as -> -> ->.
  - intros (Hin & Hs). exists volumeItem. by rewrite Hs.
Qed.

(** C9: in every state that the goroutines can reach, whatever the
    interleaving and however many volumes are selected, at most three
    workers are in flight, and [semaphore] holds one token for each of
    them.  A worker at the gate cannot move while three are in flight and
    enters as soon as fewer are.  The wait group counts the workers that
    have not finished, apart from the channel: the wait of the main
    goroutine ends exactly when every worker has finished, and when the
    main goroutine has returned a worker has been started for every
    selected volume and every worker has finished. *)
Theorem C9_at_most_three_in_flight ctx (w : W) (s : Pool W) :
  reachable env ctx w s →
  (inFlight s ≤ 3)%nat
  ∧ semaphore s = inFlight s
  ∧ pvWaitGroup s = countb unfinished (workers s)
  ∧ (∀ i wk, workers s !! i = Some wk → w_pc wk = AtGate →
       (inFlight s = 3%nat → step_worker env i s = None)
       ∧ ((inFlight s < 3)%nat →
          ∃ s', step_worker env i s = Some s' ∧ inFlight s' = S (inFlight s)))
  ∧ (p_main s = Waiting →
     is_Some (step_main ctx s) ↔ Forall (λ wk, w_pc wk = Finished) (workers s))
  ∧ (p_main s = Returned →
     Forall (λ wk, w_pc wk = Finished) (workers s)
     ∧ assignment <$> workers s = started ctx (volumeInfo ctx)).
Proof.
  intros Hr.
  destruct (pool_inv_reachable ctx w s Hr)
    as (Hsem & Hmax & Hwg & Hret & (seen & Hseen & Hassign) & _).
  unfold maxConcurrency in Hmax.
  split; [lia|]. split; [done|]. split; [done|]. split; [|split].
  - intros i wk Hi Hpc. split.
    + intros Hfull. unfold step_worker. rewrite Hi, Hpc.
      rewrite bool_decide_eq_false_2; [done|]. unfold maxConcurrency. lia.
    + intros Hfree. unfold step_worker. rewrite Hi, Hpc.
      rewrite bool_decide_eq_true_2 by (unfold maxConcurrency; lia).
      eexists. split; [reflexivity|]. unfold inFlight. simpl.
      pose proof (countb_insert holdsSlot (workers s) i wk
                    (set_pc (InPoll (pollTicks env)) wk) Hi) as Hc.
      assert (Hold : holdsSlot wk = false) by (unfold holdsSlot; by rewrite Hpc).
      rewrite Hold in Hc. simpl in Hc. lia.
  - intros Hmain. unfold step_main. rewrite Hmain. rewrite Hwg. split.
    + intros [s' Hs']. case_bool_decide as Hzero; [|done].
      apply countb_zero in Hzero. eapply Forall_impl; [exact Hzero|].
      intros wk. unfold unfinished. by destruct (w_pc wk).
    + intros Hall. rewrite bool_decide_eq_true_2; [by eexists|].
      apply countb_zero. eapply Forall_impl; [exact Hall|].
      intros wk Hpc. unfold unfinished. by rewrite Hpc.
  - intros Hmain. split; [by apply Hret|].
    rewrite Hmain in Hseen. simpl in Hseen. rewrite app_nil_r in Hseen.
    by rewrite Hseen.
Qed.

End PoolFacts.

(** ** Concrete runs *)

Lemma C1_witness :
  ∃ u, EvPatchRestore restore1 u
       ∈ trace_of (Reconcile (scripted script1) "velero" "velero/r1" 0%nat)
       ∧ Phase u = RestorePhaseCompleted ∧ Warnings u = 2.
Proof.
  destruct (C1_counts_and_final_phase (scripted script1) "velero" "velero/r1" 0%nat
              restore1 {| location := "default" |} [volume1] inventory1 0%nat)
    as (_ & _ & _ & _ & Hpatch & Hex & _).
  { exists 0%nat, 0%nat, 0%nat, 0%nat. repeat split; reflexivity. }
  destruct Hex as [u Hu].
  { intros e. vm_compute. discriminate. }
  exists u. destruct (Hpatch _ _ Hu) as (_ & HW & _ & HP & _).
  split; [exact Hu|]. split.
  - rewrite HP. vm_compute. reflexivity.
  - rewrite HW. vm_compute. reflexivity.
Defined.

(** C1, the claim as stated fails: the restore is found in phase
    Finalizing and every load succeeds, the task returns one error, and
    the call patches no final phase and stamps no completion time, because
    the write of the results fails. *)
Lemma C1_counterexample :
  let env := scripted script_results_unwritable in
  let run := Reconcile env "velero" "velero/r1" 0%nat in
  let ctx := {| restore := restore1; volumeInfo := [volume1];
                restoredPVCList := getRestoredPVCFromRestoredResourceList inventory1 |} in
  (getRestore env "velero/r1" 0%nat = (inr restore1, 0%nat)
   ∧ Phase restore1 = RestorePhaseFinalizing
   ∧ fetchBackupInfoInternal env "velero" "b1" 0%nat
     = (inr {| location := "default" |}, 0%nat)
   ∧ getBackupStore env "default" 0%nat = (None, 0%nat)
   ∧ GetBackupVolumeInfos env "default" "b1" 0%nat = (inr [volume1], 0%nat)
   ∧ GetRestoredResourceList env "default" "r1" 0%nat = (inr inventory1, 0%nat))
  ∧ entries (result_of (execute env ctx 0%nat)).2 = 1%nat
  ∧ noneOf isPatchRestore (trace_of run)
  ∧ result_of run
    = Some (Wrapped (Wrapped serverError "error putting restore results")
                    "error updating results").
Proof. vm_compute. repeat split. Qed.

Lemma C4_witness :
  PollUntilContextTimeout 60 (pollCondition (scripted script1) volume1 pvInfo1 "ns1")
                          0%nat
  = (None, 3%nat,
     [EvGetPVC "ns1" "pvc-a"; EvGetPV "pv-a"; EvPatchPV pv1 (updatedPV pv1 pvInfo1)]).
Proof.
  destruct (C4_patch_iff_recorded_differs (scripted script1) volume1 pvInfo1 "ns1"
              0%nat 1%nat 2%nat pvc1 pv1
              {| ref_Namespace := "ns1"; ref_Name := "pvc-a" |}
              eq_refl eq_refl ltac:(discriminate) eq_refl eq_refl eq_refl
              eq_refl eq_refl)
    as (_ & _ & _ & Hok & _).
  destruct Hok as [_ Hpoll]; [right; reflexivity|].
  exact (Hpoll 60%nat).
Defined.

Lemma C5_witness :
  let run := patchWorker (scripted script_mismatch_later) volume1 pvInfo1 "ns1"
               Result_zero 0%nat in
  entries (result_of run) = 1%nat ∧ noneOf isPatchPV (trace_of run).
Proof.
  destruct (C5_unexpected_claim_is_permanent (scripted script_mismatch_later)
              volume1 pvInfo1 "ns1" 0%nat
              (UnexpectedPVC "ns1" "pvc-z" "ns1" "pvc-a") 1%nat "pv-a" Result_zero)
    as (_ & _ & _ & Hentries & _ & _ & _ & _ & Hnone).
  { change (pollTicks (scripted script_mismatch_later)) with (S 59).
    apply (mismatch_later _ _ _ _ 59 0%nat 1%nat [EvGetPVC "ns1" "pvc-a"]);
      [reflexivity|].
    apply (mismatch_now (scripted script_mismatch_later) volume1 pvInfo1 "ns1"
             59 1%nat 2%nat 3%nat pvc1 pv1_other
             {| ref_Namespace := "ns1"; ref_Name := "pvc-z" |});
      try reflexivity; try done.
    left. done. }
  split; [exact Hentries | exact Hnone].
Defined.

Lemma C6_witness :
  result_of (Reconcile (scripted script_backup_missing) "velero" "velero/r1" 0%nat)
  = None.
Proof.
  destruct (C6_backup_not_found (scripted script_backup_missing) "velero" "velero/r1"
              0%nat 0%nat 0%nat restore1 notFoundError
              eq_refl (or_introl eq_refl) eq_refl)
    as (Hnf & _).
  destruct (Hnf eq_refl) as (_ & _ & _ & _ & _ & Hok & _).
  exact (Hok eq_refl).
Defined.

(** C6, the claim as stated fails: the restore is in a finalizing phase,
    its backup is not found, and the call does not return success, because
    the patch of the final status fails. *)
Lemma C6_counterexample :
  let env := scripted script_backup_missing_patch_fails in
  getRestore env "velero/r1" 0%nat = (inr restore1, 0%nat)
  ∧ Phase restore1 = RestorePhaseFinalizing
  ∧ fetchBackupInfoInternal env "velero" (BackupName restore1) 0%nat
    = (inl notFoundError, 0%nat)
  ∧ IsNotFound notFoundError = true
  ∧ result_of (Reconcile env "velero" "velero/r1" 0%nat)
    = Some (Wrapped serverError "error updating restore's final status").
Proof. vm_compute. repeat split. Qed.

Lemma C7_witness :
  let run := Reconcile (scripted script_no_volumes) "velero" "velero/r1" 0%nat in
  noneOf isPutResults (trace_of run)
  ∧ ∃ u, EvPatchRestore restore1 u ∈ trace_of run ∧ Phase u = RestorePhaseCompleted.
Proof.
  destruct (C7_results_read_merge_write (scripted script_no_volumes) "velero"
              "velero/r1" 0%nat restore1 {| location := "default" |} [] inventory1
              0%nat)
    as (_ & _ & _ & _ & _ & _ & _ & Hzero).
  { exists 0%nat, 0%nat, 0%nat, 0%nat. repeat split; reflexivity. }
  { vm_compute. discriminate. }
  destruct Hzero as (Hnone & _ & u & Hu & _ & Hphase).
  { intros v Hv. by apply elem_of_nil in Hv. }
  split; [exact Hnone|]. exists u. split; [exact Hu|]. by apply Hphase.
Defined.

(** C7, the claim as stated fails, twice.  No volume is eligible, no
    result is written, and the final phase is PartiallyFailed, not
    Completed, because the restore entered in phase
    FinalizingPartiallyFailed.  And the pass produces one error, so that the
    number of warnings plus errors is not zero, and yet no write of results
    is performed, because the fetch of the stored results fails. *)
Lemma C7_counterexample :
  (let env := scripted script_entered_failed in
   let run := Reconcile env "velero" "velero/r1" 0%nat in
   getRestore env "velero/r1" 0%nat = (inr restoreFPF, 0%nat)
   ∧ GetBackupVolumeInfos env "default" "b1" 0%nat = (inr [], 0%nat)
   ∧ result_of run = None
   ∧ trace_of run
     = loads "velero" "velero/r1" restoreFPF {| location := "default" |}
       ++ [EvRegisterRestorePartialFailure "daily"; EvNow;
           EvPatchRestore restoreFPF
             (set_CompletionTimestamp (Some 1000)
                (set_Phase RestorePhasePartiallyFailed restoreFPF));
           EvCleanupClients]
   ∧ RestorePhasePartiallyFailed ≠ RestorePhaseCompleted)
  ∧ (let env := scripted script_results_unreadable in
     let run := Reconcile env "velero" "velero/r1" 0%nat in
     let ctx := {| restore := restore1; volumeInfo := [volume1];
                   restoredPVCList := getRestoredPVCFromRestoredResourceList inventory1 |} in
     let tasks := execute env ctx 0%nat in
     (entries (result_of tasks).1 + entries (result_of tasks).2)%nat = 1%nat
     ∧ trace_of run
       = loads "velero" "velero/r1" restore1 {| location := "default" |}
         ++ [EvGetPVC "ns1" "pvc-a"; EvGetRestoreResults "default" "r1";
             EvCleanupClients]
     ∧ noneOf isPutResults (trace_of run)
     ∧ result_of run
       = Some (Wrapped (Wrapped serverError "error getting restore results")
                       "error updating results")).
Proof.
  split.
  - vm_compute. repeat split. discriminate.
  - vm_compute. repeat split.
Qed.

Lemma C8_witness :
  let run := Reconcile (scripted script_completed) "velero" "velero/r1" 0%nat in
  result_of run = None ∧ trace_of run = [EvGetRestore "velero/r1"].
Proof.
  destruct (C8_not_awaiting_finalization_is_noop (scripted script_completed)
              "velero" "velero/r1" 0%nat) as (Hres & Htrace & _).
  { right. exists restoreCompleted. repeat split; done. }
  split; [exact Hres | exact Htrace].
Defined.

Lemma C9_witness :
  let s := run_pool (scripted script1) ctx_five schedule_five (initPool ctx_five 0%nat) in
  length (workers s) = 5%nat
  ∧ (inFlight s ≤ 3)%nat
  ∧ step_worker (scripted script1) 3 s = None.
Proof.
  intros s.
  destruct (C9_at_most_three_in_flight (scripted script1) ctx_five 0%nat s)
    as (Hmax & _ & _ & Hgate & _).
  { apply run_pool_reachable. }
  split; [vm_compute; reflexivity|]. split; [exact Hmax|].
  destruct (Hgate 3%nat (mkWorker volume1 pvInfo1 "ns1" AtGate)) as [Hfull _].
  - vm_compute. reflexivity.
  - reflexivity.
  - apply Hfull. vm_compute. reflexivity.
Defined.

(** * Part III: further properties of the controller *)

(** ** The patch and the patch decision *)

(** X1: the volume that the worker submits as the update needs no patch
    any more, and building the update twice changes nothing.  The update
    carries exactly the recorded labels: a label that only the fetched
    volume carries is dropped by the patch, although such a label alone
    never causes one. *)
Theorem X1_update_needs_no_patch pv pvInfo :
  needPatch (updatedPV pv pvInfo) pvInfo = false
  ∧ updatedPV (updatedPV pv pvInfo) pvInfo = updatedPV pv pvInfo
  ∧ (∀ k v, pv_Labels pv !! k = Some v → Labels pvInfo !! k = None →
            pv_Labels (updatedPV pv pvInfo) !! k = None)
  ∧ (needPatch pv pvInfo = false →
     pv_ReclaimPolicy (updatedPV pv pvInfo) = pv_ReclaimPolicy pv
     ∧ pv_Labels (updatedPV pv pvInfo) ⊆ pv_Labels pv).
Proof.
  split; [|split; [done|split]].
  - apply needPatch_false. done.
  - intros k v _ Hk. done.
  - intros [Hpol Hsub]%needPatch_false. done.
Qed.

(** ** The inventory of restored resources, its edges *)

Lemma created_fold_closed (l : list string) (acc : gset string) :
  foldl (λ (pvcList : gset string) pvc,
           if lastIsCreated pvc then {[ createdKey pvc ]} ∪ pvcList else pvcList)
        acc l
  = list_to_set (createdKey <$> filter (λ pvc, lastIsCreated pvc = true) l) ∪ acc.
Proof.
  apply set_eq. intros key.
  rewrite elem_of_created_fold, elem_of_union, elem_of_list_to_set, list_elem_of_fmap.
  split.
  - intros [H | (pvc & Hin & Hc & ->)]; [by right|].
    left. exists pvc. split; [done|]. by apply list_elem_of_filter.
  - intros [(pvc & -> & [Hc Hin]%list_elem_of_filter) | H]; [|by left].
    right. by exists pvc.
Qed.

Lemma occurs_rev_app c g acc :
  occurs c (String.rev_app g acc) = occurs c g || occurs c acc.
Proof.
  revert acc. induction g as [|a g IH]; intros acc; simpl; [done|].
  rewrite IH. simpl. destruct (bool_decide (a = c)), (occurs c g), (occurs c acc); done.
Qed.

Lemma occurs_rev c g : occurs c (String.rev g) = occurs c g.
Proof. unfold String.rev. rewrite occurs_rev_app. simpl. by rewrite orb_false_r. Qed.

(** The groups are pieces of the string that do not overlap: each takes
    its bytes and its two parentheses. *)
Lemma submatches_total cur s :
  (sum_list ((λ g, String.length g + 2) <$> submatches cur s)
   ≤ String.length s + match cur with Some acc => S (String.length acc) | None => 0 end)%nat.
Proof.
  revert cur. induction s as [|c s IH]; intros cur; simpl; [lia|].
  destruct cur as [acc|].
  - destruct (is_rparen c).
    + destruct acc as [|a acc].
      * specialize (IH None). simpl in *. lia.
      * specialize (IH None). rewrite fmap_cons. cbn [sum_list].
        rewrite length_String_rev. simpl in *. lia.
    + specialize (IH (Some (String c acc))). simpl in *. lia.
  - destruct (is_lparen c).
    + specialize (IH (Some EmptyString)). simpl in *. lia.
    + specialize (IH None). simpl in *. lia.
Qed.

Lemma submatches_groups cur s g :
  match cur with Some acc => occurs ")" acc = false | None => True end →
  g ∈ submatches cur s → g ≠ "" ∧ occurs ")" g = false.
Proof.
  revert cur. induction s as [|c s IH]; intros cur Hcur; simpl.
  - intros H. by apply elem_of_nil in H.
  - destruct cur as [acc|].
    + destruct (is_rparen c) eqn:Hc.
      * destruct acc as [|a acc].
        -- by apply (IH None).
        -- intros [-> | H]%elem_of_cons; [|by apply (IH None)]. split.
           ++ intros Hr. apply (f_equal String.length) in Hr.
              rewrite length_String_rev in Hr. done.
           ++ by rewrite occurs_rev.
      * apply (IH (Some (String c acc))). simpl.
        unfold is_rparen in Hc. by rewrite Hc.
    + destruct (is_lparen c); [by apply (IH (Some EmptyString)) | by apply (IH None)].
Qed.

(** X2: what the pattern of the inventory parser captures, for every
    string: each captured group is non-empty and holds no closing
    parenthesis; the groups with their parentheses fit into the string
    side by side, so a string of [n] bytes has at most [n / 3] groups; and a
    string without a closing parenthesis, or without an opening one, has
    none. *)
Theorem X2_captured_groups s :
  (∀ g, g ∈ FindAllStringSubmatch s → g ≠ "" ∧ occurs ")" g = false)
  ∧ (sum_list ((λ g, String.length g + 2) <$> FindAllStringSubmatch s)
     ≤ String.length s)%nat
  ∧ (3 * length (FindAllStringSubmatch s) ≤ String.length s)%nat
  ∧ (occurs ")" s = false → FindAllStringSubmatch s = [])
  ∧ (occurs "(" s = false → FindAllStringSubmatch s = []).
Proof.
  assert (Hgroups : ∀ g, g ∈ FindAllStringSubmatch s → g ≠ "" ∧ occurs ")" g = false).
  { intros g. by apply (submatches_groups None). }
  pose proof (submatches_total None s) as Htotal. fold (FindAllStringSubmatch s) in Htotal.
  cbv iota in Htotal. rewrite Nat.add_0_r in Htotal.
  split; [done|]. split; [done|]. split; [|split].
  - revert Hgroups Htotal. generalize (FindAllStringSubmatch s). intros l Hl Htotal.
    assert (3 * length l ≤ sum_list ((λ g, String.length g + 2) <$> l))%nat; [|lia].
    clear Htotal. induction l as [|g l IH]; [simpl; lia|].
    destruct (Hl g) as [Hne _]; [left|].
    assert (0 < String.length g)%nat by (destruct g; [done | simpl; lia]).
    assert (3 * length l ≤ sum_list ((λ g, String.length g + 2) <$> l))%nat.
    { apply IH. intros g' Hg'. apply Hl. by right. }
    rewrite fmap_cons.
    change (3 * S (length l)
            ≤ (String.length g + 2)
              + sum_list ((λ g, String.length g + 2) <$> l))%nat.
    lia.
  - apply submatches_no_rparen.
  - intros Hs. rewrite <- (append_empty_r s).
    unfold FindAllStringSubmatch. by rewrite submatches_skip.
Qed.

Lemma size_list_to_set_length (l : list string) :
  (size (list_to_set l : gset string) ≤ length l)%nat.
Proof.
  induction l as [|x l IH].
  - change (list_to_set [] : gset string) with (∅ : gset string).
    by rewrite size_empty.
  - change (list_to_set (x :: l) : gset string)
      with ({[x]} ∪ list_to_set l : gset string).
    cbn [length]. rewrite size_union_alt, size_singleton.
    assert (size (list_to_set l ∖ {[x]} : gset string)
            ≤ size (list_to_set l : gset string))%nat.
    { apply subseteq_size. set_solver. }
    lia.
Qed.

(** X3: the set of created claims at its edges.  Without the key
    [v1/PersistentVolumeClaim] the set is empty, and what the inventory
    holds under other keys is never looked at.  The set is made of the
    entries that are classified as created, each without its last nine
    bytes; order and repetition of the entries do not matter, so it has at
    most as many members as there are such entries.  The slice that cuts
    the nine bytes off is always within the bounds of the entry. *)
Theorem X3_created_set_edges (restoredResourceList : gmap string (list string)) :
  (restoredResourceList !! pvcKey = None →
   getRestoredPVCFromRestoredResourceList restoredResourceList = ∅)
  ∧ (∀ other entries, other ≠ pvcKey →
       getRestoredPVCFromRestoredResourceList (<[other := entries]> restoredResourceList)
       = getRestoredPVCFromRestoredResourceList restoredResourceList)
  ∧ (∀ l, getRestoredPVCFromRestoredResourceList (<[pvcKey := l]> restoredResourceList)
          = list_to_set (createdKey <$> filter (λ pvc, lastIsCreated pvc = true) l))
  ∧ (∀ l1 l2,
       getRestoredPVCFromRestoredResourceList (<[pvcKey := l1 ++ l2]> restoredResourceList)
       = getRestoredPVCFromRestoredResourceList (<[pvcKey := l1]> restoredResourceList)
         ∪ getRestoredPVCFromRestoredResourceList (<[pvcKey := l2]> restoredResourceList))
  ∧ (∀ l l', l ≡ₚ l' →
       getRestoredPVCFromRestoredResourceList (<[pvcKey := l]> restoredResourceList)
       = getRestoredPVCFromRestoredResourceList (<[pvcKey := l']> restoredResourceList))
  ∧ (size (getRestoredPVCFromRestoredResourceList restoredResourceList)
     ≤ length (filter (λ pvc, lastIsCreated pvc = true)
                      (default [] (restoredResourceList !! pvcKey))))%nat
  ∧ (∀ pvc, pvc ∈ default [] (restoredResourceList !! pvcKey) →
            lastIsCreated pvc = true →
            (String.length "(created)" ≤ String.length pvc)%nat).
Proof.
  assert (Hclosed : ∀ m : gmap string (list string),
            getRestoredPVCFromRestoredResourceList m
            = list_to_set (createdKey <$> filter (λ pvc, lastIsCreated pvc = true)
                                                 (default [] (m !! pvcKey)))).
  { intros m. unfold getRestoredPVCFromRestoredResourceList.
    rewrite created_fold_closed. by rewrite (right_id_L ∅ (∪)). }
  split; [|split; [|split; [|split; [|split; [|split]]]]].
  - intros Hnone. by rewrite Hclosed, Hnone.
  - intros other entries Hne. rewrite !Hclosed. by rewrite lookup_insert_ne.
  - intros l. by rewrite Hclosed, lookup_insert_eq.
  - intros l1 l2. rewrite !Hclosed, !lookup_insert_eq. simpl.
    by rewrite filter_app, fmap_app, list_to_set_app_L.
  - intros l l' Hperm. rewrite !Hclosed, !lookup_insert_eq. simpl.
    apply set_eq. intros key. by rewrite !elem_of_list_to_set, Hperm.
  - rewrite Hclosed.
    etrans; [apply size_list_to_set_length|]. by rewrite length_fmap.
  - intros pvc _ Hc. by apply lastIsCreated_length.
Qed.

(** ** The reconciler, its error paths and the shape of a call *)

Section ReconcilePaths.

Context {W : Type} (env : Env W).

(** X4: when the read of the restore fails with an error other than not
    found, the call returns that error, wrapped with the request, and has
    called no other collaborator. *)
Theorem X4_restore_read_error namespace req (w : W) err :
  (getRestore env req w).1 = inl err → IsNotFound err = false →
  Reconcile env namespace req w
  = (Some (Wrapped err ("error getting restore " +:+ req)),
     (getRestore env req w).2, [EvGetRestore req]).
Proof.
  intros Hget Hnf. unfold Reconcile, bind, call.
  destruct (getRestore env req w) as [got w1]. simpl in *. subst got.
  by rewrite Hnf.
Qed.

Lemma Reconcile_store_error namespace req (w w1 w2 w3 : W) original info e :
  getRestore env req w = (inr original, w1) →
  isFinalizing (Phase original) = true →
  fetchBackupInfoInternal env namespace (BackupName original) w1 = (inr info, w2) →
  getBackupStore env (location info) w2 = (Some e, w3) →
  Reconcile env namespace req w
  = (Some (Wrapped e "error getting backup store"), CleanupClients env w3,
     [EvGetRestore req; EvFetchBackupInfo namespace (BackupName original);
      EvGetBackupStore (location info); EvCleanupClients]).
Proof.
  intros Hget Hphase Hfetch Hstore.
  unfold Reconcile, deferCleanup, bind, call, act.
  rewrite Hget, Hphase. simpl. by rewrite Hfetch, Hstore.
Qed.

Lemma Reconcile_volumes_error namespace req (w w1 w2 w3 w4 : W) original info e :
  getRestore env req w = (inr original, w1) →
  isFinalizing (Phase original) = true →
  fetchBackupInfoInternal env namespace (BackupName original) w1 = (inr info, w2) →
  getBackupStore env (location info) w2 = (None, w3) →
  GetBackupVolumeInfos env (location info) (BackupName original) w3 = (inl e, w4) →
  Reconcile env namespace req w
  = (Some (Wrapped e "error getting volumeInfo"), CleanupClients env w4,
     [EvGetRestore req; EvFetchBackupInfo namespace (BackupName original);
      EvGetBackupStore (location info);
      EvGetBackupVolumeInfos (location info) (BackupName original);
      EvCleanupClients]).
Proof.
  intros Hget Hphase Hfetch Hstore Hvols.
  unfold Reconcile, deferCleanup, bind, call, act.
  rewrite Hget, Hphase. simpl. by rewrite Hfetch, Hstore, Hvols.
Qed.

Lemma Reconcile_inventory_error
    namespace req (w w1 w2 w3 w4 w5 : W) original info vols e :
  getRestore env req w = (inr original, w1) →
  isFinalizing (Phase original) = true →
  fetchBackupInfoInternal env namespace (BackupName original) w1 = (inr info, w2) →
  getBackupStore env (location info) w2 = (None, w3) →
  GetBackupVolumeInfos env (location info) (BackupName original) w3 = (inr vols, w4) →
  GetRestoredResourceList env (location info) (Name original) w4 = (inl e, w5) →
  Reconcile env namespace req w
  = (Some (Wrapped e "error getting restoredResourceList"), CleanupClients env w5,
     loads namespace req original info ++ [EvCleanupClients]).
Proof.
  intros Hget Hphase Hfetch Hstore Hvols Hinv.
  unfold Reconcile, deferCleanup, bind, call, act.
  rewrite Hget, Hphase. simpl. by rewrite Hfetch, Hstore, Hvols, Hinv.
Qed.

(** X5: once the backup has been found, an error of the store accessor,
    of the load of the volume infos or of the load of the inventory is
    returned wrapped; the calls stop at the failing load, so that no claim
    or volume is fetched, no result written and the restore not patched;
    and the deferred clean-up of the plugin clients still runs, last. *)
Theorem X5_load_error_stops_the_call namespace req (w w1 w2 : W) original info :
  getRestore env req w = (inr original, w1) →
  isFinalizing (Phase original) = true →
  fetchBackupInfoInternal env namespace (BackupName original) w1 = (inr info, w2) →
  let run := Reconcile env namespace req w in
  let store := getBackupStore env (location info) w2 in
  let volumes := GetBackupVolumeInfos env (location info) (BackupName original) store.2 in
  let inventory := GetRestoredResourceList env (location info) (Name original) volumes.2 in
  (∀ e, store.1 = Some e →
     run = (Some (Wrapped e "error getting backup store"),
            CleanupClients env store.2,
            [EvGetRestore req; EvFetchBackupInfo namespace (BackupName original);
             EvGetBackupStore (location info); EvCleanupClients]))
  ∧ (∀ e, store.1 = None → volumes.1 = inl e →
     run = (Some (Wrapped e "error getting volumeInfo"),
            CleanupClients env volumes.2,
            [EvGetRestore req; EvFetchBackupInfo namespace (BackupName original);
             EvGetBackupStore (location info);
             EvGetBackupVolumeInfos (location info) (BackupName original);
             EvCleanupClients]))
  ∧ (∀ e vols, store.1 = None → volumes.1 = inr vols → inventory.1 = inl e →
     run = (Some (Wrapped e "error getting restoredResourceList"),
            CleanupClients env inventory.2,
            loads namespace req original info ++ [EvCleanupClients])).
Proof.
  intros Hget Hphase Hfetch run store volumes inventory.
  subst run store volumes inventory.
  destruct (getBackupStore env (location info) w2) as [so w3] eqn:Hstore.
  cbn [fst snd].
  destruct (GetBackupVolumeInfos env (location info) (BackupName original) w3)
    as [vo w4] eqn:Hvols.
  cbn [fst snd].
  destruct (GetRestoredResourceList env (location info) (Name original) w4)
    as [io w5] eqn:Hinv.
  cbn [fst snd].
  split; [|split].
  - intros e ->. by eapply Reconcile_store_error.
  - intros e -> ->. by eapply Reconcile_volumes_error.
  - intros e vols -> -> ->. by eapply Reconcile_inventory_error.
Qed.

Lemma closingCalls_finished restorePhase t restore original :
  ScheduleName restore = ScheduleName original →
  [if bool_decide (restorePhase = RestorePhasePartiallyFailed)
   then EvRegisterRestorePartialFailure (ScheduleName restore)
   else EvRegisterRestoreSuccess (ScheduleName restore);
   EvNow; EvPatchRestore original (finished restorePhase t restore)]
  = closingCalls original (finished restorePhase t restore).
Proof.
  intros Hs. unfold closingCalls, finished. simpl. rewrite Hs.
  by destruct (bool_decide (restorePhase = RestorePhasePartiallyFailed)).
Qed.

Lemma finished_terminal restorePhase t restore :
  (Phase (finished restorePhase t restore) = RestorePhaseCompleted
   ∨ Phase (finished restorePhase t restore) = RestorePhasePartiallyFailed)
  ∧ is_Some (CompletionTimestamp (finished restorePhase t restore)).
Proof.
  unfold finished. simpl. split; [|by eexists].
  destruct (bool_decide (restorePhase = RestorePhasePartiallyFailed)); [by right | by left].
Qed.

(** X6: the shape of every call, whatever the collaborators answer.  The
    call first loads and remediates; then it fetches the stored results at
    most once and writes results at most once, after that fetch; then it
    closes at most once, with the metric, the clock and the patch of the
    restore in this order; and the clean-up of the plugin clients, when the
    backup location had been fetched, is the last call.  The patch is
    against the restore as read at the start, it always sets a completion
    time and a terminal phase, Completed or PartiallyFailed, and the metric
    registered before it is the one of that phase.  A call that returns
    success has either done nothing beyond reading the restore or has
    issued the patch. *)
Theorem X6_shape_of_a_call namespace req (w : W) :
  let run := Reconcile env namespace req w in
  ∃ before results closing cleanup,
    trace_of run = before ++ results ++ closing ++ cleanup
    ∧ Forall (λ ev, isLoading ev || isRemediation ev = true) before
    ∧ (results = []
       ∨ (∃ l r, results = [EvGetRestoreResults l r])
       ∨ (∃ l r r' m, results = [EvGetRestoreResults l r; EvPutResults l r' m]))
    ∧ (closing = []
       ∨ ∃ original updated,
           closing = closingCalls original updated
           ∧ (getRestore env req w).1 = inr original
           ∧ (Phase updated = RestorePhaseCompleted
              ∨ Phase updated = RestorePhasePartiallyFailed)
           ∧ is_Some (CompletionTimestamp updated))
    ∧ (cleanup = [] ∨ cleanup = [EvCleanupClients])
    ∧ (cleanup = [EvCleanupClients]
       ↔ ∃ original info,
           (getRestore env req w).1 = inr original
           ∧ isFinalizing (Phase original) = true
           ∧ (fetchBackupInfoInternal env namespace (BackupName original)
                (getRestore env req w).2).1 = inr info)
    ∧ (result_of run = None → trace_of run = [EvGetRestore req] ∨ closing ≠ []).
Proof.
  intros run. subst run.
  destruct (getRestore env req w) as [[err|original] w1] eqn:Hget; cbn [fst snd].
  { (* the restore is not read *)
    exists [EvGetRestore req], [], [], [].
    assert (Ht : trace_of (Reconcile env namespace req w) = [EvGetRestore req]).
    { unfold Reconcile, bind, call. rewrite Hget. by destruct (IsNotFound err). }
    rewrite Ht. split; [done|]. split; [repeat constructor|].
    split; [by left|]. split; [by left|]. split; [by left|].
    split; [|by left]. split; [done|]. by intros (? & ? & [=] & _). }
  destruct (isFinalizing (Phase original)) eqn:Hphase; cycle 1.
  { (* the restore is not finalizing *)
    exists [EvGetRestore req], [], [], [].
    assert (Ht : trace_of (Reconcile env namespace req w) = [EvGetRestore req]).
    { unfold Reconcile, bind, call. by rewrite Hget, Hphase. }
    rewrite Ht. split; [done|]. split; [repeat constructor|].
    split; [by left|]. split; [by left|]. split; [by left|].
    split; [|by left]. split; [done|].
    intros (o & i & [= <-] & Hf & _). congruence. }
  destruct (fetchBackupInfoInternal env namespace (BackupName original) w1)
    as [[err|info] w2] eqn:Hfetch.
  { (* the backup is not fetched *)
    rewrite (Reconcile_backup_error env namespace req w w1 w2 original err) by done.
    destruct (IsNotFound err).
    - rewrite finishProcessing_run. cbv zeta.
      rewrite closingCalls_finished by done.
      unfold result_of, world_of, trace_of. cbn [fst snd].
      eexists [EvGetRestore req; EvFetchBackupInfo namespace (BackupName original)],
              [], _, [].
      split; [by rewrite app_nil_r|]. split; [repeat constructor|].
      split; [by left|]. split.
      { right. eexists original, _. split; [reflexivity|]. split; [done|].
        apply finished_terminal. }
      split; [by left|]. split.
      + split; [done|]. intros (o & i & [= <-] & _ & Hi). by rewrite Hfetch in Hi.
      + intros _. by right.
    - exists [EvGetRestore req; EvFetchBackupInfo namespace (BackupName original)],
             [], [], [].
      unfold result_of, trace_of. cbn [fst snd].
      split; [done|]. split; [repeat constructor|].
      split; [by left|]. split; [by left|]. split; [by left|]. split; [|done].
      split; [done|]. intros (o & i & [= <-] & _ & Hi). by rewrite Hfetch in Hi. }
  assert (Hclean : [EvCleanupClients] = [EvCleanupClients]
                   ↔ ∃ original0 info0,
                       @inr error Restore original = inr original0
                       ∧ isFinalizing (Phase original0) = true
                       ∧ (fetchBackupInfoInternal env namespace
                            (BackupName original0) w1).1 = @inr error _ info0).
  { split; [|done]. intros _. exists original, info. by rewrite Hfetch. }
  destruct (getBackupStore env (location info) w2) as [[err|] w3] eqn:Hstore.
  { rewrite (Reconcile_store_error namespace req w w1 w2 w3 original info err) by done.
    exists [EvGetRestore req; EvFetchBackupInfo namespace (BackupName original);
            EvGetBackupStore (location info)], [], [], [EvCleanupClients].
    unfold result_of, trace_of. cbn [fst snd].
    split; [done|]. split; [repeat constructor|].
    split; [by left|]. split; [by left|]. split; [by right|]. split; [exact Hclean | done]. }
  destruct (GetBackupVolumeInfos env (location info) (BackupName original) w3)
    as [[err|volumes] w4] eqn:Hvols.
  { rewrite (Reconcile_volumes_error namespace req w w1 w2 w3 w4 original info err)
      by done.
    exists [EvGetRestore req; EvFetchBackupInfo namespace (BackupName original);
            EvGetBackupStore (location info);
            EvGetBackupVolumeInfos (location info) (BackupName original)],
           [], [], [EvCleanupClients].
    unfold result_of, trace_of. cbn [fst snd].
    split; [done|]. split; [repeat constructor|].
    split; [by left|]. split; [by left|]. split; [by right|]. split; [exact Hclean | done]. }
  destruct (GetRestoredResourceList env (location info) (Name original) w4)
    as [[err|inventory] w5] eqn:Hinv.
  { rewrite (Reconcile_inventory_error namespace req w w1 w2 w3 w4 w5 original info
               volumes err) by done.
    exists (loads namespace req original info), [], [], [EvCleanupClients].
    unfold result_of, trace_of. cbn [fst snd].
    split; [done|]. split; [repeat constructor|].
    split; [by left|]. split; [by left|]. split; [by right|]. split; [exact Hclean | done]. }
  (* everything is loaded *)
  assert (Hloaded : Loaded env namespace req w original info volumes inventory w5).
  { exists w1, w2, w3, w4. done. }
  rewrite (Reconcile_loaded env namespace req w original info volumes inventory w5 Hloaded).
  cbv zeta.
  set (ctx := {| restore := original; volumeInfo := volumes;
                 restoredPVCList := getRestoredPVCFromRestoredResourceList inventory |}).
  set (tasks := execute env ctx w5).
  set (restore := tallied original (result_of tasks).1 (result_of tasks).2).
  assert (Hbefore : Forall (λ ev, isLoading ev || isRemediation ev = true)
                           (loads namespace req original info ++ trace_of tasks)).
  { apply Forall_app. split; [repeat constructor|].
    eapply Forall_impl; [apply execute_remediation|].
    intros ev Hev. simpl in Hev. by rewrite Hev, orb_true_r. }
  assert (Hsched : ScheduleName restore = ScheduleName original).
  { unfold restore.
    by destruct (tallied_fields original (result_of tasks).1 (result_of tasks).2)
      as (_ & _ & -> & _). }
  assert (Hclosing : ∀ w7,
            trace_of (finishProcessing env (finalPhaseOf restore) restore original w7)
            = closingCalls original
                (result_of (finishProcessing env (finalPhaseOf restore) restore
                              original w7)).1
            ∧ (Phase (result_of (finishProcessing env (finalPhaseOf restore) restore
                                   original w7)).1 = RestorePhaseCompleted
               ∨ Phase (result_of (finishProcessing env (finalPhaseOf restore) restore
                                     original w7)).1 = RestorePhasePartiallyFailed)
            ∧ is_Some (CompletionTimestamp
                         (result_of (finishProcessing env (finalPhaseOf restore)
                                       restore original w7)).1)).
  { intros w7. rewrite finishProcessing_run. cbv zeta.
    unfold result_of, trace_of. cbn [fst snd].
    rewrite closingCalls_finished by done. split; [done|]. apply finished_terminal. }
  destruct (bool_decide (countEntries (result_of tasks).1 > 0)
            || bool_decide (countEntries (result_of tasks).2 > 0)).
  - rewrite updateResults_run.
    destruct (GetRestoreResults env (location info) (Name restore) (world_of tasks))
      as [[e|origin] w6].
    + (* the stored results are not fetched *)
      unfold result_of at 1. cbn [fst snd].
      exists (loads namespace req original info ++ trace_of tasks),
             [EvGetRestoreResults (location info) (Name restore)], [],
             [EvCleanupClients].
      unfold result_of, trace_of. cbn [fst snd].
      split; [by rewrite <- !app_assoc|]. split; [done|].
      split; [right; left; eauto|]. split; [by left|]. split; [by right|]. split; [exact Hclean | done].
    + cbv zeta.
      destruct (putResults env (location info) restore _ w6) as [[e|] w7] eqn:Hput;
        unfold result_of at 1; cbn [fst snd].
      * exists (loads namespace req original info ++ trace_of tasks),
               [EvGetRestoreResults (location info) (Name restore);
                EvPutResults (location info) restore
                  (<["warnings":=Merge (default Result_zero (origin !! "warnings"))
                                       (result_of tasks).1]>
                     (<["errors":=Merge (default Result_zero (origin !! "errors"))
                                        (result_of tasks).2]> ∅))], [],
               [EvCleanupClients].
        unfold result_of, trace_of. cbn [fst snd].
        split; [by rewrite <- !app_assoc|]. split; [done|].
        split; [right; right; eauto|]. split; [by left|]. split; [by right|]. split; [exact Hclean | done].
      * destruct (Hclosing w7) as (Ht & Hterm & Htime).
        exists (loads namespace req original info ++ trace_of tasks),
               [EvGetRestoreResults (location info) (Name restore);
                EvPutResults (location info) restore
                  (<["warnings":=Merge (default Result_zero (origin !! "warnings"))
                                       (result_of tasks).1]>
                     (<["errors":=Merge (default Result_zero (origin !! "errors"))
                                        (result_of tasks).2]> ∅))],
               (trace_of (finishProcessing env (finalPhaseOf restore) restore
                            original w7)),
               [EvCleanupClients].
        unfold world_of at 1 2. unfold trace_of at 1 3. cbn [fst snd].
        split; [by rewrite <- !app_assoc|]. split; [done|].
        split; [right; right; eauto|]. split.
        { right. eexists original, _. split; [exact Ht|]. done. }
        split; [by right|]. split; [exact Hclean|].
        intros _. right. rewrite Ht. done.
  - unfold ret. unfold result_of at 1. cbn [fst snd].
    unfold world_of at 1 2. cbn [fst snd]. fold (world_of tasks).
    destruct (Hclosing (world_of tasks)) as (Ht & Hterm & Htime).
    exists (loads namespace req original info ++ trace_of tasks), [],
           (trace_of (finishProcessing env (finalPhaseOf restore) restore
                        original (world_of tasks))),
           [EvCleanupClients].
    unfold trace_of at 1 3. cbn [fst snd].
    split; [by rewrite <- !app_assoc|]. split; [done|].
    split; [by left|]. split.
    { right. eexists original, _. split; [exact Ht|]. done. }
    split; [by right|]. split; [exact Hclean|].
    intros _. right. rewrite Ht. done.
Qed.

End ReconcilePaths.

(** ** The poll of a worker, its errors and its deadline *)

Section PollFacts.

Context {W : Type} (env : Env W).

(** The calls of one attempt: the claim; or the claim and its volume; or
    both and the patch, and then the attempt does not ask for another one. *)
Lemma attempt_calls volInfo pvInfo ns (w : W) :
  let attempt := pollCondition env volInfo pvInfo ns w in
  trace_of attempt = [EvGetPVC ns (PVCName volInfo)]
  ∨ (∃ pvName, trace_of attempt = [EvGetPVC ns (PVCName volInfo); EvGetPV pvName])
  ∨ (∃ pvName pv,
       trace_of attempt
       = [EvGetPVC ns (PVCName volInfo); EvGetPV pvName;
          EvPatchPV pv (updatedPV pv pvInfo)]
       ∧ result_of attempt ≠ (false, None)).
Proof.
  unfold pollCondition, bind, call, result_of, trace_of.
  destruct (getPVC env ns (PVCName volInfo) w) as [[e|pvc] w1].
  { destruct (IsNotFound e); simpl; by left. }
  destruct (negb (bool_decide (pvc_Phase pvc = ClaimBound))
            || bool_decide (pvc_VolumeName pvc = "")).
  { simpl. by left. }
  simpl. destruct (getPV env (pvc_VolumeName pvc) w1) as [[e|pv] w2].
  { destruct (IsNotFound e); simpl; right; left; eauto. }
  destruct (pv_ClaimRef pv) as [claimRef|]; [|simpl; right; left; eauto].
  destruct (negb (bool_decide (pv_Phase pv = VolumeBound)));
    [simpl; right; left; eauto|].
  destruct (negb (bool_decide (ref_Name claimRef = pvc_Name pvc))
            || negb (bool_decide (ref_Namespace claimRef = ns)));
    [simpl; right; left; eauto|].
  destruct (needPatch pv pvInfo); [|simpl; right; left; eauto].
  simpl. right. right. exists (pvc_VolumeName pvc), pv.
  destruct (patchPV env pv (updatedPV pv pvInfo) w2) as [[e|] w3]; simpl; done.
Qed.

(** An attempt on a claim that is not ready: one call, and another
    attempt is asked for. *)
Lemma attempt_not_ready volInfo pvInfo ns (w : W) :
  match (getPVC env ns (PVCName volInfo) w).1 with
  | inl e => IsNotFound e = true
  | inr pvc => pvc_Phase pvc ≠ ClaimBound ∨ pvc_VolumeName pvc = ""
  end →
  pollCondition env volInfo pvInfo ns w
  = ((false, None), (getPVC env ns (PVCName volInfo) w).2,
     [EvGetPVC ns (PVCName volInfo)]).
Proof.
  unfold pollCondition, bind, call.
  destruct (getPVC env ns (PVCName volInfo) w) as [[e|pvc] w1]; simpl.
  - by intros ->.
  - intros [Hp | Hn].
    + by rewrite (bool_decide_eq_false_2 _ Hp).
    + rewrite (bool_decide_eq_true_2 _ Hn). by rewrite orb_true_r.
Qed.

Lemma poll_never_bound volInfo pvInfo ns ticks (w : W) :
  neverBound env ns (PVCName volInfo) →
  PollUntilContextTimeout ticks (pollCondition env volInfo pvInfo ns) w
  = (Some DeadlineExceeded,
     afterFetches env ns (PVCName volInfo) (S ticks) w,
     replicate (S ticks) (EvGetPVC ns (PVCName volInfo))).
Proof.
  intros Hnever. revert w. induction ticks as [|n IH]; intros w.
  - rewrite (poll_deadline _ _ _ _ (attempt_not_ready volInfo pvInfo ns w (Hnever w))).
    done.
  - rewrite (poll_retries _ _ _ _ _ (attempt_not_ready volInfo pvInfo ns w (Hnever w))).
    rewrite IH. done.
Qed.

(** X7: an error of the cluster API other than not found is not retried.
    When the fetch of the claim, or the fetch of the volume of a bound
    claim, fails with such an error, the poll ends at once with that
    error, whatever time is left, and the worker records one entry that
    names the claim and the volume of the backup; no patch is issued, and
    after a failed fetch of the claim the volume is not even fetched. *)
Theorem X7_api_error_is_not_retried volInfo pvInfo ns (w : W) e errs :
  IsNotFound e = false →
  let claim := getPVC env ns (PVCName volInfo) w in
  let msg := Error (FailToPatch e (PVCName volInfo) (PVName volInfo)) in
  (claim.1 = inl e →
   (∀ ticks,
      PollUntilContextTimeout ticks (pollCondition env volInfo pvInfo ns) w
      = (Some e, claim.2, [EvGetPVC ns (PVCName volInfo)]))
   ∧ patchWorker env volInfo pvInfo ns errs w
     = (Add ns msg errs, claim.2, [EvGetPVC ns (PVCName volInfo)]))
  ∧ (∀ pvc, claim.1 = inr pvc → pvc_Phase pvc = ClaimBound → pvc_VolumeName pvc ≠ "" →
     let volume := getPV env (pvc_VolumeName pvc) claim.2 in
     volume.1 = inl e →
     (∀ ticks,
        PollUntilContextTimeout ticks (pollCondition env volInfo pvInfo ns) w
        = (Some e, volume.2,
           [EvGetPVC ns (PVCName volInfo); EvGetPV (pvc_VolumeName pvc)]))
     ∧ patchWorker env volInfo pvInfo ns errs w
       = (Add ns msg errs, volume.2,
          [EvGetPVC ns (PVCName volInfo); EvGetPV (pvc_VolumeName pvc)])).
Proof.
  intros Hnf claim msg. subst claim. split.
  - intros Hclaim.
    assert (Hc : pollCondition env volInfo pvInfo ns w
                 = ((false, Some e), (getPVC env ns (PVCName volInfo) w).2,
                    [EvGetPVC ns (PVCName volInfo)])).
    { unfold pollCondition, bind, call.
      destruct (getPVC env ns (PVCName volInfo) w) as [got w1]. simpl in *.
      subst got. by rewrite Hnf. }
    assert (Hp : ∀ ticks,
              PollUntilContextTimeout ticks (pollCondition env volInfo pvInfo ns) w
              = (Some e, (getPVC env ns (PVCName volInfo) w).2,
                 [EvGetPVC ns (PVCName volInfo)])).
    { intros ticks. by rewrite (poll_stops ticks _ w _ _ _ Hc); [|left]. }
    split; [done|]. unfold patchWorker, bind. rewrite Hp. done.
  - intros pvc Hclaim Hphase Hname volume Hvol. subst volume.
    assert (Hc : pollCondition env volInfo pvInfo ns w
                 = ((false, Some e),
                    (getPV env (pvc_VolumeName pvc)
                       (getPVC env ns (PVCName volInfo) w).2).2,
                    [EvGetPVC ns (PVCName volInfo); EvGetPV (pvc_VolumeName pvc)])).
    { unfold pollCondition, bind, call.
      destruct (getPVC env ns (PVCName volInfo) w) as [got w1]. simpl in *.
      subst got.
      rewrite (bool_decide_eq_true_2 _ Hphase), (bool_decide_eq_false_2 _ Hname).
      simpl. destruct (getPV env (pvc_VolumeName pvc) w1) as [got w2]. simpl in *.
      subst got. by rewrite Hnf. }
    assert (Hp : ∀ ticks,
              PollUntilContextTimeout ticks (pollCondition env volInfo pvInfo ns) w
              = (Some e,
                 (getPV env (pvc_VolumeName pvc)
                    (getPVC env ns (PVCName volInfo) w).2).2,
                 [EvGetPVC ns (PVCName volInfo); EvGetPV (pvc_VolumeName pvc)])).
    { intros ticks. by rewrite (poll_stops ticks _ w _ _ _ Hc); [|left]. }
    split; [done|]. unfold patchWorker, bind. rewrite Hp. done.
Qed.

(** X8: the deadline.  For a claim that never gets bound the poll tries
    once at the start and once at every tick, each attempt being a single
    fetch of the claim, and then gives up with the error of the deadline;
    the worker records exactly one entry, under its restored namespace,
    that names the claim and the volume of the backup, and has neither
    fetched a volume nor issued a patch. *)
Theorem X8_deadline_for_unbound_claim volInfo pvInfo ns (w : W) errs :
  neverBound env ns (PVCName volInfo) →
  let run := patchWorker env volInfo pvInfo ns errs w in
  let msg :=
    "fail to patch dynamic PV, err: context deadline exceeded, PVC: "
    +:+ PVCName volInfo +:+ ", PV: " +:+ PVName volInfo in
  trace_of run = replicate (S (pollTicks env)) (EvGetPVC ns (PVCName volInfo))
  ∧ world_of run = afterFetches env ns (PVCName volInfo) (S (pollTicks env)) w
  ∧ result_of run = Add ns msg errs
  ∧ entries (result_of run) = S (entries errs)
  ∧ countEv isGetPV (trace_of run) = 0%nat
  ∧ countEv isPatchPV (trace_of run) = 0%nat.
Proof.
  intros Hnever run msg.
  assert (Hrun : run = (Add ns msg errs,
                        afterFetches env ns (PVCName volInfo) (S (pollTicks env)) w,
                        replicate (S (pollTicks env)) (EvGetPVC ns (PVCName volInfo)))).
  { unfold run, patchWorker, bind. rewrite poll_never_bound by done.
    unfold ret. cbn [fst snd]. by rewrite app_nil_r. }
  rewrite Hrun. unfold result_of, world_of, trace_of. cbn [fst snd].
  split; [done|]. split; [done|]. split; [done|]. split; [apply entries_Add|].
  split.
  - generalize (S (pollTicks env)). intros n. induction n; simpl; [done | lia].
  - generalize (S (pollTicks env)). intros n. induction n; simpl; [done | lia].
Qed.

(** The poll of any worker, in any world. *)
Lemma poll_bounds volInfo pvInfo ns ticks (w : W) :
  let run := PollUntilContextTimeout ticks (pollCondition env volInfo pvInfo ns) w in
  (1 ≤ countEv isGetPVC (trace_of run) ≤ S ticks)%nat
  ∧ (countEv isGetPV (trace_of run) ≤ countEv isGetPVC (trace_of run))%nat
  ∧ (countEv isPatchPV (trace_of run) = 0%nat
     ∨ ∃ t0 pv, trace_of run = t0 ++ [EvPatchPV pv (updatedPV pv pvInfo)]
                ∧ countEv isPatchPV t0 = 0%nat).
Proof.
  revert w. induction ticks as [|n IH]; intros w.
  - cbv zeta. simpl. unfold bind.
    pose proof (attempt_calls volInfo pvInfo ns w) as Hcalls. cbv zeta in Hcalls.
    destruct (pollCondition env volInfo pvInfo ns w) as [[[ok [e|]] w'] t];
      unfold result_of, trace_of in *; cbn [fst snd] in *;
      [|destruct ok]; unfold ret; cbn [fst snd]; rewrite app_nil_r;
      (destruct Hcalls as [-> | [[pvName ->] | (pvName & pv & -> & Hres)]];
       [simpl; split; [lia|]; split; [lia|]; by left
       |simpl; split; [lia|]; split; [lia|]; by left
       |simpl; split; [lia|]; split; [lia|]; right;
        exists [EvGetPVC ns (PVCName volInfo); EvGetPV pvName], pv; done]).
  - cbv zeta. simpl. unfold bind.
    pose proof (attempt_calls volInfo pvInfo ns w) as Hcalls. cbv zeta in Hcalls.
    destruct (pollCondition env volInfo pvInfo ns w) as [[[ok [e|]] w'] t];
      unfold result_of, trace_of in *; cbn [fst snd] in *;
      [|destruct ok].
    1,2: unfold ret; cbn [fst snd]; rewrite app_nil_r;
      (destruct Hcalls as [-> | [[pvName ->] | (pvName & pv & -> & Hres)]];
       [simpl; split; [lia|]; split; [lia|]; by left
       |simpl; split; [lia|]; split; [lia|]; by left
       |simpl; split; [lia|]; split; [lia|]; right;
        exists [EvGetPVC ns (PVCName volInfo); EvGetPV pvName], pv; done]).
    specialize (IH w'). cbv zeta in IH.
    destruct (PollUntilContextTimeout n _ w') as [[r w''] t'].
    unfold trace_of in *. cbn [fst snd] in *.
    destruct IH as (Hget & Hpv & Hpatch).
    rewrite !countEv_app.
    destruct Hcalls as [-> | [[pvName ->] | (pvName & pv & -> & Hres)]]; [| |done].
    + simpl. split; [lia|]. split; [lia|].
      destruct Hpatch as [Hz | (t0 & pv & -> & Hz)]; [left; lia|].
      right. exists (EvGetPVC ns (PVCName volInfo) :: t0), pv. split; [done|].
      simpl. lia.
    + simpl. split; [lia|]. split; [lia|].
      destruct Hpatch as [Hz | (t0 & pv & -> & Hz)]; [left; lia|].
      right. exists (EvGetPVC ns (PVCName volInfo) :: EvGetPV pvName :: t0), pv.
      split; [done|]. simpl. lia.
Qed.

(** X9: every worker, in every world and whatever the cluster answers.
    The condition is tried at once, so the claim is fetched at least once,
    and at most once more per tick before the deadline; a volume is only
    fetched in an attempt that has fetched the claim.  The worker issues at
    most one patch, and when it issues one that patch is its last call and
    sets the recorded policy and labels.  It records one entry when its
    poll has failed and none when it has succeeded. *)
Theorem X9_worker_bounds volInfo pvInfo ns errs (w : W) :
  let run := patchWorker env volInfo pvInfo ns errs w in
  let poll := PollUntilContextTimeout (pollTicks env)
                (pollCondition env volInfo pvInfo ns) w in
  (1 ≤ countEv isGetPVC (trace_of run) ≤ S (pollTicks env))%nat
  ∧ (countEv isGetPV (trace_of run) ≤ countEv isGetPVC (trace_of run))%nat
  ∧ (countEv isPatchPV (trace_of run) ≤ 1)%nat
  ∧ (countEv isPatchPV (trace_of run) = 1%nat →
     ∃ t0 pv, trace_of run = t0 ++ [EvPatchPV pv (updatedPV pv pvInfo)]
              ∧ pv_ReclaimPolicy (updatedPV pv pvInfo) = ReclaimPolicy pvInfo
              ∧ pv_Labels (updatedPV pv pvInfo) = Labels pvInfo)
  ∧ (result_of poll = None → result_of run = errs)
  ∧ (∀ e, result_of poll = Some e →
          result_of run
          = Add ns (Error (FailToPatch e (PVCName volInfo) (PVName volInfo))) errs
          ∧ entries (result_of run) = S (entries errs))
  ∧ trace_of run = trace_of poll
  ∧ world_of run = world_of poll.
Proof.
  intros run poll.
  pose proof (poll_bounds volInfo pvInfo ns (pollTicks env) w) as Hb.
  cbv zeta in Hb. fold poll in Hb.
  assert (Hrun : run = (match result_of poll with
                        | Some e =>
                            Add ns (Error (FailToPatch e (PVCName volInfo)
                                                       (PVName volInfo))) errs
                        | None => errs
                        end, world_of poll, trace_of poll)).
  { unfold run, patchWorker, bind. fold poll.
    destruct poll as [[[e|] w'] t]; unfold ret, result_of, world_of, trace_of;
      cbn [fst snd]; by rewrite app_nil_r. }
  assert (Ht : trace_of run = trace_of poll) by (by rewrite Hrun).
  assert (Hw : world_of run = world_of poll) by (by rewrite Hrun).
  assert (Hr : result_of run
               = match result_of poll with
                 | Some e =>
                     Add ns (Error (FailToPatch e (PVCName volInfo)
                                                (PVName volInfo))) errs
                 | None => errs
                 end) by (by rewrite Hrun).
  rewrite Ht, Hw, Hr. clear Hrun Ht Hw Hr.
  destruct Hb as (Hget & Hpv & Hpatch).
  split; [done|]. split; [done|]. split; [|split; [|split; [|split]]].
  - destruct Hpatch as [Hz | (t0 & pv & Heq & Hz)]; [lia|].
    rewrite Heq, countEv_app, Hz. simpl. lia.
  - intros Hone. destruct Hpatch as [Hz | (t0 & pv & Heq & Hz)]; [lia|].
    by exists t0, pv.
  - by intros ->.
  - intros e ->. split; [done | apply entries_Add].
  - done.
Qed.

End PollFacts.

(** ** The finalization task, its bounds *)

Section TaskBounds.

Context {W : Type} (env : Env W).

Lemma patchWorker_poll volInfo pvInfo ns errs (w : W) :
  trace_of (patchWorker env volInfo pvInfo ns errs w)
  = trace_of (PollUntilContextTimeout (pollTicks env)
                (pollCondition env volInfo pvInfo ns) w).
Proof.
  unfold patchWorker, bind.
  destruct (PollUntilContextTimeout _ _ w) as [[[e|] w'] t];
    unfold ret, trace_of; cbn [fst snd]; by rewrite app_nil_r.
Qed.

Lemma patchWorker_counts volInfo pvInfo ns errs (w : W) :
  let t := trace_of (patchWorker env volInfo pvInfo ns errs w) in
  (1 ≤ countEv isGetPVC t ≤ S (pollTicks env))%nat
  ∧ (countEv isPatchPV t ≤ 1)%nat.
Proof.
  cbv zeta. rewrite patchWorker_poll.
  destruct (poll_bounds env volInfo pvInfo ns (pollTicks env) w)
    as (Hget & _ & Hpatch).
  split; [done|].
  destruct Hpatch as [Hz | (t0 & pv & Heq & Hz)]; [lia|].
  rewrite Heq, countEv_app, Hz. simpl. lia.
Qed.

Lemma started_cons ctx volumeItem rest :
  started ctx (volumeItem :: rest)
  = match startsWorker ctx volumeItem with
    | Some (pvInfo, ns) => (volumeItem, pvInfo, ns) :: started ctx rest
    | None => started ctx rest
    end.
Proof.
  unfold started. simpl.
  by destruct (startsWorker ctx volumeItem) as [[pvInfo ns]|].
Qed.

Lemma patchVolumes_bounds ctx volumes errs (w : W) :
  let run := patchVolumes env ctx volumes errs w in
  let selected := length (started ctx volumes) in
  (entries errs ≤ entries (result_of run) ≤ entries errs + selected)%nat
  ∧ (countEv isPatchPV (trace_of run) ≤ selected)%nat
  ∧ (selected ≤ countEv isGetPVC (trace_of run) ≤ selected * S (pollTicks env))%nat.
Proof.
  revert errs w. induction volumes as [|v rest IH]; intros errs w.
  - cbv zeta. unfold result_of, trace_of. simpl. lia.
  - cbv zeta. rewrite patchVolumes_cons, started_cons.
    destruct (startsWorker ctx v) as [[pvInfo ns]|].
    + pose proof (patchWorker_entries env v pvInfo ns errs w) as He.
      destruct (patchWorker_counts v pvInfo ns errs w) as (Hg & Hp).
      specialize (IH (result_of (patchWorker env v pvInfo ns errs w))
                     (world_of (patchWorker env v pvInfo ns errs w))).
      cbv zeta in IH. destruct IH as (IHe & IHp & IHg).
      cbv zeta. unfold result_of, world_of, trace_of in *.
      cbn [fst snd length] in *. rewrite !countEv_app.
      split; [lia|]. split; [lia|]. nia.
    + apply IH.
Qed.

(** X10: the finalization task as a whole, for every list of volumes and
    every behaviour of the cluster.  The errors that it returns hold at
    most one entry per selected volume; it issues at most one patch per
    selected volume; it fetches a claim at least once per selected volume
    and at most once per selected volume and attempt that the deadline
    allows; and it calls nothing but the cluster API for claims and
    volumes.  When no volume is selected it makes no call and returns the
    empty Result.  [execute] returns these errors unchanged, next to
    empty warnings. *)
Theorem X10_task_bounds ctx (w : W) :
  let run := patchDynamicPVWithVolumeInfo env ctx w in
  let selected := length (started ctx (volumeInfo ctx)) in
  (entries (result_of run) ≤ selected)%nat
  ∧ (countEv isPatchPV (trace_of run) ≤ selected)%nat
  ∧ (selected ≤ countEv isGetPVC (trace_of run) ≤ selected * S (pollTicks env))%nat
  ∧ Forall (λ ev, isRemediation ev = true) (trace_of run)
  ∧ (selected = 0%nat → run = (Result_zero, w, []))
  ∧ execute env ctx w = ((Result_zero, result_of run), world_of run, trace_of run).
Proof.
  intros run selected.
  destruct (patchVolumes_bounds ctx (volumeInfo ctx) Result_zero w) as (He & Hp & Hg).
  rewrite entries_zero in He.
  split; [unfold run, patchDynamicPVWithVolumeInfo; lia|].
  split; [done|]. split; [done|].
  split; [apply patchVolumes_remediation|]. split.
  - intros Hzero. unfold run, patchDynamicPVWithVolumeInfo.
    apply patchVolumes_none. intros v Hv.
    destruct (startsWorker ctx v) as [[pvInfo ns]|] eqn:Hs; [|done].
    exfalso.
    assert (Hin : (v, pvInfo, ns) ∈ started ctx (volumeInfo ctx))
      by (by apply started_volumes).
    unfold selected in Hzero. apply nil_length_inv in Hzero.
    rewrite Hzero in Hin. by apply elem_of_nil in Hin.
  - apply execute_run.
Qed.

End TaskBounds.

(** ** The goroutines of the pool: the mutex, progress and termination *)

Lemma countb_pos p (l : list Worker) :
  (0 < countb p l)%nat ↔ ∃ i wk, l !! i = Some wk ∧ p wk = true.
Proof.
  induction l as [|wk l IH]; simpl.
  - split; [lia | by intros (i & wk & Hi & _)].
  - destruct (p wk) eqn:Hp.
    + split; [|lia]. intros _. by exists 0%nat, wk.
    + simpl. rewrite IH. split.
      * intros (i & wk' & Hi & Hp'). by exists (S i), wk'.
      * intros ([|i] & wk' & Hi & Hp'); simpl in Hi.
        -- injection Hi as ->. congruence.
        -- by exists i, wk'.
Qed.

Lemma countb_mono (p q : Worker → bool) (l : list Worker) :
  (∀ wk, p wk = true → q wk = true) → (countb p l ≤ countb q l)%nat.
Proof.
  intros Hpq. induction l as [|wk l IH]; simpl; [done|].
  destruct (p wk) eqn:Hp.
  - rewrite (Hpq wk Hp). lia.
  - destruct (q wk); lia.
Qed.

Lemma rank_workers_app ticks l1 l2 :
  rank_workers ticks (l1 ++ l2) = (rank_workers ticks l1 + rank_workers ticks l2)%nat.
Proof. induction l1 as [|wk l1 IH]; simpl; [done | rewrite IH; lia]. Qed.

Lemma rank_workers_insert ticks (l : list Worker) i old new :
  l !! i = Some old →
  (rank_workers ticks (<[i:=new]> l) + rank_pc ticks (w_pc old)
   = rank_workers ticks l + rank_pc ticks (w_pc new))%nat.
Proof.
  revert i. induction l as [|wk l IH]; intros i Hi; [done|].
  destruct i as [|i]; simpl in *.
  - injection Hi as ->. lia.
  - specialize (IH i Hi). lia.
Qed.

Lemma inCritical_set_pc pc wk :
  inCritical (set_pc pc wk)
  = match pc with
    | Recording _ | AtRelease true | AtUnlock => true
    | _ => false
    end.
Proof. done. Qed.

Section PoolProgress.

Context {W : Type} (env : Env W).

Lemma reachable_step ctx (w : W) s s' :
  reachable env ctx w s → pool_step env ctx s s' → reachable env ctx w s'.
Proof. intros Hr Hs. by eapply rtc_r. Qed.

(** The mutex: the workers in the critical section are as many as the
    mutex says, one or none. *)
Lemma lock_step ctx (s s' : Pool W) :
  countb inCritical (workers s) = (if resultLock s then 1 else 0)%nat →
  pool_step env ctx s s' →
  countb inCritical (workers s') = (if resultLock s' then 1 else 0)%nat.
Proof.
  intros Hlock [Hmain | [i Hworker]].
  - unfold step_main in Hmain.
    destruct (p_main s) as [[|v rest]| |].
    + by injection Hmain as <-.
    + destruct (startsWorker ctx v) as [[pvInfo ns]|]; injection Hmain as <-; simpl;
        [|done].
      rewrite countb_app. simpl. lia.
    + case_bool_decide; [|done]. by injection Hmain as <-.
    + done.
  - unfold step_worker in Hworker.
    destruct (workers s !! i) as [wk|] eqn:Hi; [|done].
    assert (Hins : ∀ pc,
              (countb inCritical (<[i:=set_pc pc wk]> (workers s))
               + (if match w_pc wk with
                     | Recording _ | AtRelease true | AtUnlock => true
                     | _ => false
                     end then 1 else 0)
               = countb inCritical (workers s)
                 + (if match pc with
                       | Recording _ | AtRelease true | AtUnlock => true
                       | _ => false
                       end then 1 else 0))%nat).
    { intros pc. exact (countb_insert inCritical _ i wk (set_pc pc wk) Hi). }
    destruct (w_pc wk) eqn:Hpc.
    + case_bool_decide; [|done]. injection Hworker as <-. simpl.
      specialize (Hins (InPoll (pollTicks env))).
      simpl in Hins. lia.
    + destruct (pollCondition env _ _ _ _) as [[r w'] t]. injection Hworker as <-.
      simpl. specialize (Hins (afterAttempt ticks r)).
      assert (match afterAttempt ticks r with
              | Recording _ | AtRelease true | AtUnlock => true
              | _ => false
              end = false) as Hnew.
      { unfold afterAttempt.
        destruct r.2; [done|]. destruct r.1; [done|]. by destruct ticks. }
      rewrite Hnew in Hins. lia.
    + destruct (resultLock s) eqn:Hl; [done|]. injection Hworker as <-. simpl.
      specialize (Hins (Recording err)).
      simpl in Hins. lia.
    + injection Hworker as <-. simpl.
      specialize (Hins (AtRelease true)).
      simpl in Hins. lia.
    + injection Hworker as <-. simpl.
      specialize (Hins (if locked then AtUnlock else AtDone)).
      destruct locked; simpl in Hins; lia.
    + injection Hworker as <-. simpl.
      specialize (Hins AtDone).
      simpl in Hins. destruct (resultLock s); lia.
    + injection Hworker as <-. simpl.
      specialize (Hins Finished).
      simpl in Hins. lia.
    + done.
Qed.

Lemma lock_reachable ctx (w : W) s :
  reachable env ctx w s →
  countb inCritical (workers s) = (if resultLock s then 1 else 0)%nat.
Proof.
  unfold reachable. intros Hr.
  apply (rtc_ind_r (R := pool_step env ctx)
           (λ s, countb inCritical (workers s) = (if resultLock s then 1 else 0)%nat)
           (initPool ctx w)); [done | | exact Hr].
  intros s1 s2 _ Hstep IH. by eapply lock_step.
Qed.

(** X11: the mutex and what is given back.  In every reachable state at
    most one worker is between [Lock] and the deferred [Unlock], and
    exactly one when the mutex is held.  The shared Result only changes
    in a step of a worker that holds the mutex, and then by one entry.
    Once the main goroutine has returned, the channel is empty, the mutex
    is free and the wait group is at zero. *)
Theorem X11_mutex_and_release ctx (w : W) s :
  reachable env ctx w s →
  countb inCritical (workers s) = (if resultLock s then 1 else 0)%nat
  ∧ (countb inCritical (workers s) ≤ 1)%nat
  ∧ (∀ s', pool_step env ctx s s' → p_errs s' ≠ p_errs s →
           resultLock s = true ∧ resultLock s' = true
           ∧ entries (p_errs s') = S (entries (p_errs s)))
  ∧ (p_main s = Returned →
     semaphore s = 0%nat ∧ resultLock s = false ∧ pvWaitGroup s = 0%nat).
Proof.
  intros Hr.
  pose proof (lock_reachable ctx w s Hr) as Hlock.
  destruct (pool_inv_reachable env ctx w s Hr) as (Hsem & _ & Hwg & Hret & _).
  split; [done|]. split; [rewrite Hlock; destruct (resultLock s); lia|]. split.
  - intros s' [Hmain | [i Hworker]] Hne.
    + exfalso. apply Hne. unfold step_main in Hmain.
      destruct (p_main s) as [[|v rest]| |].
      * by injection Hmain as <-.
      * destruct (startsWorker ctx v) as [[pvInfo ns]|]; by injection Hmain as <-.
      * case_bool_decide; [|done]. by injection Hmain as <-.
      * done.
    + unfold step_worker in Hworker.
      destruct (workers s !! i) as [wk|] eqn:Hi; [|done].
      destruct (w_pc wk) eqn:Hpc.
      * case_bool_decide; [|done]. injection Hworker as <-. by exfalso.
      * destruct (pollCondition env _ _ _ _) as [[r w'] t]. injection Hworker as <-.
        by exfalso.
      * destruct (resultLock s); [done|]. injection Hworker as <-. by exfalso.
      * injection Hworker as <-. simpl.
        assert (resultLock s = true) as Hheld.
        { assert (0 < countb inCritical (workers s))%nat as Hpos.
          { apply countb_pos. exists i, wk. split; [done|].
            unfold inCritical. by rewrite Hpc. }
          rewrite Hlock in Hpos. destruct (resultLock s); [done | lia]. }
        split; [done|]. split; [done|]. apply entries_Add.
      * injection Hworker as <-. by exfalso.
      * injection Hworker as <-. by exfalso.
      * injection Hworker as <-. by exfalso.
      * done.
  - intros Hmain. specialize (Hret Hmain).
    assert (Hcount : ∀ p, (∀ wk, p wk = true → w_pc wk ≠ Finished) →
                          countb p (workers s) = 0%nat).
    { intros p Hp. apply countb_zero. eapply Forall_impl; [exact Hret|].
      intros wk Hfin. destruct (p wk) eqn:Hpw; [|done].
      by apply Hp in Hpw. }
    split; [|split].
    + rewrite Hsem. unfold inFlight. apply Hcount.
      intros wk. unfold holdsSlot. by destruct (w_pc wk).
    + assert (countb inCritical (workers s) = 0%nat) as Hz.
      { apply Hcount. intros wk. unfold inCritical. by destruct (w_pc wk). }
      rewrite Hz in Hlock. by destruct (resultLock s).
    + rewrite Hwg. apply Hcount.
      intros wk. unfold unfinished. by destruct (w_pc wk).
Qed.

(** A step of the pool brings it nearer to its end. *)
Lemma pool_step_measure ctx (s s' : Pool W) :
  pool_step env ctx s s' →
  (pool_measure (pollTicks env) s' < pool_measure (pollTicks env) s)%nat.
Proof.
  unfold pool_measure. intros [Hmain | [i Hworker]].
  - unfold step_main in Hmain.
    destruct (p_main s) as [[|v rest]| |].
    + injection Hmain as <-. simpl. lia.
    + destruct (startsWorker ctx v) as [[pvInfo ns]|]; injection Hmain as <-; simpl.
      * rewrite rank_workers_app. simpl. lia.
      * lia.
    + case_bool_decide; [|done]. injection Hmain as <-. simpl. lia.
    + done.
  - unfold step_worker in Hworker.
    destruct (workers s !! i) as [wk|] eqn:Hi; [|done].
    assert (Hins : ∀ pc,
              (rank_workers (pollTicks env) (<[i:=set_pc pc wk]> (workers s))
               + rank_pc (pollTicks env) (w_pc wk)
               = rank_workers (pollTicks env) (workers s)
                 + rank_pc (pollTicks env) pc)%nat).
    { intros pc. exact (rank_workers_insert _ _ i wk (set_pc pc wk) Hi). }
    destruct (w_pc wk) eqn:Hpc.
    + case_bool_decide; [|done]. injection Hworker as <-. simpl.
      specialize (Hins (InPoll (pollTicks env))). simpl in Hins. lia.
    + destruct (pollCondition env _ _ _ _) as [[r w'] t]. injection Hworker as <-.
      simpl. specialize (Hins (afterAttempt ticks r)).
      assert (rank_pc (pollTicks env) (afterAttempt ticks r) < ticks + 6)%nat as Hnew.
      { unfold afterAttempt.
        destruct r.2; [simpl; lia|]. destruct r.1; [simpl; lia|].
        destruct ticks; simpl; lia. }
      simpl in Hins. lia.
    + destruct (resultLock s); [done|]. injection Hworker as <-. simpl.
      specialize (Hins (Recording err)). simpl in Hins. lia.
    + injection Hworker as <-. simpl.
      specialize (Hins (AtRelease true)). simpl in Hins. lia.
    + injection Hworker as <-. simpl.
      specialize (Hins (if locked then AtUnlock else AtDone)).
      destruct locked; simpl in Hins; lia.
    + injection Hworker as <-. simpl.
      specialize (Hins AtDone). simpl in Hins. lia.
    + injection Hworker as <-. simpl.
      specialize (Hins Finished). simpl in Hins. lia.
    + done.
Qed.

Lemma pool_nsteps_measure ctx n (s s' : Pool W) :
  nsteps (pool_step env ctx) n s s' →
  (n + pool_measure (pollTicks env) s' ≤ pool_measure (pollTicks env) s)%nat.
Proof.
  induction 1 as [|n s1 s2 s3 Hstep _ IH]; [simpl; lia|].
  apply pool_step_measure in Hstep. lia.
Qed.

Lemma main_returned_dec (pc : MainPC) : {pc = Returned} + {pc ≠ Returned}.
Proof. destruct pc; [by right | by right | by left]. Qed.

Lemma pool_progress ctx (w : W) s :
  reachable env ctx w s → p_main s ≠ Returned →
  is_Some (step_main ctx s) ∨ ∃ i, is_Some (step_worker env i s).
Proof.
  intros Hr Hmain.
  pose proof (lock_reachable ctx w s Hr) as Hlock.
  destruct (pool_inv_reachable env ctx w s Hr) as (Hsem & _ & Hwg & _).
  destruct (p_main s) as [rest| |] eqn:Hpc; [| |done].
  { left. unfold step_main. rewrite Hpc.
    destruct rest as [|v rest]; [by eexists|].
    destruct (startsWorker ctx v) as [[pvInfo ns]|]; by eexists. }
  destruct (decide (pvWaitGroup s = 0%nat)) as [Hzero | Hleft].
  { left. unfold step_main. rewrite Hpc.
    rewrite bool_decide_eq_true_2 by done. by eexists. }
  right.
  destruct (decide (0 < countb canMove (workers s))%nat) as [Hcan | Hcan].
  { apply countb_pos in Hcan as (i & wk & Hi & Hp). exists i.
    unfold step_worker. rewrite Hi. unfold canMove in Hp.
    destruct (w_pc wk); try done; try by eexists.
    destruct (pollCondition env _ _ _ _) as [[r w'] t]. by eexists. }
  assert (countb inCritical (workers s) = 0%nat) as Hfree.
  { assert (countb inCritical (workers s) ≤ countb canMove (workers s))%nat; [|lia].
    apply countb_mono.
    intros wk. unfold inCritical, canMove. destruct (w_pc wk) as [| | | |[|]| | |]; done. }
  assert (resultLock s = false) as Hunlocked.
  { rewrite Hfree in Hlock. by destruct (resultLock s). }
  destruct (decide (0 < countb isFailing (workers s))%nat) as [Hfail | Hfail].
  { apply countb_pos in Hfail as (i & wk & Hi & Hp). exists i.
    unfold step_worker. rewrite Hi. unfold isFailing in Hp.
    destruct (w_pc wk); try done. rewrite Hunlocked. by eexists. }
  assert (semaphore s = 0%nat) as Hempty.
  { rewrite Hsem. unfold inFlight.
    assert (countb holdsSlot (workers s)
            ≤ countb (λ wk, canMove wk || isFailing wk) (workers s))%nat as Hle.
    { apply countb_mono. intros wk. unfold holdsSlot, canMove, isFailing.
      by destruct (w_pc wk). }
    assert (countb (λ wk, canMove wk || isFailing wk) (workers s) = 0%nat) as Hnone.
    { apply countb_zero. apply Forall_forall. intros wk Hin.
      apply list_elem_of_lookup in Hin as [i Hi].
      destruct (canMove wk) eqn:Hc.
      - exfalso. apply Hcan. apply countb_pos. by exists i, wk.
      - destruct (isFailing wk) eqn:Hf; [|done].
        exfalso. apply Hfail. apply countb_pos. by exists i, wk. }
    lia. }
  assert (0 < countb unfinished (workers s))%nat as Hsome by lia.
  apply countb_pos in Hsome as (i & wk & Hi & Hp). exists i.
  unfold step_worker. rewrite Hi.
  destruct (w_pc wk) eqn:Hwk.
  - rewrite bool_decide_eq_true_2; [by eexists|]. unfold maxConcurrency. lia.
  - exfalso. apply Hcan. apply countb_pos. exists i, wk. split; [done|].
    unfold canMove. by rewrite Hwk.
  - exfalso. apply Hfail. apply countb_pos. exists i, wk. split; [done|].
    unfold isFailing. by rewrite Hwk.
  - exfalso. apply Hcan. apply countb_pos. exists i, wk. split; [done|].
    unfold canMove. by rewrite Hwk.
  - exfalso. apply Hcan. apply countb_pos. exists i, wk. split; [done|].
    unfold canMove. by rewrite Hwk.
  - exfalso. apply Hcan. apply countb_pos. exists i, wk. split; [done|].
    unfold canMove. by rewrite Hwk.
  - exfalso. apply Hcan. apply countb_pos. exists i, wk. split; [done|].
    unfold canMove. by rewrite Hwk.
  - unfold unfinished in Hp. by rewrite Hwk in Hp.
Qed.

Lemma pool_reaches_return ctx (w : W) n : ∀ s,
  (pool_measure (pollTicks env) s ≤ n)%nat → reachable env ctx w s →
  ∃ s', rtc (pool_step env ctx) s s' ∧ p_main s' = Returned.
Proof.
  induction n as [|n IH]; intros s Hle Hr.
  - exists s. split; [done|].
    unfold pool_measure in Hle. destruct (p_main s); simpl in Hle; [lia | lia | done].
  - destruct (main_returned_dec (p_main s)) as [Hret | Hnot].
    { by exists s. }
    assert (∃ s1, pool_step env ctx s s1) as [s1 Hstep].
    { destruct (pool_progress ctx w s Hr Hnot) as [[s1 H1] | [i [s1 H1]]].
      - exists s1. by left.
      - exists s1. right. by exists i. }
    pose proof (pool_step_measure ctx s s1 Hstep) as Hlt.
    destruct (IH s1) as (s' & Hrun & Hret); [lia | by eapply reachable_step |].
    exists s'. split; [|done]. by eapply rtc_l.
Qed.

(** X12: the pool cannot get stuck.  In every reachable state in which
    the main goroutine has not returned, the main goroutine or one of the
    workers can make a step; while the main goroutine waits for workers
    that are left, it is one of the workers.  So a state from which no
    goroutine can move is one in which the function has returned. *)
Theorem X12_no_deadlock ctx (w : W) s :
  reachable env ctx w s →
  (p_main s ≠ Returned → ∃ s', pool_step env ctx s s')
  ∧ (p_main s = Waiting → pvWaitGroup s ≠ 0%nat →
     ∃ i, is_Some (step_worker env i s))
  ∧ ((∀ s', ¬ pool_step env ctx s s') → p_main s = Returned).
Proof.
  intros Hr.
  assert (Hmove : p_main s ≠ Returned → ∃ s', pool_step env ctx s s').
  { intros Hnot.
    destruct (pool_progress ctx w s Hr Hnot) as [[s1 H1] | [i [s1 H1]]].
    - exists s1. by left.
    - exists s1. right. by exists i. }
  split; [done|]. split.
  - intros Hwait Hleft.
    destruct (pool_progress ctx w s Hr) as [[s1 H1] | Hworker]; [by rewrite Hwait | | done].
    unfold step_main in H1. rewrite Hwait in H1.
    by rewrite bool_decide_eq_false_2 in H1.
  - intros Hstuck. destruct (main_returned_dec (p_main s)) as [|Hnot]; [done|].
    destruct (Hmove Hnot) as [s' Hstep]. by destruct (Hstuck s').
Qed.

(** X13: the pool terminates.  After [n] steps from its start the pool is
    in a state whose distance to the end is at most the bound of the start
    less [n], so no run has more steps than [length volumeInfo * (ticks + 8)
    + 2]; and from that state the goroutines can go on until the main
    goroutine has returned. *)
Theorem X13_pool_terminates ctx (w : W) n s :
  nsteps (pool_step env ctx) n (initPool ctx w) s →
  (n + pool_measure (pollTicks env) s
   ≤ length (volumeInfo ctx) * (pollTicks env + 8) + 2)%nat
  ∧ (∀ m s', nsteps (pool_step env ctx) m s s' →
             (n + m ≤ length (volumeInfo ctx) * (pollTicks env + 8) + 2)%nat)
  ∧ ∃ s', rtc (pool_step env ctx) s s' ∧ p_main s' = Returned.
Proof.
  intros Hrun.
  pose proof (pool_nsteps_measure ctx n _ _ Hrun) as Hn.
  assert (pool_measure (pollTicks env) (initPool ctx w)
          = (length (volumeInfo ctx) * (pollTicks env + 8) + 2)%nat) as Hinit.
  { unfold pool_measure. simpl. lia. }
  split; [lia|]. split.
  - intros m s' Hm. pose proof (pool_nsteps_measure ctx m _ _ Hm). lia.
  - apply (pool_reaches_return ctx w (pool_measure (pollTicks env) s)); [done|].
    unfold reachable. eapply rtc_nsteps_2. exact Hrun.
Qed.

End PoolProgress.

(** ** The sequential function is one of the interleavings *)

Section PoolSequential.

Context {W : Type} (env : Env W).

Lemma insert_last_worker (ws : list Worker) (old new : Worker) :
  <[length ws := new]> (ws ++ [old]) = ws ++ [new].
Proof.
  rewrite <- (Nat.add_0_r (length ws)) at 1. by rewrite insert_app_r.
Qed.

(** A step of the worker that the main goroutine has started last. *)
Lemma step_last_worker ws v p ns pc (w : W) t sem lock wg errs main :
  step_worker env (length ws)
    (mkPool w t sem lock wg errs (ws ++ [mkWorker v p ns pc]) main)
  = match pc with
    | AtGate =>
        if bool_decide (sem < maxConcurrency)%nat
        then Some (mkPool w t (S sem) lock wg errs
                          (ws ++ [mkWorker v p ns (InPoll (pollTicks env))]) main)
        else None
    | InPoll ticks =>
        let '(r, w', t') := pollCondition env v p ns w in
        Some (mkPool w' (t ++ map (pair (length ws)) t') sem lock wg errs
                     (ws ++ [mkWorker v p ns (afterAttempt ticks r)]) main)
    | Failing e =>
        if lock then None
        else Some (mkPool w t sem true wg errs (ws ++ [mkWorker v p ns (Recording e)]) main)
    | Recording e =>
        Some (mkPool w t sem lock wg
                     (Add ns (Error (FailToPatch e (PVCName v) (PVName v))) errs)
                     (ws ++ [mkWorker v p ns (AtRelease true)]) main)
    | AtRelease locked =>
        Some (mkPool w t (pred sem) lock wg errs
                     (ws ++ [mkWorker v p ns (if locked then AtUnlock else AtDone)]) main)
    | AtUnlock =>
        Some (mkPool w t sem false wg errs (ws ++ [mkWorker v p ns AtDone]) main)
    | AtDone =>
        Some (mkPool w t sem lock (pred wg) errs (ws ++ [mkWorker v p ns Finished]) main)
    | Finished => None
    end.
Proof.
  unfold step_worker. cbn [workers]. rewrite list_lookup_middle by done.
  cbn [w_pc w_volInfo w_pvInfo w_restoredNamespace p_world p_trace semaphore
       resultLock pvWaitGroup p_errs p_main].
  destruct pc; rewrite ?insert_last_worker; try done.
  destruct (pollCondition env v p ns w) as [[r w'] t'].
  by rewrite insert_last_worker.
Qed.

Lemma last_worker_step ctx ws v p ns pc (w : W) t sem lock wg errs main s' :
  step_worker env (length ws)
    (mkPool w t sem lock wg errs (ws ++ [mkWorker v p ns pc]) main) = Some s' →
  pool_step env ctx (mkPool w t sem lock wg errs (ws ++ [mkWorker v p ns pc]) main) s'.
Proof. intros Hs. right. by exists (length ws). Qed.

(** The last statements of a worker that runs alone: the recording of a
    failure under the mutex, the release of the slot, the deferred calls. *)
Lemma seq_tail ctx ws v p ns (w : W) t errs main (r : option error) :
  rtc (pool_step env ctx)
    (mkPool w t 1 false 1 errs
            (ws ++ [mkWorker v p ns (match r with
                                     | Some e => Failing e
                                     | None => AtRelease false
                                     end)]) main)
    (mkPool w t 0 false 0
            (match r with
             | Some e => Add ns (Error (FailToPatch e (PVCName v) (PVName v))) errs
             | None => errs
             end)
            (ws ++ [mkWorker v p ns Finished]) main).
Proof.
  destruct r as [e|].
  - eapply rtc_l; [apply last_worker_step; by rewrite step_last_worker|].
    eapply rtc_l; [apply last_worker_step; by rewrite step_last_worker|].
    eapply rtc_l; [apply last_worker_step; by rewrite step_last_worker|].
    eapply rtc_l; [apply last_worker_step; by rewrite step_last_worker|].
    eapply rtc_l; [apply last_worker_step; by rewrite step_last_worker|].
    done.
  - eapply rtc_l; [apply last_worker_step; by rewrite step_last_worker|].
    eapply rtc_l; [apply last_worker_step; by rewrite step_last_worker|].
    done.
Qed.

(** The poll of a worker that runs alone is the poll of the function. *)
Lemma seq_poll ctx ws v p ns errs main n : ∀ (w : W) t,
  let run := PollUntilContextTimeout n (pollCondition env v p ns) w in
  rtc (pool_step env ctx)
    (mkPool w t 1 false 1 errs (ws ++ [mkWorker v p ns (InPoll n)]) main)
    (mkPool (world_of run) (t ++ map (pair (length ws)) (trace_of run)) 1 false 1 errs
            (ws ++ [mkWorker v p ns (match result_of run with
                                     | Some e => Failing e
                                     | None => AtRelease false
                                     end)]) main).
Proof.
  induction n as [|n IH]; intros w t run; subst run;
    destruct (pollCondition env v p ns w) as [[[ok e] w'] t'] eqn:Hc.
  - eapply rtc_l; [apply last_worker_step; by rewrite step_last_worker, Hc|].
    destruct e as [e|]; [|destruct ok].
    + rewrite (poll_stops _ _ _ _ _ _ Hc) by (left; done). done.
    + rewrite (poll_stops _ _ _ _ _ _ Hc) by (right; done). done.
    + rewrite (poll_deadline _ _ _ _ Hc). done.
  - eapply rtc_l; [apply last_worker_step; by rewrite step_last_worker, Hc|].
    destruct e as [e|]; [|destruct ok].
    + rewrite (poll_stops _ _ _ _ _ _ Hc) by (left; done). done.
    + rewrite (poll_stops _ _ _ _ _ _ Hc) by (right; done). done.
    + rewrite (poll_retries _ _ _ _ _ Hc).
      specialize (IH w' (t ++ map (pair (length ws)) t')).
      destruct (PollUntilContextTimeout n (pollCondition env v p ns) w')
        as [[r w''] t''].
      unfold result_of, world_of, trace_of in *. cbn [fst snd] in *.
      rewrite map_app, app_assoc. exact IH.
Qed.

(** The loop of the main goroutine in the schedule that lets every worker
    run to its end before the next one is started. *)
Lemma seq_loop ctx volumes : ∀ (w : W) t errs ws,
  let run := patchVolumes env ctx volumes errs w in
  ∃ t' ws',
    rtc (pool_step env ctx)
      (mkPool w t 0 false 0 errs ws (Looping volumes))
      (mkPool (world_of run) t' 0 false 0 (result_of run) ws' (Looping []))
    ∧ map snd t' = map snd t ++ trace_of run
    ∧ length ws' = (length ws + length (started ctx volumes))%nat.
Proof.
  induction volumes as [|v rest IH]; intros w t errs ws run; subst run.
  - exists t, ws. split; [done|]. split; [simpl; by rewrite app_nil_r | simpl; lia].
  - rewrite patchVolumes_cons, started_cons.
    destruct (startsWorker ctx v) as [[p ns]|] eqn:Hsel.
    + pose proof (seq_poll ctx ws v p ns errs (Looping rest) (pollTicks env) w t) as Hpoll.
      pose proof (patchWorker_poll env v p ns errs w) as Htrace.
      unfold patchWorker, bind in *.
      destruct (PollUntilContextTimeout (pollTicks env) (pollCondition env v p ns) w)
        as [[r w1] t1] eqn:Hp.
      unfold result_of, world_of, trace_of in Hpoll, Htrace. cbn [fst snd] in Hpoll, Htrace.
      pose proof (seq_tail ctx ws v p ns w1 (t ++ map (pair (length ws)) t1) errs
                    (Looping rest) r) as Htail.
      set (errs1 := match r with
                    | Some e => Add ns (Error (FailToPatch e (PVCName v) (PVName v))) errs
                    | None => errs
                    end) in *.
      assert (Hfirst : (match r with
                        | Some e => ret (Add ns (Error (FailToPatch e (PVCName v) (PVName v))) errs)
                        | None => ret errs
                        end) w1 = (errs1, w1, [])).
      { subst errs1. by destruct r. }
      rewrite Hfirst in Htrace |- *. cbn [fst snd] in Htrace.
      destruct (IH w1 (t ++ map (pair (length ws)) t1) errs1
                  (ws ++ [mkWorker v p ns Finished])) as (t' & ws' & Hrun & Ht' & Hlen).
      exists t', ws'. split; [|split].
      * eapply rtc_l.
        { left. unfold step_main. cbn [p_main]. rewrite Hsel. reflexivity. }
        cbn [p_world p_trace semaphore resultLock pvWaitGroup p_errs workers].
        eapply rtc_l.
        { apply last_worker_step. rewrite step_last_worker.
          rewrite bool_decide_eq_true_2 by (unfold maxConcurrency; lia). reflexivity. }
        eapply rtc_trans; [exact Hpoll|].
        eapply rtc_trans; [exact Htail|]. exact Hrun.
      * rewrite Ht'. rewrite map_app, map_map. cbn [snd]. rewrite map_id.
        unfold result_of, world_of, trace_of. cbn [fst snd].
        rewrite app_nil_r. by rewrite <- app_assoc.
      * rewrite Hlen, length_app. simpl. lia.
    + destruct (IH w t errs ws) as (t' & ws' & Hrun & Ht' & Hlen).
      exists t', ws'. split; [|done].
      eapply rtc_l; [|exact Hrun].
      left. unfold step_main. cbn [p_main]. by rewrite Hsel.
Qed.

(** X14: the function in which the workers run one after the other is one
    of the runs of the goroutines.  The pool can reach a state in which
    the main goroutine has returned, and in which the shared Result, the
    cluster and the calls made are those of [patchDynamicPVWithVolumeInfo];
    in that state a worker has been started for every selected volume. *)
Theorem X14_sequential_is_a_run ctx (w : W) :
  ∃ s, reachable env ctx w s
       ∧ p_main s = Returned
       ∧ p_errs s = result_of (patchDynamicPVWithVolumeInfo env ctx w)
       ∧ p_world s = world_of (patchDynamicPVWithVolumeInfo env ctx w)
       ∧ map snd (p_trace s) = trace_of (patchDynamicPVWithVolumeInfo env ctx w)
       ∧ length (workers s) = length (started ctx (volumeInfo ctx)).
Proof.
  unfold patchDynamicPVWithVolumeInfo.
  destruct (seq_loop ctx (volumeInfo ctx) w [] Result_zero [])
    as (t' & ws' & Hrun & Ht' & Hlen).
  eexists (mkPool _ t' 0 false 0 _ ws' Returned).
  split; [|by repeat split].
  unfold reachable. eapply rtc_trans; [exact Hrun|].
  eapply rtc_l; [left; reflexivity|].
  eapply rtc_l; [left; reflexivity|]. done.
Qed.

End PoolSequential.

(** ** The selection of the volumes *)

Section Selection.

Context {W : Type} (env : Env W).

Lemma startsWorker_eq ctx volumeItem pvInfo ns :
  startsWorker ctx volumeItem = Some (pvInfo, ns)
  ↔ (BackupMethod volumeItem = PodVolumeBackup ∨ BackupMethod volumeItem = CSISnapshot)
    ∧ vi_PVInfo volumeItem = Some pvInfo
    ∧ ns = default (PVCNamespace volumeItem)
                   (NamespaceMapping (restore ctx) !! PVCNamespace volumeItem)
    ∧ sprintf_slash ns (PVCName volumeItem) ∈ restoredPVCList ctx.
Proof.
  assert (Hns : restoredNamespaceOf (restore ctx) volumeItem
                = default (PVCNamespace volumeItem)
                    (NamespaceMapping (restore ctx) !! PVCNamespace volumeItem)).
  { unfold restoredNamespaceOf.
    by destruct (NamespaceMapping (restore ctx) !! PVCNamespace volumeItem). }
  split.
  - intros Hs.
    assert (is_Some (startsWorker ctx volumeItem)) as Hsome by (by rewrite Hs).
    apply startsWorker_Some in Hsome as (Hm & [p Hp] & Hkey).
    unfold startsWorker in Hs. rewrite Hp in Hs.
    destruct (bool_decide _ || bool_decide _); [|done].
    cbv zeta in Hs. case_bool_decide; [|done].
    injection Hs as -> <-. rewrite <- Hns. done.
  - intros (Hm & Hp & -> & Hkey). rewrite <- Hns in Hkey |- *.
    unfold startsWorker. rewrite Hp. cbv zeta.
    rewrite (bool_decide_eq_true_2 _ Hkey).
    destruct Hm as [-> | ->]; [done|].
    by rewrite (bool_decide_eq_true_2 (CSISnapshot = CSISnapshot)), orb_true_r.
Qed.

Lemma runWorkers_cons volumeItem pvInfo ns rest errs (w : W) :
  runWorkers env ((volumeItem, pvInfo, ns) :: rest) errs w
  = let first := patchWorker env volumeItem pvInfo ns errs w in
    let others := runWorkers env rest (result_of first) (world_of first) in
    (result_of others, world_of others, trace_of first ++ trace_of others).
Proof.
  simpl. unfold bind.
  destruct (patchWorker env volumeItem pvInfo ns errs w) as [[errs' w'] t].
  unfold result_of, world_of, trace_of. simpl.
  by destruct (runWorkers env rest errs' w') as [[errs'' w''] t'].
Qed.

(** The loop is the run of the workers of the selected volumes. *)
Lemma patchVolumes_runWorkers ctx volumes : ∀ errs (w : W),
  patchVolumes env ctx volumes errs w = runWorkers env (started ctx volumes) errs w.
Proof.
  induction volumes as [|v rest IH]; intros errs w; [done|].
  rewrite patchVolumes_cons, started_cons.
  destruct (startsWorker ctx v) as [[pvInfo ns]|]; [|by apply IH].
  rewrite runWorkers_cons. cbv zeta. by rewrite IH.
Qed.

(** The claim that a worker fetches is its own, in its restored
    namespace, and it fetches it at least once. *)
Lemma attempt_getpvc volInfo pvInfo ns (w : W) ns' name :
  EvGetPVC ns' name ∈ trace_of (pollCondition env volInfo pvInfo ns w)
  ↔ ns' = ns ∧ name = PVCName volInfo.
Proof.
  destruct (attempt_calls env volInfo pvInfo ns w)
    as [Ht | [(pvName & Ht) | (pvName & pv & Ht & _)]]; rewrite Ht; split.
  - intros Hin. apply elem_of_cons in Hin as [Heq | Hin]; [by injection Heq|].
    by apply elem_of_nil in Hin.
  - intros [-> ->]. left.
  - intros Hin. apply elem_of_cons in Hin as [Heq | Hin]; [by injection Heq|].
    apply elem_of_cons in Hin as [Heq | Hin]; [done|]. by apply elem_of_nil in Hin.
  - intros [-> ->]. left.
  - intros Hin. apply elem_of_cons in Hin as [Heq | Hin]; [by injection Heq|].
    apply elem_of_cons in Hin as [Heq | Hin]; [done|].
    apply elem_of_cons in Hin as [Heq | Hin]; [done|]. by apply elem_of_nil in Hin.
  - intros [-> ->]. left.
Qed.

Lemma poll_getpvc volInfo pvInfo ns ns' name ticks : ∀ (w : W),
  EvGetPVC ns' name
    ∈ trace_of (PollUntilContextTimeout ticks (pollCondition env volInfo pvInfo ns) w)
  ↔ ns' = ns ∧ name = PVCName volInfo.
Proof.
  induction ticks as [|n IH]; intros w;
    pose proof (attempt_getpvc volInfo pvInfo ns w ns' name) as Hattempt;
    destruct (pollCondition env volInfo pvInfo ns w) as [[[ok e] w'] t] eqn:Hc;
    unfold trace_of in Hattempt; cbn [snd] in Hattempt.
  - destruct e as [e|]; [|destruct ok].
    + by rewrite (poll_stops _ _ _ _ _ _ Hc) by (left; done).
    + by rewrite (poll_stops _ _ _ _ _ _ Hc) by (right; done).
    + by rewrite (poll_deadline _ _ _ _ Hc).
  - destruct e as [e|]; [|destruct ok].
    + by rewrite (poll_stops _ _ _ _ _ _ Hc) by (left; done).
    + by rewrite (poll_stops _ _ _ _ _ _ Hc) by (right; done).
    + rewrite (poll_retries _ _ _ _ _ Hc). specialize (IH w').
      destruct (PollUntilContextTimeout n (pollCondition env volInfo pvInfo ns) w')
        as [[r w''] t'].
      unfold trace_of in *. cbn [snd] in *. rewrite elem_of_app. tauto.
Qed.

Lemma runWorkers_getpvc jobs ns name : ∀ errs (w : W),
  EvGetPVC ns name ∈ trace_of (runWorkers env jobs errs w)
  ↔ ∃ volumeItem pvInfo, (volumeItem, pvInfo, ns) ∈ jobs ∧ PVCName volumeItem = name.
Proof.
  induction jobs as [|[[v p] n] rest IH]; intros errs w.
  - split; [intros Hin; by apply elem_of_nil in Hin|].
    intros (v & p & Hin & _). by apply elem_of_nil in Hin.
  - rewrite runWorkers_cons. cbv zeta. unfold trace_of at 1. cbn [snd].
    rewrite elem_of_app, IH, patchWorker_poll, poll_getpvc. split.
    + intros [[-> ->] | (v' & p' & Hin & Hname)].
      * exists v, p. split; [left | done].
      * exists v', p'. split; [by right | done].
    + intros (v' & p' & Hin & Hname).
      apply elem_of_cons in Hin as [Heq | Hin].
      * injection Heq as -> -> ->. by left.
      * right. by exists v', p'.
Qed.

(** An iteration of the loop of the main goroutine. *)
Lemma step_main_loop ctx (s : Pool W) volumeItem rest :
  p_main s = Looping (volumeItem :: rest) →
  ∃ s', step_main ctx s = Some s'
        ∧ p_main s' = Looping rest
        ∧ p_errs s' = p_errs s ∧ p_trace s' = p_trace s ∧ p_world s' = p_world s
        ∧ workers s'
          = workers s ++ match startsWorker ctx volumeItem with
                         | Some (pvInfo, ns) => [mkWorker volumeItem pvInfo ns AtGate]
                         | None => []
                         end.
Proof.
  intros Hmain. unfold step_main. rewrite Hmain.
  destruct (startsWorker ctx volumeItem) as [[pvInfo ns]|]; eexists;
    (split; [reflexivity|]); simpl; repeat split; try done.
  by rewrite app_nil_r.
Qed.

(** C3: a worker is started for a volume of the list exactly when its
    backup method is PodVolumeBackup or CSISnapshot, its PVInfo is not
    nil, and the key made of its namespace after the remapping of the
    restore, a slash and the name of its claim is in the set of created
    claims; the worker is handed that PVInfo and that namespace.
    [patchDynamicPVWithVolumeInfo] is the run of the workers of the
    selected volumes, in the order of the list: a claim is fetched exactly
    when it is the claim of a selected volume, in its restored namespace;
    the Result holds at most one entry per selected volume; and when no
    volume is selected the function returns the empty Result, makes no
    call and leaves the cluster as it was.  In the goroutines, an
    iteration of the loop appends one worker for a selected volume and
    none for another one, and leaves the Result alone; in every
    interleaving the workers are those of the selected volumes among the
    ones that the loop has looked at, in the order of the list; from every
    reachable state the goroutines can go on until the function has
    returned, and then a worker has been started for every selected volume
    and for no other.  A volume that is not selected leaves nothing
    behind: the task gives the same errors, makes the same calls and ends
    in the same world as without that volume; the Result never holds more
    entries than workers were started; and no warning is returned at
    all. *)
Theorem C3_worker_iff_selected ctx :
  (∀ volumeItem,
     is_Some (startsWorker ctx volumeItem)
     ↔ (BackupMethod volumeItem = PodVolumeBackup
        ∨ BackupMethod volumeItem = CSISnapshot)
       ∧ vi_PVInfo volumeItem ≠ None
       ∧ sprintf_slash
           (default (PVCNamespace volumeItem)
                    (NamespaceMapping (restore ctx) !! PVCNamespace volumeItem))
           (PVCName volumeItem)
         ∈ restoredPVCList ctx)
  ∧ (∀ (w : W) s,
       reachable env ctx w s →
       ∃ seen, volumeInfo ctx = seen ++ remaining (p_main s)
               ∧ assignment <$> workers s = started ctx seen)
  ∧ (∀ (w : W) s,
       reachable env ctx w s → p_main s = Waiting ∨ p_main s = Returned →
       ∀ volumeItem pvInfo ns,
         (∃ wk, wk ∈ workers s ∧ assignment wk = (volumeItem, pvInfo, ns))
         ↔ volumeItem ∈ volumeInfo ctx
           ∧ startsWorker ctx volumeItem = Some (pvInfo, ns))
  ∧ (∀ before volumeItem after errs (w : W),
       startsWorker ctx volumeItem = None →
       patchVolumes env ctx (before ++ volumeItem :: after) errs w
       = patchVolumes env ctx (before ++ after) errs w)
  ∧ (∀ (w : W) s,
       reachable env ctx w s → (entries (p_errs s) ≤ length (workers s))%nat)
  ∧ (∀ (w : W), (result_of (execute env ctx w)).1 = Result_zero)
  ∧ (∀ volumeItem pvInfo ns,
       startsWorker ctx volumeItem = Some (pvInfo, ns)
       ↔ (BackupMethod volumeItem = PodVolumeBackup
          ∨ BackupMethod volumeItem = CSISnapshot)
         ∧ vi_PVInfo volumeItem = Some pvInfo
         ∧ ns = default (PVCNamespace volumeItem)
                        (NamespaceMapping (restore ctx) !! PVCNamespace volumeItem)
         ∧ sprintf_slash ns (PVCName volumeItem) ∈ restoredPVCList ctx)
  ∧ (∀ (w : W),
       patchDynamicPVWithVolumeInfo env ctx w
       = runWorkers env (started ctx (volumeInfo ctx)) Result_zero w)
  ∧ (∀ (w : W) ns name,
       EvGetPVC ns name ∈ trace_of (patchDynamicPVWithVolumeInfo env ctx w)
       ↔ ∃ volumeItem pvInfo,
           volumeItem ∈ volumeInfo ctx
           ∧ startsWorker ctx volumeItem = Some (pvInfo, ns)
           ∧ PVCName volumeItem = name)
  ∧ (∀ (w : W),
       (entries (result_of (patchDynamicPVWithVolumeInfo env ctx w))
        ≤ length (started ctx (volumeInfo ctx)))%nat)
  ∧ (∀ (w : W),
       (∀ volumeItem, volumeItem ∈ volumeInfo ctx → startsWorker ctx volumeItem = None) →
       patchDynamicPVWithVolumeInfo env ctx w = (Result_zero, w, []))
  ∧ (∀ (s : Pool W) volumeItem rest,
       p_main s = Looping (volumeItem :: rest) →
       ∃ s', step_main ctx s = Some s'
             ∧ p_main s' = Looping rest
             ∧ p_errs s' = p_errs s
             ∧ workers s'
               = workers s ++ match startsWorker ctx volumeItem with
                              | Some (pvInfo, ns) =>
                                  [mkWorker volumeItem pvInfo ns AtGate]
                              | None => []
                              end)
  ∧ (∀ (w : W) s,
       reachable env ctx w s →
       ∃ s', rtc (pool_step env ctx) s s'
             ∧ p_main s' = Returned
             ∧ assignment <$> workers s' = started ctx (volumeInfo ctx)).
Proof.
  split; [|split; [|split; [|split; [|split; [|split; [|split; [|split; [|split;
    [|split; [|split; [|split]]]]]]]]]]].
  - intros volumeItem. rewrite startsWorker_Some.
    unfold restoredNamespaceOf.
    assert (is_Some (vi_PVInfo volumeItem) ↔ vi_PVInfo volumeItem ≠ None) as ->.
    { destruct (vi_PVInfo volumeItem) as [pvInfo|].
      - split; [done | by eexists].
      - split; [by intros [? ?] | done]. }
    by destruct (NamespaceMapping (restore ctx) !! PVCNamespace volumeItem).
  - intros w s Hr.
    by destruct (pool_inv_reachable env ctx w s Hr) as (_ & _ & _ & _ & ? & _).
  - intros w s Hr Hmain volumeItem pvInfo ns.
    destruct (pool_inv_reachable env ctx w s Hr)
      as (_ & _ & _ & _ & (seen & Hseen & Hassign) & _).
    assert (Hall : seen = volumeInfo ctx).
    { destruct Hmain as [Hm | Hm]; rewrite Hm in Hseen; simpl in Hseen;
        by rewrite app_nil_r in Hseen. }
    rewrite Hall in Hassign. rewrite <- started_volumes, <- Hassign.
    rewrite list_elem_of_fmap. split.
    + intros (wk & Hin & Ha). by exists wk.
    + intros (wk & Ha & Hin). by exists wk.
  - intros before volumeItem after errs w Hskip.
    by apply patchVolumes_skip.
  - intros w s Hr.
    destruct (pool_inv_reachable env ctx w s Hr) as (_ & _ & _ & _ & _ & ?). lia.
  - intros w. by rewrite execute_run.
  - apply startsWorker_eq.
  - intros w. apply patchVolumes_runWorkers.
  - intros w ns name. unfold patchDynamicPVWithVolumeInfo.
    rewrite patchVolumes_runWorkers, runWorkers_getpvc. split.
    + intros (v & p & Hin & Hname). apply started_volumes in Hin as [Hin Hs].
      by exists v, p.
    + intros (v & p & Hin & Hs & Hname). exists v, p.
      split; [|done]. by apply started_volumes.
  - intros w. unfold patchDynamicPVWithVolumeInfo.
    destruct (patchVolumes_bounds env ctx (volumeInfo ctx) Result_zero w) as (He & _).
    rewrite entries_zero in He. lia.
  - intros w Hnone. by apply patchVolumes_none.
  - intros s volumeItem rest Hmain.
    destruct (step_main_loop ctx s volumeItem rest Hmain)
      as (s' & Hs & Hm & He & _ & _ & Hw).
    by exists s'.
  - intros w s Hr.
    destruct (pool_reaches_return env ctx w (pool_measure (pollTicks env) s) s)
      as (s' & Hrun & Hret); [done | done |].
    exists s'. split; [done|]. split; [done|].
    assert (reachable env ctx w s') as Hr'.
    { unfold reachable in *. by eapply rtc_trans. }
    destruct (pool_inv_reachable env ctx w s' Hr')
      as (_ & _ & _ & _ & (seen & Hseen & Hassign) & _).
    rewrite Hret in Hseen. simpl in Hseen. rewrite app_nil_r in Hseen.
    by rewrite Hseen.
Qed.

End Selection.

(** A restore that remaps [src] to [ns1]: of four volumes, the one of the
    claim [pvc-a] of [src] is selected, and its worker fetches the claim
    in [ns1]; the volume of another backup method, the one whose claim was
    not created and the one without PVInfo start no worker. *)
Lemma C3_witness :
  let run := patchDynamicPVWithVolumeInfo (scripted script1) ctx_mixed 0%nat in
  EvGetPVC "ns1" "pvc-a" ∈ trace_of run
  ∧ EvGetPVC "src" "pvc-a" ∉ trace_of run
  ∧ EvGetPVC "ns1" "pvc-n" ∉ trace_of run
  ∧ EvGetPVC "ns1" "pvc-b" ∉ trace_of run
  ∧ run = runWorkers (scripted script1) [(volume_remapped, pvInfo1, "ns1")]
                     Result_zero 0%nat.
Proof.
  intros run.
  destruct (C3_worker_iff_selected (scripted script1) ctx_mixed)
    as (_ & _ & _ & _ & _ & _ & _ & Hrun & Hfetch & _).
  assert (Hnot : ∀ ns name,
            (ns, name) ≠ ("ns1", "pvc-a") → EvGetPVC ns name ∉ trace_of run).
  { intros ns name Hne Hin. apply Hfetch in Hin as (v & p & Hv & Hs & Hname).
    repeat (apply elem_of_cons in Hv as [-> | Hv]);
      [| | | | by apply elem_of_nil in Hv];
      vm_compute in Hs; try discriminate Hs.
    injection Hs as <- <-. vm_compute in Hname. by subst name. }
  split.
  - apply Hfetch. exists volume_remapped, pvInfo1.
    split; [right; left|]. split; [vm_compute; reflexivity | reflexivity].
  - split; [by apply Hnot|]. split; [by apply Hnot|]. split; [by apply Hnot|].
    exact (Hrun 0%nat).
Defined.

(** ** Concrete runs of the further properties *)

Lemma X4_witness :
  Reconcile (scripted (with_restore (inl serverError) script1)) "velero" "velero/r1" 0%nat
  = (Some (Wrapped serverError "error getting restore velero/r1"), 0%nat,
     [EvGetRestore "velero/r1"]).
Proof.
  exact (X4_restore_read_error (scripted (with_restore (inl serverError) script1))
           "velero" "velero/r1" 0%nat serverError eq_refl eq_refl).
Defined.

Lemma X5_witness :
  Reconcile (scripted (with_volumes (inl serverError) script1)) "velero" "velero/r1" 0%nat
  = (Some (Wrapped serverError "error getting volumeInfo"), 0%nat,
     [EvGetRestore "velero/r1"; EvFetchBackupInfo "velero" "b1";
      EvGetBackupStore "default"; EvGetBackupVolumeInfos "default" "b1";
      EvCleanupClients]).
Proof.
  destruct (X5_load_error_stops_the_call
              (scripted (with_volumes (inl serverError) script1))
              "velero" "velero/r1" 0%nat 0%nat 0%nat restore1 {| location := "default" |}
              eq_refl eq_refl eq_refl) as (_ & Hvolumes & _).
  exact (Hvolumes serverError eq_refl eq_refl).
Defined.

Lemma X7_witness :
  patchWorker (scripted script_pvc_error) volume1 pvInfo1 "ns1" Result_zero 0%nat
  = (Add "ns1" (Error (FailToPatch serverError "pvc-a" "pv-old")) Result_zero, 1%nat,
     [EvGetPVC "ns1" "pvc-a"]).
Proof.
  destruct (X7_api_error_is_not_retried (scripted script_pvc_error) volume1 pvInfo1
              "ns1" 0%nat serverError Result_zero eq_refl) as (Hclaim & _).
  destruct (Hclaim eq_refl) as (_ & Hworker). exact Hworker.
Defined.

Lemma X8_witness :
  let run := patchWorker (scripted script_never_found) volume1 pvInfo1 "ns1"
               Result_zero 0%nat in
  trace_of run = replicate 3 (EvGetPVC "ns1" "pvc-a")
  ∧ entries (result_of run) = 1%nat.
Proof.
  destruct (X8_deadline_for_unbound_claim (scripted script_never_found) volume1 pvInfo1
              "ns1" 0%nat Result_zero (λ w, eq_refl))
    as (Htrace & _ & _ & Hentries & _).
  split; [exact Htrace | exact Hentries].
Defined.

Lemma X11_witness :
  let s := run_pool (scripted script_pvc_error) ctx_five schedule_lock
             (initPool ctx_five 0%nat) in
  resultLock s = true
  ∧ countb inCritical (workers s) = 1%nat
  ∧ step_worker (scripted script_pvc_error) 1 s = None.
Proof.
  intros s.
  destruct (X11_mutex_and_release (scripted script_pvc_error) ctx_five 0%nat s
              (run_pool_reachable (scripted script_pvc_error) ctx_five schedule_lock
                 0%nat))
    as (Hlock & _).
  assert (Hheld : resultLock s = true) by (vm_compute; reflexivity).
  split; [exact Hheld|]. split.
  - rewrite Hlock, Hheld. reflexivity.
  - vm_compute. reflexivity.
Defined.

Lemma X12_witness :
  let s := run_pool (scripted script1) ctx_five schedule_five (initPool ctx_five 0%nat) in
  ∃ s', pool_step (scripted script1) ctx_five s s'.
Proof.
  intros s.
  destruct (X12_no_deadlock (scripted script1) ctx_five 0%nat s
              (run_pool_reachable (scripted script1) ctx_five schedule_five 0%nat))
    as (Hmove & _).
  apply Hmove. vm_compute. discriminate.
Defined.

Lemma X13_witness :
  let s := run_pool (scripted script1) ctx_five [None; None] (initPool ctx_five 0%nat) in
  (2 + pool_measure 60 s ≤ 342)%nat
  ∧ ∃ s', rtc (pool_step (scripted script1) ctx_five) s s' ∧ p_main s' = Returned.
Proof.
  intros s.
  assert (Hrun : nsteps (pool_step (scripted script1) ctx_five) 2
                   (initPool ctx_five 0%nat) s).
  { eapply nsteps_l; [left; reflexivity|].
    eapply nsteps_l; [left; reflexivity|]. apply nsteps_O. }
  destruct (X13_pool_terminates (scripted script1) ctx_five 0%nat 2%nat s Hrun)
    as (Hbound & _ & Hend).
  split; [exact Hbound | exact Hend].
Defined.
